(** * IFermi: band-structure interpolation wrapper ([ifermi/interpolator.py])

    A shallow embedding of [Interpolater.interpolate_bands] and [DFTData],
    followed by the properties of the orchestration layer.

    Conventions of the embedding:
    - A finite Python float (band energy, fractional k-point coordinate) is
      the rational [Q] it denotes; comparisons are exact on them. The
      midpoint of line 160 is computed the way binary64 does, each operation
      rounded to the nearest double; infinities and NaN are not modelled.
    - Integer arrays coming from the external libraries (equivalence vectors,
      grid addresses) are [Z].
    - A Python [dict] keyed by spin is an insertion-ordered association list;
      the loops over [self._spins] follow that order.
    - An exception is a value of [exn]; a call yields the warnings it emitted
      together with either the exception raised or the value returned.
    - BoltzTraP2, spglib, ASE, pymatgen and the determinant routine of
      numpy are collaborators of the module: they are fields of a record the
      whole development is parameterised by. They are total functions here:
      an exception raised inside one of them is not modelled. *)

From Stdlib Require Import String.
From Stdlib Require Import List ZArith QArith Qminmax Qabs Qround Qpower.
From Stdlib Require Import Bool Lia Lqa.
From Stdlib Require Import Sorted Permutation.
Import ListNotations.

Set Implicit Arguments.

(** ** Exceptions, warnings and the call monad *)

(** [NoBandsInWindowError] is the error the written specification names; it
    is part of the type so that statements about it can be written down. *)
Inductive exn : Type :=
| ValueError
| IndexError
| KeyError
| NoBandsInWindowError.

Definition M (A : Type) : Type := (list string * (exn + A))%type.

Definition ret {A} (x : A) : M A := ([], inr x).
Definition raise {A} (e : exn) : M A := ([], inl e).
Definition warn (msg : string) : M unit := ([msg], inr tt).

Definition bind {A B} (m : M A) (f : A -> M B) : M B :=
  match m with
  | (w, inl e) => (w, inl e)
  | (w, inr x) => let (w', r) := f x in (w ++ w', r)
  end.

Declare Scope py_scope.
Delimit Scope py_scope with py.
Notation "x <- m ;; k" := (bind m (fun x => k))
  (at level 61, m at next level, right associativity) : py_scope.
Notation "' p <- m ;; k" := (bind m (fun x => let p := x in k))
  (at level 61, p pattern, m at next level, right associativity) : py_scope.
Open Scope py_scope.

Definition warnings {A} (m : M A) : list string := fst m.
Definition result {A} (m : M A) : exn + A := snd m.

(** [for x in xs: st = body x st] *)
Fixpoint for_ {A S} (xs : list A) (st : S) (body : A -> S -> M S) : M S :=
  match xs with
  | [] => ret st
  | x :: rest => st' <- body x st ;; for_ rest st' body
  end.

(** [[f x for x in xs]] *)
Fixpoint comprehension {A B} (f : A -> M B) (xs : list A) : M (list B) :=
  match xs with
  | [] => ret []
  | x :: rest => y <- f x ;; ys <- comprehension f rest ;; ret (y :: ys)
  end.

(** ** Spins and spin-keyed dictionaries *)

Inductive Spin : Type := Up | Down.

Definition Spin_eqb (a b : Spin) : bool :=
  match a, b with
  | Up, Up | Down, Down => true
  | _, _ => false
  end.

Definition dict (V : Type) : Type := list (Spin * V).

Definition keys {V} (d : dict V) : list Spin := map fst d.

Fixpoint dict_find {V} (s : Spin) (d : dict V) : option V :=
  match d with
  | [] => None
  | (k, v) :: rest => if Spin_eqb s k then Some v else dict_find s rest
  end.

(** [d[s]] *)
Definition dict_get {V} (d : dict V) (s : Spin) : M V :=
  match dict_find s d with
  | Some v => ret v
  | None => raise KeyError
  end.

(** [d[s] = v] *)
Fixpoint dict_set {V} (s : Spin) (v : V) (d : dict V) : dict V :=
  match d with
  | [] => [(s, v)]
  | (k, w) :: rest =>
      if Spin_eqb s k then (k, v) :: rest else (k, w) :: dict_set s v rest
  end.

(** ** Arrays *)

Definition vec3 (A : Type) : Type := (A * A * A)%type.
Definition matrix : Type := list (list Q).
Definition mat3 : Type := vec3 (vec3 Q).

Definition Qlt_bool (x y : Q) : bool := negb (Qle_bool y x).

Definition scale (a : matrix) (c : Q) : matrix := map (map (fun e => e * c)%Q) a.
Definition unscale (a : matrix) (c : Q) : matrix := map (map (fun e => e / c)%Q) a.

Definition scale3 (m : mat3) (c : Q) : mat3 :=
  let sc := fun v : vec3 Q => let '(x, y, z) := v in (x * c, y * c, z * c)%Q in
  let '(r0, r1, r2) := m in (sc r0, sc r1, sc r2).

(** ** Double precision *)

(** [floor (log2 q)] of a positive rational. *)
Definition Qlog2 (q : Q) : Z :=
  let k := (Z.log2 (Qnum q) - Z.log2 (Zpos (Qden q)))%Z in
  if Qle_bool (2 ^ k) q then k else (k - 1)%Z.

(** The nearest integer, a tie going to the even one. *)
Definition round_half_even (q : Q) : Z :=
  let f := Qfloor q in
  match (q - inject_Z f ?= 1 # 2)%Q with
  | Lt => f
  | Eq => if Z.even f then f else (f + 1)%Z
  | Gt => (f + 1)%Z
  end.

(** Exponent of the last place of the doubles around [q]: 53 significant
    bits, and the fixed spacing of the subnormal range below [2 ^ -1022]. *)
Definition ulp_exponent (q : Q) : Z := Z.max (Qlog2 (Qabs q) - 52) (-1074).

(** The double nearest to [q], ties to the even significand. *)
Definition round64 (q : Q) : Q :=
  if Qeq_bool q 0 then 0
  else let e := ulp_exponent q in
       Qred (inject_Z (round_half_even (q / 2 ^ e)) * 2 ^ e).

(** [x + y] and [x / y] of two floats. *)
Definition float_add (x y : Q) : Q := round64 (x + y).
Definition float_div (x y : Q) : Q := round64 (x / y).

(** Builtin [max] / [min] over a Python list. *)
Definition py_max (l : list Q) : M Q :=
  match l with
  | [] => raise ValueError
  | x :: rest => ret (fold_left Qmax rest x)
  end.

Definition py_min (l : list Q) : M Q :=
  match l with
  | [] => raise ValueError
  | x :: rest => ret (fold_left Qmin rest x)
  end.

Definition py_max_nat (l : list nat) : M nat :=
  match l with
  | [] => raise ValueError
  | x :: rest => ret (fold_left Nat.max rest x)
  end.

(** [np.max(a)] / [np.min(a)] / [a.max()] / [a.min()] of a 2-D array: the
    reduction runs over every entry and raises on a zero-size array. *)
Definition np_max (a : matrix) : M Q := py_max (concat a).
Definition np_min (a : matrix) : M Q := py_min (concat a).

(** [a[mask]] with a boolean mask along the first axis. *)
Fixpoint mask_rows {A} (mask : list bool) (rows : list A) : list A :=
  match mask, rows with
  | b :: mask', r :: rows' =>
      if b then r :: mask_rows mask' rows' else mask_rows mask' rows'
  | _, _ => []
  end.

Definition mask_select {A} (rows : list A) (mask : list bool) : M (list A) :=
  if Nat.eqb (length mask) (length rows) then ret (mask_rows mask rows)
  else raise IndexError.

(** [sum(mask)] of a boolean array. *)
Definition sum_bools (mask : list bool) : Z :=
  fold_left (fun acc (b : bool) => if b then acc + 1 else acc)%Z mask 0%Z.

(** Python slices [l[:n]] and [l[n:]] for an integer bound [n]. *)
Definition slice_to {A} (n : Z) (l : list A) : list A :=
  if (n <? 0)%Z then firstn (length l - Z.to_nat (- n)) l
  else firstn (Z.to_nat n) l.

Definition slice_from {A} (n : Z) (l : list A) : list A :=
  if (n <? 0)%Z then skipn (length l - Z.to_nat (- n)) l
  else skipn (Z.to_nat n) l.

(** [a[idx]] for an index array [idx] of non-negative positions. *)
Definition take {A} (l : list A) (idx : list nat) : M (list A) :=
  comprehension
    (fun i => match nth_error l i with
              | Some x => ret x
              | None => raise IndexError
              end) idx.

(** [b[:, idx]] *)
Definition take_cols (b : matrix) (idx : list nat) : M matrix :=
  comprehension (fun row => take row idx) b.

(** ** [np.lexsort] *)

(** A sort key is a column of floats or of booleans ([False < True]). *)
Inductive column : Type :=
| FloatCol (c : list Q)
| BoolCol (c : list bool).

Definition col_len (c : column) : nat :=
  match c with
  | FloatCol l => length l
  | BoolCol l => length l
  end.

Definition bool_leb (a b : bool) : bool := implb a b.

(** [key[i] <= key[j]] *)
Definition col_leb (c : column) (i j : nat) : bool :=
  match c with
  | FloatCol l => Qle_bool (nth i l 0%Q) (nth j l 0%Q)
  | BoolCol l => bool_leb (nth i l false) (nth j l false)
  end.

Section StableSort.
Variable leb : nat -> nat -> bool.

Fixpoint insert_stable (i : nat) (l : list nat) : list nat :=
  match l with
  | [] => [i]
  | j :: rest => if leb i j then i :: l else j :: insert_stable i rest
  end.

(** Stable sort of an index list: entries with equal keys keep their order. *)
Definition sort_stable (idx : list nat) : list nat :=
  fold_right insert_stable [] idx.
End StableSort.

(** [np.lexsort(keys)]: an indirect stable sort, one pass per key starting
    with the first, so that the last key is the primary one. *)
Definition lexsort (keys : list column) : list nat :=
  fold_left (fun idx key => sort_stable (col_leb key) idx) keys
            (seq 0 (col_len (last keys (FloatCol [])))).

(** [a[:, 0]], [a[:, 1]], [a[:, 2]] of an (n, 3) array. *)
Definition col0 {A} (a : list (vec3 A)) : list A := map (fun v => fst (fst v)) a.
Definition col1 {A} (a : list (vec3 A)) : list A := map (fun v => snd (fst v)) a.
Definition col2 {A} (a : list (vec3 A)) : list A := map (fun v => snd v) a.

Definition negative (c : list Q) : list bool := map (fun x => Qlt_bool x 0) c.

(** ** The collaborators and the data they exchange *)

Section Interpolation.

(** Values the module only passes along: the site list of a crystal
    structure, ASE atoms, magnetic moments, momentum matrices and one row of
    fitted Fourier coefficients. *)
Variables Sites Atoms Magmom Mommat Coef : Type.

Record Lattice : Type := { matrix_ : mat3 }.

Record Structure : Type := { lattice : Lattice; sites : Sites }.

(** [pymatgen] band structure: [bands[spin]] is indexed [band, kpoint]. *)
Record BandStructure : Type := {
  kpoints : list (vec3 Q);
  bands : dict matrix;
  lattice_rec : Lattice;
  efermi : Q;
  structure : Structure
}.

(** What [get_vbm()] / [get_cbm()] return, as far as the module reads it;
    ["band_index"] is a [defaultdict(list)], hence total. *)
Record BandEdge : Type := {
  energy : Q;
  band_index : Spin -> list nat
}.

Definition equivalences_t : Type := list (list (vec3 Z)).

(** [DFTData]: the bundle handed to the fitting routine. *)
Record DFTData : Type := {
  dft_kpoints : list (vec3 Q);
  ebands : matrix;
  lattice_matrix : mat3;
  volume : Q;
  mommat : option Mommat
}.

Definition get_lattvec (d : DFTData) : mat3 := lattice_matrix d.

Record Collaborators : Type := {
  (* numpy: LAPACK's determinant *)
  np_linalg_det : mat3 -> Q;
  (* BoltzTraP2 *)
  units_eV : Q;
  units_Angstrom : Q;
  sphere_get_equivalences : Atoms -> Q -> option Magmom -> equivalences_t;
  fite_fitde3D : DFTData -> equivalences_t -> list Coef;
  (* first component of the tuple [fite.getBTPbands] returns *)
  fite_getBTPbands : equivalences_t -> list Coef -> mat3 -> Z -> matrix;
  (* spglib: (mapping, grid) *)
  spglib_get_ir_reciprocal_mesh :
    vec3 Z -> Atoms -> Q -> list Z * list (vec3 Z);
  (* ASE adaptor *)
  get_atoms : Structure -> Atoms;
  (* pymatgen *)
  is_metal : BandStructure -> bool;
  get_vbm : BandStructure -> BandEdge;
  get_cbm : BandStructure -> BandEdge;
  (* multiprocessing *)
  cpu_count : Z
}.

Variable ext : Collaborators.

(** [DFTData.__init__] *)
Definition DFTData_init (kpts : list (vec3 Q)) (energies : matrix)
    (lattice_matrix : mat3) (mommat : option Mommat) : DFTData :=
  {| dft_kpoints := kpts;
     ebands := energies;
     lattice_matrix := lattice_matrix;
     volume := Qabs (np_linalg_det ext lattice_matrix);
     mommat := mommat |}.

(** ** [Interpolater] *)

Record Interpolater : Type := {
  _band_structure : BandStructure;
  _soc : bool;
  _spins : list Spin;
  _lattice_matrix : mat3;
  _projection_coefficients : dict (dict matrix);
  _kpoints : list (vec3 Q);
  _atoms : Atoms;
  _magmom : option Magmom;
  _mommat : option Mommat;
  _structure : Structure
}.

(** [Interpolater.__init__] *)
Definition Interpolater_init (band_structure : BandStructure) (soc : bool)
    (magmom : option Magmom) (mommat : option Mommat) : Interpolater :=
  {| _band_structure := band_structure;
     _soc := soc;
     _spins := keys (bands band_structure);
     _lattice_matrix :=
       scale3 (matrix_ (lattice (structure band_structure)))
              (units_Angstrom ext);
     _projection_coefficients := [];
     _kpoints := kpoints band_structure;
     _atoms := get_atoms ext (structure band_structure);
     _magmom := magmom;
     _mommat := mommat;
     _structure := structure band_structure |}.

(** ** [Interpolater.interpolate_bands] *)

(** [np.vstack(equivalences)] *)
Definition vstack (equivalences : equivalences_t) : M (list (vec3 Z)) :=
  match equivalences with
  | [] => raise ValueError
  | _ => ret (concat equivalences)
  end.

Definition abs3 (v : vec3 Z) : vec3 Z :=
  let '(x, y, z) := v in (Z.abs x, Z.abs y, Z.abs z).

Definition max3 (v w : vec3 Z) : vec3 Z :=
  let '(x, y, z) := v in
  let '(x', y', z') := w in (Z.max x x', Z.max y y', Z.max z z').

(** [np.max(a, axis=0)] of an (n, 3) integer array. *)
Definition np_max_axis0 (a : list (vec3 Z)) : M (vec3 Z) :=
  match a with
  | [] => raise ValueError
  | v :: rest => ret (fold_left max3 rest v)
  end.

(** [np.max(np.abs(np.vstack(equivalences)), axis=0)] *)
Definition max_abs_equivalences (equivalences : equivalences_t)
  : M (vec3 Z) :=
  stacked <- vstack equivalences ;;
  np_max_axis0 (map abs3 stacked).

(** Line 93: [2 * np.max(...) + 1]. *)
Definition interpolation_mesh_of (equivalences : equivalences_t)
  : M (vec3 Z) :=
  m <- max_abs_equivalences equivalences ;;
  let '(x, y, z) := m in ret (2 * x + 1, 2 * y + 1, 2 * z + 1)%Z.

(** Line 188: [np.max(...) * 2 + 1]. *)
Definition kpoint_dim_of (equivalences : equivalences_t) : M (vec3 Z) :=
  m <- max_abs_equivalences equivalences ;;
  let '(x, y, z) := m in ret (x * 2 + 1, y * 2 + 1, z * 2 + 1)%Z.

(** Lines 95-100: one fit per spin. *)
Definition fit_coefficients (self : Interpolater)
    (equivalences : equivalences_t) : M (dict (list Coef)) :=
  for_ (_spins self) []
    (fun spin coefficients =>
       b <- dict_get (bands (_band_structure self)) spin ;;
       let energies := scale b (units_eV ext) in
       let data :=
         DFTData_init (_kpoints self) energies (_lattice_matrix self)
                      (_mommat self) in
       ret (dict_set spin (fite_fitde3D ext data equivalences) coefficients)).

(** Truth value of a Python float. *)
Definition truthy (x : Q) : bool := negb (Qeq_bool x 0).

(** Lines 114-120: the window when no cut-off applies. *)
Definition full_window (self : Interpolater) : M (Q * Q) :=
  let bs := _band_structure self in
  mins <- comprehension
            (fun spin => b <- dict_get (bands bs) spin ;; np_min b)
            (_spins self) ;;
  min_e <- py_min mins ;;
  maxs <- comprehension
            (fun spin => b <- dict_get (bands bs) spin ;; np_max b)
            (_spins self) ;;
  max_e <- py_max maxs ;;
  ret (min_e, max_e).

(** Lines 105-120: [(min_e, max_e)]. *)
Definition energy_window (self : Interpolater) (energy_cutoff : option Q)
    (is_metal : bool) : M (Q * Q) :=
  let bs := _band_structure self in
  match energy_cutoff with
  | Some cutoff =>
      if truthy cutoff && is_metal then
        ret (efermi bs - cutoff, efermi bs + cutoff)%Q
      else if truthy cutoff then
        ret (energy (get_vbm ext bs) - cutoff,
             energy (get_cbm ext bs) + cutoff)%Q
      else full_window self
  | None => full_window self
  end.

(** Lines 125-129: [np.any((b > min_e) & (b < max_e), axis=1)]. *)
Definition band_mask (b : matrix) (min_e max_e : Q) : list bool :=
  map (existsb (fun e => Qlt_bool min_e e && Qlt_bool e max_e)) b.

(** Line 147: [sum(ibands[: vb_idx + 1]) - 1]. *)
Definition new_valence_index (ibands : list bool) (vb_idx : nat) : Z :=
  (sum_bools (slice_to (Z.of_nat vb_idx + 1) ibands) - 1)%Z.

(** Lines 122-147: evaluation of the selected bands, spin by spin. *)
Definition evaluate_bands (self : Interpolater)
    (equivalences : equivalences_t) (coefficients : dict (list Coef))
    (is_metal : bool) (nworkers : Z) (min_e max_e : Q)
  : M (dict matrix * dict Z) :=
  let bs := _band_structure self in
  for_ (_spins self) ([], [])
    (fun spin st =>
       let '(energies, new_vb_idx) := st in
       b <- dict_get (bands bs) spin ;;
       let ibands := band_mask b min_e max_e in
       c <- dict_get coefficients spin ;;
       selected <- mask_select c ibands ;;
       let e :=
         fite_getBTPbands ext equivalences selected (_lattice_matrix self)
                          nworkers in
       let energies := dict_set spin (unscale e (units_eV ext)) energies in
       if negb is_metal then
         vb_idx <- py_max_nat (band_index (get_vbm ext bs) spin) ;;
         ret (energies,
              dict_set spin (new_valence_index ibands vb_idx) new_vb_idx)
       else ret (energies, new_vb_idx)).

Definition recenter_warning : string :=
  "The Fermi energy may be different to that in the vasprun.xml file, due to the material being a semiconductor. The Fermi level has been set to midway between the top of the valence band and the bottom of the conduction band.".

(** Line 158: [np.max(energies[s][: new_vb_idx[s] + 1])]. *)
Definition valence_top (energies : dict matrix) (new_vb_idx : dict Z)
    (s : Spin) : M Q :=
  e <- dict_get energies s ;;
  i <- dict_get new_vb_idx s ;;
  np_max (slice_to (i + 1) e).

(** Line 159: [np.min(energies[s][new_vb_idx[s] + 1 :])]. *)
Definition conduction_bottom (energies : dict matrix) (new_vb_idx : dict Z)
    (s : Spin) : M Q :=
  e <- dict_get energies s ;;
  i <- dict_get new_vb_idx s ;;
  np_min (slice_from (i + 1) e).

(** Lines 150-160. *)
Definition fermi_level (self : Interpolater) (is_metal : bool)
    (energies : dict matrix) (new_vb_idx : dict Z) : M Q :=
  if is_metal then ret (efermi (_band_structure self))
  else
    _ <- warn recenter_warning ;;
    tops <- comprehension (valence_top energies new_vb_idx) (_spins self) ;;
    e_vbm <- py_max tops ;;
    bottoms <- comprehension (conduction_bottom energies new_vb_idx)
                 (_spins self) ;;
    e_cbm <- py_min bottoms ;;
    ret (float_div (float_add e_vbm e_cbm) 2).

(** Line 166: [grid / interpolation_mesh]. *)
Definition grid_to_frac (interpolation_mesh : vec3 Z) (g : vec3 Z) : vec3 Q :=
  let '(gx, gy, gz) := g in
  let '(mx, my, mz) := interpolation_mesh in
  (inject_Z gx / inject_Z mx, inject_Z gy / inject_Z my,
   inject_Z gz / inject_Z mz)%Q.

(** Lines 169-178: the keys of the sign-first sort. *)
Definition sign_first_keys (k : list (vec3 Q)) : list column :=
  [ FloatCol (col2 k); BoolCol (negative (col2 k));
    FloatCol (col1 k); BoolCol (negative (col1 k));
    FloatCol (col0 k); BoolCol (negative (col0 k)) ].

(** Lines 182-184: the keys of the plain sort. *)
Definition plain_keys (k : list (vec3 Q)) : list column :=
  [ FloatCol (col2 k); FloatCol (col1 k); FloatCol (col0 k) ].

(** Line 186: [{s: b[:, sort_idx] for s, b in energies.items()}]. *)
Definition reorder_energies (energies : dict matrix) (sort_idx : list nat)
  : M (dict matrix) :=
  for_ energies []
    (fun item acc =>
       let '(s, b) := item in
       b' <- take_cols b sort_idx ;;
       ret (dict_set s b' acc)).

Definition interpolate_bands (self : Interpolater) (interpolation_factor : Q)
    (energy_cutoff : option Q) (nworkers : Z)
  : M (BandStructure * vec3 Z) :=
  let bs := _band_structure self in
  let equivalences :=
    sphere_get_equivalences ext (_atoms self)
      (inject_Z (Z.of_nat (length (_kpoints self))) * interpolation_factor)%Q
      (_magmom self) in
  interpolation_mesh <- interpolation_mesh_of equivalences ;;
  coefficients <- fit_coefficients self equivalences ;;
  let is_metal := is_metal ext bs in
  let nworkers := if (nworkers =? -1)%Z then cpu_count ext else nworkers in
  '(min_e, max_e) <- energy_window self energy_cutoff is_metal ;;
  '(energies, new_vb_idx) <-
    evaluate_bands self equivalences coefficients is_metal nworkers
                   min_e max_e ;;
  efermi <- fermi_level self is_metal energies new_vb_idx ;;
  let atoms := get_atoms ext (structure bs) in
  let '(mapping, grid) :=
    spglib_get_ir_reciprocal_mesh ext interpolation_mesh atoms (1 # 10) in
  let full_kpoints := map (grid_to_frac interpolation_mesh) grid in
  let sort_idx := lexsort (sign_first_keys full_kpoints) in
  full_kpoints <- take full_kpoints sort_idx ;;
  let sort_idx := lexsort (plain_keys full_kpoints) in
  full_kpoints <- take full_kpoints sort_idx ;;
  energies <- reorder_energies energies sort_idx ;;
  kpoint_dim <- kpoint_dim_of equivalences ;;
  let interp_band_structure :=
    {| kpoints := full_kpoints;
       bands := energies;
       lattice_rec := lattice (structure bs);
       efermi := efermi;
       structure := _structure self |} in
  ret (interp_band_structure, kpoint_dim).

End Interpolation.

(** * Sample collaborators and inputs

    A three-point mesh along the first reciprocal axis: the equivalence
    classes are the origin and the pair (1,0,0), (-1,0,0), the grid of the
    symmetry routine is 0, 1, -1 in units of a third, and the fitted
    interpolation reproduces the input energies on that mesh, columns in
    the sign-first order 0, 1/3, -1/3. The answers of [is_metal],
    [get_vbm] and [get_cbm] are tabulated per band structure. *)

Module Sample.

Definition T : Type := unit.

Definition cell : Structure T :=
  {| lattice := {| matrix_ := ((4, 0, 0), (0, 4, 0), (0, 0, 4)) |};
     sites := tt |}.

Definition edge (e : Q) (up down : list nat) : BandEdge :=
  {| energy := e;
     band_index := fun s => match s with Up => up | Down => down end |}.

(** The determinant by cofactor expansion. *)
Definition det3 (m : mat3) : Q :=
  let '((a, b, c), (d, e, f), (g, h, i)) := m in
  (a * (e * i - f * h) - b * (d * i - f * g) + c * (d * h - e * g))%Q.

Definition collaborators (metal : bool) (vbm cbm : BandEdge)
  : Collaborators T T T T (list Q) :=
  {| np_linalg_det := det3;
     units_eV := 3 # 80;
     units_Angstrom := 189 # 100;
     sphere_get_equivalences :=
       fun _ _ _ => [[(0, 0, 0)]; [(1, 0, 0); (-1, 0, 0)]]%Z;
     fite_fitde3D := fun data _ => ebands data;
     fite_getBTPbands := fun _ coeffs _ _ => coeffs;
     spglib_get_ir_reciprocal_mesh :=
       fun _ _ _ => ([0; 1; 1], [(0, 0, 0); (1, 0, 0); (-1, 0, 0)])%Z;
     get_atoms := fun _ => tt;
     is_metal := fun _ => metal;
     get_vbm := fun _ => vbm;
     get_cbm := fun _ => cbm;
     cpu_count := 4 |}.

Definition mesh_kpoints : list (vec3 Q) :=
  [(0, 0, 0); (1 # 3, 0, 0); (- (1 # 3), 0, 0)].

Definition band_structure (b : dict matrix) (ef : Q) : BandStructure T :=
  {| kpoints := mesh_kpoints;
     bands := b;
     lattice_rec := lattice cell;
     efermi := ef;
     structure := cell |}.

(** A metal: the lower band crosses the Fermi level at 0. *)
Definition metal_bs : BandStructure T :=
  band_structure [(Up, [[-3; 2; 2]; [1; 4; 4]])] 0.
Definition metal_ext := collaborators true (edge 0 [] []) (edge 0 [] []).

(** A metal whose single band steps over the Fermi level between two
    k-points of the coarse mesh. *)
Definition coarse_metal_bs : BandStructure T :=
  band_structure [(Up, [[-3; 2; 2]])] 0.

(** A semiconductor, two spin channels: valence bands 0 and 1, gap from
    -1 to 1. *)
Definition gapped_bs : BandStructure T :=
  band_structure
    [(Up, [[-3; -(5 # 2); -(5 # 2)]; [-1; -2; -2]; [1; 2; 2]]);
     (Down, [[-3; -(5 # 2); -(5 # 2)]; [-1; -2; -2]; [1; 2; 2]])] 0.
Definition gapped_ext :=
  collaborators false (edge (-1) [1%nat] [1%nat]) (edge 1 [2%nat] [2%nat]).

(** A zero-gap semiconductor: the two bands touch at the zone centre, and
    no band has states on both sides of the Fermi level. *)
Definition zero_gap_bs : BandStructure T :=
  band_structure [(Up, [[0; -1; -1]; [0; 1; 1]])] 0.
Definition zero_gap_ext :=
  collaborators false (edge (-1) [0%nat] []) (edge 0 [0%nat; 1%nat] []).

(** A semiconductor whose lowest and highest bands are dispersionless. *)
Definition flat_bs : BandStructure T :=
  band_structure [(Up, [[-5; -5; -5]; [-1; -2; -2]; [3; 3; 3]])] 0.
Definition flat_ext :=
  collaborators false (edge (-1) [1%nat] []) (edge 3 [2%nat] []).

(** A metal with a dispersionless lowest band. *)
Definition flat_metal_bs : BandStructure T :=
  band_structure [(Up, [[-5; -5; -5]; [-1; 1; 1]])] 0.

(** A spin-polarised semiconductor: the gap is set by the up channel, the
    down channel has no band near it. *)
Definition polarized_bs : BandStructure T :=
  band_structure
    [(Up, [[-1; -2; -2]; [1; 2; 2]]); (Down, [[-6; -7; -7]; [8; 9; 9]])] 0.
Definition polarized_ext :=
  collaborators false (edge (-1) [0%nat] []) (edge 1 [1%nat] []).

Definition interpolater (ext : Collaborators T T T T (list Q))
    (bs : BandStructure T) : Interpolater T T T T :=
  Interpolater_init ext bs false None None.

(** The value a call returned (an empty band structure if it raised). *)
Definition returned (call : M (BandStructure T * vec3 Z))
  : BandStructure T * vec3 Z :=
  match result call with
  | inr r => r
  | inl _ => (band_structure [] 0, (0, 0, 0)%Z)
  end.

Definition metal_call : M (BandStructure T * vec3 Z) :=
  interpolate_bands metal_ext (interpolater metal_ext metal_bs) 5 None (-1).

(** A cut-off of exactly 0.0 on the metal. *)
Definition zero_cutoff_call : M (BandStructure T * vec3 Z) :=
  interpolate_bands metal_ext (interpolater metal_ext metal_bs) 5 (Some 0)
                    (-1).

Definition flat_metal_call : M (BandStructure T * vec3 Z) :=
  interpolate_bands metal_ext (interpolater metal_ext flat_metal_bs) 5 None
                    (-1).

Definition flat_call : M (BandStructure T * vec3 Z) :=
  interpolate_bands flat_ext (interpolater flat_ext flat_bs) 5 None (-1).

Definition zero_gap_call : M (BandStructure T * vec3 Z) :=
  interpolate_bands zero_gap_ext (interpolater zero_gap_ext zero_gap_bs) 5
                    None (-1).

(** A cut-off of half an eV on the coarse metal. *)
Definition coarse_metal_call : M (BandStructure T * vec3 Z) :=
  interpolate_bands metal_ext (interpolater metal_ext coarse_metal_bs) 5
                    (Some (1 # 2)) (-1).

(** A cut-off of half an eV on the spin-polarised semiconductor. *)
Definition polarized_call : M (BandStructure T * vec3 Z) :=
  interpolate_bands polarized_ext (interpolater polarized_ext polarized_bs)
                    5 (Some (1 # 2)) (-1).

Definition gapped_call : M (BandStructure T * vec3 Z) :=
  interpolate_bands gapped_ext (interpolater gapped_ext gapped_bs) 5 None
                    (-1).

End Sample.

(** Collaborators for the edge cases of the call. *)
Module Edge.

(** The sample metal's collaborators, with an equivalence routine that
    finds no lattice vector at all. *)
Definition no_equivalences_ext
  : Collaborators Sample.T Sample.T Sample.T Sample.T (list Q) :=
  {| np_linalg_det := Sample.det3;
     units_eV := 3 # 80;
     units_Angstrom := 189 # 100;
     sphere_get_equivalences := fun _ _ _ => [];
     fite_fitde3D := fun data _ => ebands data;
     fite_getBTPbands := fun _ coeffs _ _ => coeffs;
     spglib_get_ir_reciprocal_mesh :=
       fun _ _ _ => ([0; 1; 1], [(0, 0, 0); (1, 0, 0); (-1, 0, 0)])%Z;
     get_atoms := fun _ => tt;
     is_metal := fun _ => true;
     get_vbm := fun _ => Sample.edge 0 [] [];
     get_cbm := fun _ => Sample.edge 0 [] [];
     cpu_count := 4 |}.

Definition no_equivalences_call : M (BandStructure Sample.T * vec3 Z) :=
  interpolate_bands no_equivalences_ext
    (Sample.interpolater no_equivalences_ext Sample.metal_bs) 5 None (-1).

(** A cut-off of 3 eV on the sample metal. *)
Definition wide_cutoff_call : M (BandStructure Sample.T * vec3 Z) :=
  interpolate_bands Sample.metal_ext
    (Sample.interpolater Sample.metal_ext Sample.metal_bs) 5 (Some 3) (-1).

(** The spin-polarised semiconductor without a cut-off. *)
Definition polarized_full_call : M (BandStructure Sample.T * vec3 Z) :=
  interpolate_bands Sample.polarized_ext
    (Sample.interpolater Sample.polarized_ext Sample.polarized_bs) 5 None
    (-1).

(** A semiconductor whose valence maximum, 1, and conduction minimum,
    1 + 2^-52, are neighbouring doubles. *)
Definition next_after_one : Q := 1 + Qmake 1 (2 ^ 52).

Definition narrow_gap_bs : BandStructure Sample.T :=
  Sample.band_structure [(Up, [[1; 0; 0]; [next_after_one; 2; 2]])] 0.
Definition narrow_gap_ext :=
  Sample.collaborators false (Sample.edge 1 [0%nat] [])
                       (Sample.edge next_after_one [1%nat] []).

Definition narrow_gap_call : M (BandStructure Sample.T * vec3 Z) :=
  interpolate_bands narrow_gap_ext
    (Sample.interpolater narrow_gap_ext narrow_gap_bs) 5 None (-1).

(** The sample metal's collaborators, with a symmetry routine that lists
    the grid point -1 before the grid point 1: its grid is not in the
    sign-first order 0, 1/3, -1/3 of the evaluation routine. *)
Definition unordered_grid_ext
  : Collaborators Sample.T Sample.T Sample.T Sample.T (list Q) :=
  {| np_linalg_det := Sample.det3;
     units_eV := 3 # 80;
     units_Angstrom := 189 # 100;
     sphere_get_equivalences :=
       fun _ _ _ => [[(0, 0, 0)]; [(1, 0, 0); (-1, 0, 0)]]%Z;
     fite_fitde3D := fun data _ => ebands data;
     fite_getBTPbands := fun _ coeffs _ _ => coeffs;
     spglib_get_ir_reciprocal_mesh :=
       fun _ _ _ => ([0; 1; 1], [(0, 0, 0); (-1, 0, 0); (1, 0, 0)])%Z;
     get_atoms := fun _ => tt;
     is_metal := fun _ => true;
     get_vbm := fun _ => Sample.edge 0 [] [];
     get_cbm := fun _ => Sample.edge 0 [] [];
     cpu_count := 4 |}.

(** A metal whose bands differ between the k-points 1/3 and -1/3. *)
Definition skew_bs : BandStructure Sample.T :=
  Sample.band_structure [(Up, [[-3; 2; 1]; [3; 4; 5]])] 0.

Definition skew_call : M (BandStructure Sample.T * vec3 Z) :=
  interpolate_bands unordered_grid_ext
    (Sample.interpolater unordered_grid_ext skew_bs) 5 None (-1).

(** The energy of band [n] of that metal at the k-point [p], the way the
    sample evaluation routine reproduces it. *)
Definition skew_energy (s : Spin) (n : nat) (p : vec3 Q) : Q :=
  let x := fst (fst p) in
  let e := if Qlt_bool x 0 then match n with O => 1 | _ => 5 end
           else if Qlt_bool 0 x then match n with O => 2 | _ => 4 end
           else match n with O => -3 | _ => 3 end in
  (e * (3 # 80) / (3 # 80))%Q.

End Edge.

(** * Vocabulary of the properties *)

(** Components of a 3-vector. *)
Definition c0 {A} (v : vec3 A) : A := fst (fst v).
Definition c1 {A} (v : vec3 A) : A := snd (fst v).
Definition c2 {A} (v : vec3 A) : A := snd v.

(** [m] is the largest absolute value the component [c] takes in [vs]. *)
Definition is_max_abs (c : vec3 Z -> Z) (vs : list (vec3 Z)) (m : Z) : Prop :=
  (exists v, In v vs /\ Z.abs (c v) = m) /\
  (forall v, In v vs -> (Z.abs (c v) <= m)%Z).

(** Band [i] of [b] has a k-point whose energy lies strictly inside the
    window. *)
Definition band_selected (b : matrix) (min_e max_e : Q) (i : nat) : bool :=
  match nth_error b i with
  | Some row => existsb (fun e => Qlt_bool min_e e && Qlt_bool e max_e) row
  | None => false
  end.

(** Number of selected bands whose original index is at or below [vb]. *)
Definition selected_at_or_below (b : matrix) (min_e max_e : Q) (vb : nat)
  : nat :=
  length (filter (fun i => (i <=? vb)%nat && band_selected b min_e max_e i)
                 (seq 0 (length b))).

(** Two dictionaries, or a dictionary and a key list, with the same keys. *)
Definition same_keys (k1 k2 : list Spin) : Prop :=
  forall s, In s k1 <-> In s k2.

(** Ascending lexicographic order on (x, y, z). *)
Definition lex_le (p q : vec3 Q) : Prop :=
  (c0 p < c0 q \/
   (c0 p == c0 q /\
    (c1 p < c1 q \/ (c1 p == c1 q /\ c2 p <= c2 q))))%Q.

(** [e] is an interpolated energy of a band at or below, respectively
    strictly above, the new valence-band index of its spin. *)
Definition valence_energy (energies : dict matrix) (new_vb_idx : dict Z)
    (e : Q) : Prop :=
  exists s b i n row,
    dict_find s energies = Some b /\ dict_find s new_vb_idx = Some i /\
    nth_error b n = Some row /\ (Z.of_nat n <= i)%Z /\ In e row.

Definition conduction_energy (energies : dict matrix) (new_vb_idx : dict Z)
    (e : Q) : Prop :=
  exists s b i n row,
    dict_find s energies = Some b /\ dict_find s new_vb_idx = Some i /\
    nth_error b n = Some row /\ (i < Z.of_nat n)%Z /\ In e row.

Definition is_maximum (P : Q -> Prop) (m : Q) : Prop :=
  P m /\ forall e, P e -> (e <= m)%Q.

Definition is_minimum (P : Q -> Prop) (m : Q) : Prop :=
  P m /\ forall e, P e -> (m <= e)%Q.

(** Order of two indices under a key, ties decided by [R]. *)
Definition then_by (leb : nat -> nat -> bool) (R : nat -> nat -> Prop)
    (i j : nat) : Prop :=
  leb i j = true /\ (leb j i = true -> R i j).

(** Order of two rows of [k] under the keys of the plain sort: x first,
    then y, then z, ties left in place. *)
Definition plain_order (k : list (vec3 Q)) : nat -> nat -> Prop :=
  then_by (col_leb (FloatCol (col0 k)))
    (then_by (col_leb (FloatCol (col1 k)))
       (then_by (col_leb (FloatCol (col2 k))) lt)).

(** Order of two coordinates under the keys [(c < 0, c)]: the non-negative
    ones first, ascending within either sign. *)
Definition sign_first_lt (a b : Q) : Prop :=
  ((0 <= a /\ b < 0) \/ (a < b /\ (b < 0 \/ 0 <= a)))%Q.

(** Sign-first lexicographic order on (x, y, z). *)
Definition sign_first_le (p q : vec3 Q) : Prop :=
  sign_first_lt (c0 p) (c0 q) \/
  ((c0 p == c0 q)%Q /\
   (sign_first_lt (c1 p) (c1 q) \/
    ((c1 p == c1 q)%Q /\
     (sign_first_lt (c2 p) (c2 q) \/ (c2 p == c2 q)%Q)))).

(** Order of two rows of [k] under the keys of the sign-first sort. *)
Definition sign_first_order (k : list (vec3 Q)) : nat -> nat -> Prop :=
  then_by (col_leb (BoolCol (negative (col0 k))))
    (then_by (col_leb (FloatCol (col0 k)))
       (then_by (col_leb (BoolCol (negative (col1 k))))
          (then_by (col_leb (FloatCol (col1 k)))
             (then_by (col_leb (BoolCol (negative (col2 k))))
                (then_by (col_leb (FloatCol (col2 k))) lt))))).

(** [l'] is [l] re-indexed by [idx]: entry [m] of [l'] is entry [idx[m]] of
    [l], for every position [m] of [idx]. *)
Definition reindexed {A} (idx : list nat) (l l' : list A) : Prop :=
  Forall2 (fun i x => nth_error l i = Some x) idx l'.

(** Rows [i] and [j] of [l] in the order a stable sort by [le] leaves them
    in: ascending, rows that compare equal in their order of position. *)
Definition stable_order {A} (le : A -> A -> Prop) (l : list A) (i j : nat)
  : Prop :=
  exists x y,
    nth_error l i = Some x /\ nth_error l j = Some y /\
    le x y /\ (le y x -> (i < j)%nat).

(** [idx] is the permutation of the positions of [l] that sorts [l] stably
    by [le]. *)
Definition sorts_stably {A} (le : A -> A -> Prop) (l : list A)
    (idx : list nat) : Prop :=
  Permutation idx (seq 0 (length l)) /\
  StronglySorted (stable_order le l) idx.

(** Column [i] of band row [n] of spin [s] holds [E s n p], the energy of
    that band at the [i]-th k-point [p] of [kp]. *)
Definition columns_follow (E : Spin -> nat -> vec3 Q -> Q)
    (kp : list (vec3 Q)) (energies : dict matrix) : Prop :=
  forall s b n row i p,
    dict_find s energies = Some b -> nth_error b n = Some row ->
    nth_error kp i = Some p -> nth_error row i = Some (E s n p).

(** The coefficients fitted for one spin, and the energies evaluated for
    one spin from its selected coefficients. *)
Definition fitted {Sites Atoms Magmom Mommat Coef : Type}
    (ext : Collaborators Sites Atoms Magmom Mommat Coef)
    (self : Interpolater Sites Atoms Magmom Mommat)
    (equivalences : equivalences_t) (b : matrix) : list Coef :=
  fite_fitde3D ext
    (DFTData_init ext (_kpoints self) (scale b (units_eV ext))
                  (_lattice_matrix self) (_mommat self))
    equivalences.

Definition evaluated {Sites Atoms Magmom Mommat Coef : Type}
    (ext : Collaborators Sites Atoms Magmom Mommat Coef)
    (self : Interpolater Sites Atoms Magmom Mommat)
    (equivalences : equivalences_t) (nworkers : Z) (selected : list Coef)
  : matrix :=
  unscale (fite_getBTPbands ext equivalences selected (_lattice_matrix self)
                            nworkers)
          (units_eV ext).


(** [q] is a double, the exponent range taken as unbounded above:
    rounding leaves it as it is. *)
Definition is_double (q : Q) : Prop := (round64 q == q)%Q.

(** A call that emits no warning. *)
Definition silent {A} (m : M A) : Prop := warnings m = [].

(** A call that does not raise the given exception. *)
Definition never {A} (e : exn) (m : M A) : Prop := result m <> inl e.

(** * Reasoning about calls *)

Section CallLemmas.
Context {A B : Type}.

Lemma result_ret (x : A) : result (ret x) = inr x.
Proof. reflexivity. Qed.

Lemma result_bind_ok (m : M A) (f : A -> M B) (y : B) :
  result (bind m f) = inr y ->
  exists x, result m = inr x /\ result (f x) = inr y.
Proof.
  destruct m as [w [e | x]]; simpl; [discriminate |].
  destruct (f x) as [w' r] eqn:E; simpl; intros ->.
  exists x; rewrite E; auto.
Qed.

Lemma result_bind_intro (m : M A) (f : A -> M B) (x : A) :
  result m = inr x -> result (bind m f) = result (f x).
Proof.
  destruct m as [w [e | x']]; simpl; [discriminate |].
  intros [= <-]. destruct (f x'); reflexivity.
Qed.

Lemma result_bind_err (m : M A) (f : A -> M B) (e : exn) :
  result (bind m f) = inl e ->
  result m = inl e \/ exists x, result m = inr x /\ result (f x) = inl e.
Proof.
  destruct m as [w [e' | x]]; unfold result; simpl;
    [intros [= ->]; auto |].
  destruct (f x) as [w' r] eqn:E; simpl; intros ->.
  right; exists x; rewrite E; auto.
Qed.

Lemma warnings_bind (m : M A) (f : A -> M B) :
  warnings (bind m f) =
  warnings m ++ match result m with
                | inr x => warnings (f x)
                | inl _ => []
                end.
Proof.
  destruct m as [w [e | x]]; simpl; [now rewrite app_nil_r |].
  destruct (f x); reflexivity.
Qed.
End CallLemmas.

Lemma warnings_bind_ok {A B} (m : M A) (f : A -> M B) (x : A) :
  result m = inr x -> warnings (bind m f) = warnings m ++ warnings (f x).
Proof. intros H. now rewrite warnings_bind, H. Qed.

Lemma silent_ret {A} (x : A) : silent (ret x).
Proof. reflexivity. Qed.

Lemma silent_raise {A} (e : exn) : silent (@raise A e).
Proof. reflexivity. Qed.

Lemma silent_bind {A B} (m : M A) (f : A -> M B) :
  silent m -> (forall x, silent (f x)) -> silent (bind m f).
Proof.
  unfold silent; intros Hm Hf. rewrite warnings_bind, Hm.
  destruct (result m); simpl; auto.
Qed.

Lemma silent_for {A S} (xs : list A) (body : A -> S -> M S) :
  (forall x st, silent (body x st)) -> forall st, silent (for_ xs st body).
Proof.
  intros Hb; induction xs as [| x xs IH]; intros st; simpl.
  - apply silent_ret.
  - apply silent_bind; auto.
Qed.

Lemma silent_comprehension {A B} (f : A -> M B) (xs : list A) :
  (forall x, silent (f x)) -> silent (comprehension f xs).
Proof.
  intros Hf; induction xs as [| x xs IH]; simpl.
  - apply silent_ret.
  - apply silent_bind; auto. intros y.
    apply silent_bind; auto. intros ys. apply silent_ret.
Qed.

Lemma never_ret {A} e (x : A) : never e (ret x).
Proof. unfold never; simpl; discriminate. Qed.

Lemma never_raise {A} e e' : e' <> e -> never e (@raise A e').
Proof. unfold never; simpl; congruence. Qed.

Lemma never_bind {A B} e (m : M A) (f : A -> M B) :
  never e m -> (forall x, never e (f x)) -> never e (bind m f).
Proof.
  unfold never; intros Hm Hf H.
  apply result_bind_err in H as [H | (x & _ & H)]; [auto | eapply Hf; eauto].
Qed.

Lemma never_for {A S} e (xs : list A) (body : A -> S -> M S) :
  (forall x st, never e (body x st)) -> forall st, never e (for_ xs st body).
Proof.
  intros Hb; induction xs as [| x xs IH]; intros st; simpl.
  - apply never_ret.
  - apply never_bind; auto.
Qed.

Lemma never_comprehension {A B} e (f : A -> M B) (xs : list A) :
  (forall x, never e (f x)) -> never e (comprehension f xs).
Proof.
  intros Hf; induction xs as [| x xs IH]; simpl.
  - apply never_ret.
  - apply never_bind; auto. intros y.
    apply never_bind; auto. intros ys. apply never_ret.
Qed.

(** Loop invariants, indexed by the part of the list already visited. *)
Lemma for_invariant {A S} (I : list A -> S -> Prop) (body : A -> S -> M S) :
  (forall done x st st',
      I done st -> result (body x st) = inr st' -> I (done ++ [x]) st') ->
  forall xs done st st',
    I done st -> result (for_ xs st body) = inr st' -> I (done ++ xs) st'.
Proof.
  intros Hstep; induction xs as [| x xs IH]; intros done st st' HI H; simpl in H.
  - injection H as <-. now rewrite app_nil_r.
  - apply result_bind_ok in H as (st1 & H1 & H2).
    replace (done ++ x :: xs) with ((done ++ [x]) ++ xs)
      by (rewrite <- app_assoc; reflexivity).
    eapply IH; eauto.
Qed.

Lemma comprehension_ok {A B} (f : A -> M B) (xs : list A) (ys : list B) :
  result (comprehension f xs) = inr ys ->
  Forall2 (fun x y => result (f x) = inr y) xs ys.
Proof.
  revert ys; induction xs as [| x xs IH]; intros ys H; simpl in H.
  - injection H as <-. constructor.
  - apply result_bind_ok in H as (y & Hy & H).
    apply result_bind_ok in H as (ys' & Hys & H).
    injection H as <-. constructor; auto.
Qed.

Lemma comprehension_intro {A B} (f : A -> M B) (xs : list A) (ys : list B) :
  Forall2 (fun x y => result (f x) = inr y) xs ys ->
  result (comprehension f xs) = inr ys.
Proof.
  induction 1 as [| x y xs ys Hxy _ IH]; simpl; [reflexivity |].
  rewrite (result_bind_intro _ _ Hxy), (result_bind_intro _ _ IH).
  reflexivity.
Qed.

Lemma Forall2_In_l {A B} (R : A -> B -> Prop) xs ys x :
  Forall2 R xs ys -> In x xs -> exists y, In y ys /\ R x y.
Proof.
  induction 1 as [| a b xs ys Hab _ IH]; simpl; [intros [] |].
  intros [<- | Hin]; [eauto |].
  destruct (IH Hin) as (y & ? & ?). eauto.
Qed.

Lemma Forall2_In_r {A B} (R : A -> B -> Prop) xs ys y :
  Forall2 R xs ys -> In y ys -> exists x, In x xs /\ R x y.
Proof.
  induction 1 as [| a b xs ys Hab _ IH]; simpl; [intros [] |].
  intros [<- | Hin]; [eauto |].
  destruct (IH Hin) as (x & ? & ?). eauto.
Qed.

(** * Dictionaries *)

Lemma Spin_eqb_eq a b : Spin_eqb a b = true <-> a = b.
Proof. destruct a, b; simpl; split; congruence. Qed.

Lemma Spin_eqb_refl a : Spin_eqb a a = true.
Proof. now destruct a. Qed.

Lemma Spin_eqb_neq a b : a <> b -> Spin_eqb a b = false.
Proof. destruct a, b; simpl; congruence. Qed.

Lemma Spin_eq_dec (a b : Spin) : {a = b} + {a <> b}.
Proof. decide equality. Qed.

Section DictLemmas.
Context {V : Type}.
Implicit Types (d : dict V) (s k : Spin) (v : V).

Lemma dict_find_set_same s v d : dict_find s (dict_set s v d) = Some v.
Proof.
  induction d as [| [k w] d IH]; simpl.
  - now rewrite Spin_eqb_refl.
  - destruct (Spin_eqb s k) eqn:E; simpl; rewrite E; auto.
Qed.

Lemma dict_find_set_other s k v d :
  s <> k -> dict_find k (dict_set s v d) = dict_find k d.
Proof.
  intros Hne. induction d as [| [k' w] d IH]; simpl.
  - rewrite Spin_eqb_neq; auto.
  - destruct (Spin_eqb s k') eqn:E; simpl.
    + apply Spin_eqb_eq in E; subst k'.
      rewrite (Spin_eqb_neq (not_eq_sym Hne)). reflexivity.
    + destruct (Spin_eqb k k'); auto.
Qed.

Lemma keys_dict_set s v d k :
  In k (keys (dict_set s v d)) <-> k = s \/ In k (keys d).
Proof.
  unfold keys. induction d as [| [k' w] d IH]; simpl.
  - intuition auto.
  - destruct (Spin_eqb s k') eqn:E; simpl.
    + apply Spin_eqb_eq in E; subst k'. intuition auto.
    + rewrite IH. intuition auto.
Qed.

Lemma dict_find_in_keys s d :
  In s (keys d) <-> exists v, dict_find s d = Some v.
Proof.
  unfold keys. induction d as [| [k w] d IH]; simpl.
  - split; [intros [] | intros [v Hv]; discriminate].
  - destruct (Spin_eqb s k) eqn:E.
    + apply Spin_eqb_eq in E; subst k. split; eauto.
    + rewrite <- IH. split; auto. intros [-> | H]; auto.
      now rewrite Spin_eqb_refl in E.
Qed.

Lemma dict_get_ok d s v :
  result (dict_get d s) = inr v <-> dict_find s d = Some v.
Proof.
  unfold dict_get. destruct (dict_find s d); simpl; split; congruence.
Qed.
End DictLemmas.

Lemma same_keys_trans k1 k2 k3 :
  same_keys k1 k2 -> same_keys k2 k3 -> same_keys k1 k3.
Proof. unfold same_keys; intros H1 H2 s. now rewrite H1. Qed.

Lemma NoDup_keys_dict_set {V} s (v : V) (d : dict V) :
  NoDup (keys d) -> NoDup (keys (dict_set s v d)).
Proof.
  unfold keys. induction d as [| [k w] d IH]; simpl; intros H.
  - constructor; [intros [] | constructor].
  - inversion H as [| ? ? Hk Hd]; subst.
    destruct (Spin_eqb s k) eqn:E; simpl; [exact H |].
    constructor; auto.
    change (~ In k (keys (dict_set s v d))). rewrite keys_dict_set.
    intros [-> | Hin]; [now rewrite Spin_eqb_refl in E | contradiction].
Qed.

Lemma dict_find_In {V} (d : dict V) s v :
  NoDup (keys d) -> In (s, v) d -> dict_find s d = Some v.
Proof.
  unfold keys. induction d as [| [k w] d IH]; simpl; intros Hnd Hin.
  - contradiction.
  - inversion Hnd as [| ? ? Hk Hd]; subst.
    destruct Hin as [[= -> ->] | Hin].
    + now rewrite Spin_eqb_refl.
    + destruct (Spin_eqb s k) eqn:E; [| auto].
      apply Spin_eqb_eq in E; subst k. elim Hk.
      change s with (fst (s, v)). now apply in_map.
Qed.

Lemma In_dict_find {V} (d : dict V) s v :
  dict_find s d = Some v -> In (s, v) d.
Proof.
  induction d as [| [k w] d IH]; simpl; [discriminate |].
  destruct (Spin_eqb s k) eqn:E; auto.
  apply Spin_eqb_eq in E; subst k. intros [= ->]. auto.
Qed.

(** * Maxima and minima *)

Lemma Qmax_cases (x y : Q) : Qmax x y = x \/ Qmax x y = y.
Proof.
  unfold Qmax, GenericMinMax.gmax. destruct (x ?= y)%Q; auto.
Qed.

Lemma Qmin_cases (x y : Q) : Qmin x y = x \/ Qmin x y = y.
Proof.
  unfold Qmin, GenericMinMax.gmin. destruct (x ?= y)%Q; auto.
Qed.

Lemma fold_Qmax_spec (rest : list Q) (x : Q) :
  In (fold_left Qmax rest x) (x :: rest) /\
  forall e, In e (x :: rest) -> (e <= fold_left Qmax rest x)%Q.
Proof.
  revert x; induction rest as [| y rest IH]; intros x; simpl.
  - split; auto. intros e [<- | []]. apply Qle_refl.
  - destruct (IH (Qmax x y)) as [Hin Hup]. simpl in Hin. split.
    + destruct Hin as [E | Hin]; [| tauto].
      destruct (Qmax_cases x y) as [E' | E']; rewrite E' in E at 1; tauto.
    + assert (Hm := Hup _ (or_introl eq_refl)).
      intros e [<- | [<- | He]].
      * eapply Qle_trans; [apply Q.le_max_l | exact Hm].
      * eapply Qle_trans; [apply Q.le_max_r | exact Hm].
      * apply Hup. now right.
Qed.

Lemma fold_Qmin_spec (rest : list Q) (x : Q) :
  In (fold_left Qmin rest x) (x :: rest) /\
  forall e, In e (x :: rest) -> (fold_left Qmin rest x <= e)%Q.
Proof.
  revert x; induction rest as [| y rest IH]; intros x; simpl.
  - split; auto. intros e [<- | []]. apply Qle_refl.
  - destruct (IH (Qmin x y)) as [Hin Hup]. simpl in Hin. split.
    + destruct Hin as [E | Hin]; [| tauto].
      destruct (Qmin_cases x y) as [E' | E']; rewrite E' in E at 1; tauto.
    + assert (Hm := Hup _ (or_introl eq_refl)).
      intros e [<- | [<- | He]].
      * eapply Qle_trans; [exact Hm | apply Q.le_min_l].
      * eapply Qle_trans; [exact Hm | apply Q.le_min_r].
      * apply Hup. now right.
Qed.

Lemma py_max_spec (l : list Q) (m : Q) :
  result (py_max l) = inr m -> In m l /\ forall e, In e l -> (e <= m)%Q.
Proof.
  destruct l as [| x rest]; simpl; [discriminate |]. intros [= <-].
  apply fold_Qmax_spec.
Qed.

Lemma py_min_spec (l : list Q) (m : Q) :
  result (py_min l) = inr m -> In m l /\ forall e, In e l -> (m <= e)%Q.
Proof.
  destruct l as [| x rest]; simpl; [discriminate |]. intros [= <-].
  apply fold_Qmin_spec.
Qed.

Lemma np_max_spec (a : matrix) (m : Q) :
  result (np_max a) = inr m ->
  (exists row, In row a /\ In m row) /\
  forall row e, In row a -> In e row -> (e <= m)%Q.
Proof.
  unfold np_max. intros H. apply py_max_spec in H as [Hin Hup]. split.
  - apply in_concat in Hin as (row & ? & ?). eauto.
  - intros row e Hrow He. apply Hup. apply in_concat. eauto.
Qed.

Lemma np_min_spec (a : matrix) (m : Q) :
  result (np_min a) = inr m ->
  (exists row, In row a /\ In m row) /\
  forall row e, In row a -> In e row -> (m <= e)%Q.
Proof.
  unfold np_min. intros H. apply py_min_spec in H as [Hin Hup]. split.
  - apply in_concat in Hin as (row & ? & ?). eauto.
  - intros row e Hrow He. apply Hup. apply in_concat. eauto.
Qed.

Lemma py_max_nat_spec (l : list nat) (m : nat) :
  result (py_max_nat l) = inr m ->
  In m l /\ forall i, In i l -> (i <= m)%nat.
Proof.
  destruct l as [| x rest]; simpl; [discriminate |]. intros [= <-].
  revert x; induction rest as [| y rest IH]; intros x; simpl.
  - split; auto. intros i [<- | []]; lia.
  - destruct (IH (Nat.max x y)) as [Hin Hup]. split.
    + simpl. set (m := fold_left Nat.max rest (Nat.max x y)) in *.
      destruct Hin as [E | Hin]; [| tauto].
      destruct (Nat.max_spec x y) as [[_ E'] | [_ E']];
        rewrite E' in E; tauto.
    + intros i [<- | [<- | Hi]].
      * specialize (Hup _ (or_introl eq_refl)). lia.
      * specialize (Hup _ (or_introl eq_refl)). lia.
      * apply Hup; auto.
Qed.

(** * Double precision *)

Lemma pow2_pos (e : Z) : (0 < 2 ^ e)%Q.
Proof. apply Qpower_0_lt. reflexivity. Qed.

Lemma pow2_plus (a b : Z) : (2 ^ (a + b) == 2 ^ a * 2 ^ b)%Q.
Proof. apply Qpower_plus. discriminate. Qed.

Lemma pow2_le (a b : Z) : (a <= b)%Z -> (2 ^ a <= 2 ^ b)%Q.
Proof. intros H. apply Qpower_le_compat_l; [exact H | discriminate]. Qed.

Lemma pow2_lt_inv (a b : Z) : (2 ^ a < 2 ^ b)%Q -> (a < b)%Z.
Proof. intros H. apply Qpower_lt_compat_l_inv with (q := 2%Q); [exact H | reflexivity]. Qed.

Lemma pow2_inject (a : Z) : (0 <= a)%Z -> (inject_Z (2 ^ a) == 2 ^ a)%Q.
Proof. intros H. now rewrite Zpower_Qpower. Qed.

(** [Z.log2] brackets a positive integer between two powers of two. *)
Lemma Zlog2_bracket (n : Z) :
  (0 < n)%Z ->
  (2 ^ Z.log2 n <= inject_Z n /\ inject_Z n < 2 ^ (Z.log2 n + 1))%Q.
Proof.
  intros Hn. pose proof (Z.log2_nonneg n) as H0.
  destruct (Z.log2_spec n Hn) as [Hlo Hhi].
  rewrite <- !pow2_inject by lia. rewrite <- Zle_Qle, <- Zlt_Qlt.
  split; [exact Hlo |]. now rewrite <- Z.add_1_r in Hhi.
Qed.

Lemma Qlog2_spec (q : Q) :
  (0 < q)%Q -> (2 ^ Qlog2 q <= q /\ q < 2 ^ (Qlog2 q + 1))%Q.
Proof.
  intros Hq. unfold Qlog2.
  set (a := Z.log2 (Qnum q)). set (b := Z.log2 (Zpos (Qden q))).
  assert (Hn : (0 < Qnum q)%Z).
  { destruct q as [n d]. unfold Qlt in Hq. simpl in *. lia. }
  destruct (Zlog2_bracket Hn) as [Hnlo Hnhi]. fold a in Hnlo, Hnhi.
  destruct (Zlog2_bracket (n := Zpos (Qden q)) eq_refl) as [Hdlo Hdhi].
  fold b in Hdlo, Hdhi.
  assert (Eq : (q == inject_Z (Qnum q) / inject_Z (Zpos (Qden q)))%Q).
  { rewrite <- Qmake_Qdiv. destruct q; reflexivity. }
  assert (Hd : (0 < inject_Z (Zpos (Qden q)))%Q) by reflexivity.
  destruct (Qle_bool (2 ^ (a - b)) q) eqn:E.
  - apply Qle_bool_iff in E. split; [exact E |].
    rewrite Eq. apply Qlt_shift_div_r; [exact Hd |].
    apply Qlt_le_trans with (2 ^ (a + 1))%Q; [exact Hnhi |].
    replace (a + 1)%Z with ((a - b + 1) + b)%Z by ring.
    rewrite pow2_plus. apply Qmult_le_l; [apply pow2_pos | exact Hdlo].
  - assert (Hlt : (q < 2 ^ (a - b))%Q).
    { apply Qnot_le_lt. intros H. apply Qle_bool_iff in H. congruence. }
    split.
    + rewrite Eq. apply Qle_shift_div_l; [exact Hd |].
      apply Qle_trans with (2 ^ a)%Q; [| exact Hnlo].
      replace a with ((a - b - 1) + (b + 1))%Z at 2 by ring.
      rewrite pow2_plus. apply Qmult_le_l; [apply pow2_pos |].
      now apply Qlt_le_weak.
    + now replace (a - b - 1 + 1)%Z with (a - b)%Z by ring.
Qed.

Lemma Qlog2_unique (q : Q) (k : Z) :
  (2 ^ k <= q)%Q -> (q < 2 ^ (k + 1))%Q -> Qlog2 q = k.
Proof.
  intros Hlo Hhi.
  assert (Hq : (0 < q)%Q) by (eapply Qlt_le_trans; [apply pow2_pos | exact Hlo]).
  destruct (Qlog2_spec Hq) as [Hlo' Hhi'].
  assert (H1 : (Qlog2 q < k + 1)%Z).
  { apply pow2_lt_inv. eapply Qle_lt_trans; eauto. }
  assert (H2 : (k < Qlog2 q + 1)%Z).
  { apply pow2_lt_inv. eapply Qle_lt_trans; eauto. }
  lia.
Qed.

Lemma Qlog2_le (x y : Q) :
  (0 < x)%Q -> (x <= y)%Q -> (Qlog2 x <= Qlog2 y)%Z.
Proof.
  intros Hx Hxy.
  assert (Hy : (0 < y)%Q) by (eapply Qlt_le_trans; eauto).
  destruct (Qlog2_spec Hx) as [Hlo _]. destruct (Qlog2_spec Hy) as [_ Hhi].
  assert (H : (Qlog2 x < Qlog2 y + 1)%Z).
  { apply pow2_lt_inv. eapply Qle_lt_trans; [exact Hlo |].
    eapply Qle_lt_trans; eauto. }
  lia.
Qed.

Lemma Qlog2_comp (x y : Q) : (0 < x)%Q -> (x == y)%Q -> Qlog2 x = Qlog2 y.
Proof.
  intros Hx E. symmetry. destruct (Qlog2_spec Hx) as [Hlo Hhi].
  apply Qlog2_unique; now rewrite <- E.
Qed.

(** ** Rounding to the nearest integer *)

Lemma round_half_even_bounds (q : Q) :
  (Qfloor q <= round_half_even q <= Qfloor q + 1)%Z.
Proof.
  unfold round_half_even.
  destruct (q - inject_Z (Qfloor q) ?= 1 # 2)%Q; [destruct (Z.even _) | |]; lia.
Qed.

Lemma round_half_even_Z (z : Z) : round_half_even (inject_Z z) = z.
Proof.
  unfold round_half_even. rewrite Qfloor_Z.
  destruct (Qcompare_spec (inject_Z z - inject_Z z) (1 # 2)) as [H | H | H].
  - exfalso. lra.
  - reflexivity.
  - exfalso. lra.
Qed.

Lemma round_half_even_comp (a b : Q) :
  (a == b)%Q -> round_half_even a = round_half_even b.
Proof.
  intros E. unfold round_half_even. rewrite (Qfloor_comp _ _ E).
  now rewrite E.
Qed.

Lemma round_half_even_le (a b : Q) :
  (a <= b)%Q -> (round_half_even a <= round_half_even b)%Z.
Proof.
  intros Hab. pose proof (Qfloor_resp_le _ _ Hab) as Hf.
  destruct (Z.eq_dec (Qfloor a) (Qfloor b)) as [E | Hne].
  - unfold round_half_even. rewrite E.
    destruct (Qcompare_spec (a - inject_Z (Qfloor b)) (1 # 2)) as [Ha | Ha | Ha];
      destruct (Qcompare_spec (b - inject_Z (Qfloor b)) (1 # 2))
        as [Hb | Hb | Hb];
      try destruct (Z.even (Qfloor b)); try lia; exfalso; lra.
  - pose proof (round_half_even_bounds a). pose proof (round_half_even_bounds b).
    lia.
Qed.

(** ** Rounding to the nearest double *)

Lemma round64_zero (q : Q) : (q == 0)%Q -> round64 q = 0%Q.
Proof.
  intros E. unfold round64. apply Qeq_bool_iff in E. now rewrite E.
Qed.

Lemma round64_nonzero (q : Q) :
  ~ (q == 0)%Q ->
  (round64 q
   == inject_Z (round_half_even (q / 2 ^ ulp_exponent q))
      * 2 ^ ulp_exponent q)%Q.
Proof.
  intros Hq. unfold round64.
  destruct (Qeq_bool q 0) eqn:E; [apply Qeq_bool_iff in E; contradiction |].
  apply Qred_correct.
Qed.

Lemma Qabs_nonzero (q : Q) : ~ (q == 0)%Q -> (0 < Qabs q)%Q.
Proof.
  intros Hq. destruct (Q_dec q 0) as [[H | H] | H]; [| | contradiction].
  - rewrite Qabs_neg by lra. lra.
  - rewrite Qabs_pos by lra. exact H.
Qed.

Lemma ulp_exponent_comp (x y : Q) :
  ~ (x == 0)%Q -> (x == y)%Q -> ulp_exponent x = ulp_exponent y.
Proof.
  intros Hx E. unfold ulp_exponent. f_equal. f_equal.
  apply Qlog2_comp; [now apply Qabs_nonzero | now rewrite E].
Qed.

Lemma round64_comp (x y : Q) : (x == y)%Q -> (round64 x == round64 y)%Q.
Proof.
  intros E. destruct (Qeq_dec x 0) as [Hx | Hx].
  - rewrite (round64_zero Hx), round64_zero; [reflexivity |].
    now rewrite <- E.
  - assert (Hy : ~ (y == 0)%Q) by now rewrite <- E.
    rewrite (round64_nonzero Hx), (round64_nonzero Hy).
    rewrite <- (ulp_exponent_comp Hx E).
    rewrite (round_half_even_comp (a := x / 2 ^ ulp_exponent x)
               (b := y / 2 ^ ulp_exponent x)); [reflexivity |].
    unfold Qdiv. apply Qmult_comp; [exact E | reflexivity].
Qed.

Lemma float_add_comp (a a' b b' : Q) :
  (a == a')%Q -> (b == b')%Q -> (float_add a b == float_add a' b')%Q.
Proof.
  intros Ea Eb. unfold float_add. apply round64_comp. now rewrite Ea, Eb.
Qed.

(** The scaled magnitude has at most 53 bits, and exactly 53 outside the
    subnormal range. *)
Lemma scaled_upper (q : Q) :
  ~ (q == 0)%Q -> (Qabs q / 2 ^ ulp_exponent q < 2 ^ 53)%Q.
Proof.
  intros Hq. apply Qabs_nonzero in Hq.
  destruct (Qlog2_spec Hq) as [_ Hhi].
  apply Qlt_shift_div_r; [apply pow2_pos |].
  eapply Qlt_le_trans; [exact Hhi |].
  rewrite <- pow2_plus. apply pow2_le. unfold ulp_exponent. lia.
Qed.

Lemma scaled_lower (q : Q) :
  ~ (q == 0)%Q -> (-1074 < ulp_exponent q)%Z ->
  (2 ^ 52 <= Qabs q / 2 ^ ulp_exponent q)%Q.
Proof.
  intros Hq He. apply Qabs_nonzero in Hq.
  destruct (Qlog2_spec Hq) as [Hlo _].
  apply Qle_shift_div_l; [apply pow2_pos |].
  eapply Qle_trans; [| exact Hlo].
  rewrite <- pow2_plus. apply pow2_le. unfold ulp_exponent in *. lia.
Qed.

Lemma ulp_exponent_le (x y : Q) :
  ~ (x == 0)%Q -> (Qabs x <= Qabs y)%Q ->
  (ulp_exponent x <= ulp_exponent y)%Z.
Proof.
  intros Hx Hxy. apply Qabs_nonzero in Hx.
  pose proof (Qlog2_le Hx Hxy). unfold ulp_exponent. lia.
Qed.

Lemma round_half_even_upper (q : Q) (z : Z) :
  (q <= inject_Z z)%Q -> (round_half_even q <= z)%Z.
Proof.
  intros H. rewrite <- (round_half_even_Z z). now apply round_half_even_le.
Qed.

Lemma round_half_even_lower (q : Q) (z : Z) :
  (inject_Z z <= q)%Q -> (z <= round_half_even q)%Z.
Proof.
  intros H. rewrite <- (round_half_even_Z z). now apply round_half_even_le.
Qed.

Lemma Qdiv_le_compat (x y u : Q) : (0 < u)%Q -> (x <= y)%Q -> (x / u <= y / u)%Q.
Proof.
  intros Hu H. unfold Qdiv. apply Qmult_le_compat_r; [exact H |].
  apply Qlt_le_weak. now apply Qinv_lt_0_compat.
Qed.

(** Rounding keeps the sign. *)
Lemma round64_nonneg (q : Q) : (0 <= q)%Q -> (0 <= round64 q)%Q.
Proof.
  intros H. destruct (Qeq_dec q 0) as [Hq | Hq].
  - rewrite (round64_zero Hq). apply Qle_refl.
  - rewrite (round64_nonzero Hq).
    apply Qmult_le_0_compat; [| apply Qlt_le_weak, pow2_pos].
    change 0%Q with (inject_Z 0). rewrite <- Zle_Qle.
    apply round_half_even_lower. change (inject_Z 0) with 0%Q.
    apply Qle_shift_div_l; [apply pow2_pos | lra].
Qed.

Lemma round64_nonpos (q : Q) : (q <= 0)%Q -> (round64 q <= 0)%Q.
Proof.
  intros H. destruct (Qeq_dec q 0) as [Hq | Hq].
  - rewrite (round64_zero Hq). apply Qle_refl.
  - rewrite (round64_nonzero Hq).
    assert (Hz : (round_half_even (q / 2 ^ ulp_exponent q) <= 0)%Z).
    { apply round_half_even_upper. change (inject_Z 0) with 0%Q.
      apply Qle_shift_div_r; [apply pow2_pos | lra]. }
    rewrite Zle_Qle in Hz. change (inject_Z 0) with 0%Q in Hz.
    pose proof (pow2_pos (ulp_exponent q)). nra.
Qed.

Lemma pos_nonzero (q : Q) : (0 < q)%Q -> ~ (q == 0)%Q.
Proof. intros H E. rewrite E in H. exact (Qlt_irrefl _ H). Qed.

Lemma neg_nonzero (q : Q) : (q < 0)%Q -> ~ (q == 0)%Q.
Proof. intros H E. rewrite E in H. exact (Qlt_irrefl _ H). Qed.

Lemma round64_le_pos (x y : Q) :
  (0 < x)%Q -> (x <= y)%Q -> (round64 x <= round64 y)%Q.
Proof.
  intros Hx Hxy. assert (Hy : (0 < y)%Q) by lra.
  pose proof (pos_nonzero Hx) as Nx. pose proof (pos_nonzero Hy) as Ny.
  rewrite (round64_nonzero Nx), (round64_nonzero Ny).
  pose proof (scaled_upper Nx) as Ux. pose proof (scaled_lower Ny) as Ly.
  assert (Hle : (ulp_exponent x <= ulp_exponent y)%Z).
  { apply ulp_exponent_le; [exact Nx |]. rewrite !Qabs_pos by lra. exact Hxy. }
  assert (Hmin : (-1074 <= ulp_exponent x)%Z) by (unfold ulp_exponent; lia).
  rewrite Qabs_pos in Ux, Ly by lra.
  set (ex := ulp_exponent x) in *. set (ey := ulp_exponent y) in *.
  destruct (Z.eq_dec ex ey) as [E | Hne].
  - rewrite E. apply Qmult_le_compat_r; [| apply Qlt_le_weak, pow2_pos].
    rewrite <- Zle_Qle. apply round_half_even_le.
    apply Qdiv_le_compat; [apply pow2_pos | exact Hxy].
  - apply Qle_trans with (2 ^ 53 * 2 ^ ex)%Q.
    + apply Qmult_le_compat_r; [| apply Qlt_le_weak, pow2_pos].
      rewrite <- (pow2_inject (a := 53)) by lia. rewrite <- Zle_Qle.
      apply round_half_even_upper. rewrite pow2_inject by lia.
      now apply Qlt_le_weak.
    + apply Qle_trans with (2 ^ 52 * 2 ^ ey)%Q.
      * rewrite <- !pow2_plus. apply pow2_le. lia.
      * apply Qmult_le_compat_r; [| apply Qlt_le_weak, pow2_pos].
        rewrite <- (pow2_inject (a := 52)) by lia. rewrite <- Zle_Qle.
        apply round_half_even_lower. rewrite pow2_inject by lia.
        apply Ly. lia.
Qed.

Lemma round64_le_neg (x y : Q) :
  (x <= y)%Q -> (y < 0)%Q -> (round64 x <= round64 y)%Q.
Proof.
  intros Hxy Hy. assert (Hx : (x < 0)%Q) by lra.
  pose proof (neg_nonzero Hx) as Nx. pose proof (neg_nonzero Hy) as Ny.
  rewrite (round64_nonzero Nx), (round64_nonzero Ny).
  pose proof (scaled_upper Ny) as Uy. pose proof (scaled_lower Nx) as Lx.
  assert (Hle : (ulp_exponent y <= ulp_exponent x)%Z).
  { apply ulp_exponent_le; [exact Ny |]. rewrite !Qabs_neg by lra. lra. }
  assert (Hmin : (-1074 <= ulp_exponent y)%Z) by (unfold ulp_exponent; lia).
  rewrite Qabs_neg in Uy, Lx by lra.
  set (ex := ulp_exponent x) in *. set (ey := ulp_exponent y) in *.
  destruct (Z.eq_dec ex ey) as [E | Hne].
  - rewrite E. apply Qmult_le_compat_r; [| apply Qlt_le_weak, pow2_pos].
    rewrite <- Zle_Qle. apply round_half_even_le.
    apply Qdiv_le_compat; [apply pow2_pos | exact Hxy].
  - apply Qle_trans with (- 2 ^ 52 * 2 ^ ex)%Q.
    + apply Qmult_le_compat_r; [| apply Qlt_le_weak, pow2_pos].
      rewrite <- (pow2_inject (a := 52)) by lia. rewrite <- inject_Z_opp.
      rewrite <- Zle_Qle. apply round_half_even_upper.
      rewrite inject_Z_opp, pow2_inject by lia.
      assert (H : (2 ^ 52 <= - x / 2 ^ ex)%Q) by (apply Lx; lia).
      unfold Qdiv in *. lra.
    + apply Qle_trans with (- 2 ^ 53 * 2 ^ ey)%Q.
      * assert (H : (2 ^ 53 * 2 ^ ey <= 2 ^ 52 * 2 ^ ex)%Q).
        { rewrite <- !pow2_plus. apply pow2_le. lia. }
        lra.
      * apply Qmult_le_compat_r; [| apply Qlt_le_weak, pow2_pos].
        rewrite <- (pow2_inject (a := 53)) by lia. rewrite <- inject_Z_opp.
        rewrite <- Zle_Qle. apply round_half_even_lower.
        rewrite inject_Z_opp, pow2_inject by lia.
        unfold Qdiv in *. lra.
Qed.

(** Rounding is monotone. *)
Lemma round64_le (x y : Q) : (x <= y)%Q -> (round64 x <= round64 y)%Q.
Proof.
  intros Hxy. destruct (Qlt_le_dec 0 x) as [Hx | Hx].
  - now apply round64_le_pos.
  - destruct (Qlt_le_dec y 0) as [Hy | Hy].
    + now apply round64_le_neg.
    + apply Qle_trans with 0%Q;
        [now apply round64_nonpos | now apply round64_nonneg].
Qed.

(** ** Doubles *)

Lemma is_double_comp (x y : Q) : (x == y)%Q -> is_double x -> is_double y.
Proof.
  unfold is_double. intros E H. now rewrite <- (round64_comp E), H.
Qed.

Lemma ulp_exponent_twice (q : Q) :
  ~ (q == 0)%Q ->
  ulp_exponent (2 * q)
  = if (-1074 <=? Qlog2 (Qabs q) - 52)%Z then (ulp_exponent q + 1)%Z
    else ulp_exponent q.
Proof.
  intros Hq. apply Qabs_nonzero in Hq.
  destruct (Qlog2_spec Hq) as [Hlo Hhi].
  assert (E : Qlog2 (Qabs (2 * q)) = (Qlog2 (Qabs q) + 1)%Z).
  { apply Qlog2_unique; rewrite Qabs_Qmult, (Qabs_pos 2) by discriminate.
    - rewrite Z.add_comm, pow2_plus. change (2 ^ 1)%Q with 2%Q.
      apply Qmult_le_l; [reflexivity | exact Hlo].
    - replace (Qlog2 (Qabs q) + 1 + 1)%Z with (1 + (Qlog2 (Qabs q) + 1))%Z
        by ring.
      rewrite pow2_plus. change (2 ^ 1)%Q with 2%Q.
      apply Qmult_lt_l; [reflexivity | exact Hhi]. }
  unfold ulp_exponent. rewrite E.
  destruct (Z.leb_spec (-1074) (Qlog2 (Qabs q) - 52)); lia.
Qed.

(** Without overflow, twice a double is a double. *)
Lemma is_double_twice (q : Q) : is_double q -> is_double (2 * q).
Proof.
  unfold is_double. intros H. destruct (Qeq_dec q 0) as [Hq | Hq].
  - rewrite round64_zero; rewrite Hq; reflexivity.
  - assert (Hq2 : ~ (2 * q == 0)%Q).
    { intros E. apply Hq. lra. }
    rewrite (round64_nonzero Hq) in H. rewrite (round64_nonzero Hq2).
    rewrite (ulp_exponent_twice Hq).
    set (e := ulp_exponent q) in *.
    assert (Hu : ~ (2 ^ e == 0)%Q) by apply pos_nonzero, pow2_pos.
    destruct (-1074 <=? Qlog2 (Qabs q) - 52)%Z.
    + rewrite (round_half_even_comp (a := 2 * q / 2 ^ (e + 1))
                 (b := q / 2 ^ e)).
      * set (m := round_half_even (q / 2 ^ e)) in *.
        rewrite (Z.add_comm e 1), pow2_plus. change (2 ^ 1)%Q with 2%Q.
        transitivity (2 * (inject_Z m * 2 ^ e))%Q; [ring | now rewrite H].
      * rewrite (Z.add_comm e 1), pow2_plus. change (2 ^ 1)%Q with 2%Q.
        field. exact Hu.
    + set (m := round_half_even (q / 2 ^ e)) in *.
      rewrite (round_half_even_comp (a := 2 * q / 2 ^ e)
                 (b := inject_Z (2 * m))).
      * rewrite round_half_even_Z, inject_Z_mult.
        change (inject_Z 2) with 2%Q.
        transitivity (2 * (inject_Z m * 2 ^ e))%Q; [ring | now rewrite H].
      * rewrite inject_Z_mult. change (inject_Z 2) with 2%Q.
        transitivity (2 * (inject_Z m * 2 ^ e) / 2 ^ e)%Q;
          [now rewrite H | field; exact Hu].
Qed.

(** The double-precision mean of two doubles lies between them, as long as
    nothing overflows. *)
Lemma float_mean_between (a b : Q) :
  is_double a -> is_double b -> (a <= b)%Q ->
  (a <= float_div (float_add a b) 2 /\ float_div (float_add a b) 2 <= b)%Q.
Proof.
  intros Ha Hb Hab. unfold float_div, float_add.
  pose proof (is_double_twice Ha) as Ha2.
  pose proof (is_double_twice Hb) as Hb2.
  unfold is_double in *.
  assert (Hlo : (2 * a <= round64 (a + b))%Q).
  { rewrite <- Ha2. apply round64_le. lra. }
  assert (Hhi : (round64 (a + b) <= 2 * b)%Q).
  { rewrite <- Hb2. apply round64_le. lra. }
  split.
  - rewrite <- Ha at 1. apply round64_le.
    apply Qle_shift_div_l; [reflexivity | lra].
  - rewrite <- Hb at 2. apply round64_le.
    apply Qle_shift_div_r; [reflexivity | lra].
Qed.

(** * Masks and slices *)

Lemma sum_bools_acc (mask : list bool) (acc : Z) :
  fold_left (fun a (b : bool) => if b then a + 1 else a)%Z mask acc
  = (acc + Z.of_nat (length (filter (fun b => b) mask)))%Z.
Proof.
  revert acc; induction mask as [| b mask IH]; intros acc; simpl.
  - lia.
  - rewrite IH. destruct b; simpl length; lia.
Qed.

Lemma sum_bools_count (mask : list bool) :
  sum_bools mask = Z.of_nat (length (filter (fun b => b) mask)).
Proof. unfold sum_bools. now rewrite sum_bools_acc. Qed.

Lemma filter_none {A} (f : A -> bool) (l : list A) :
  (forall x, In x l -> f x = false) -> filter f l = [].
Proof.
  induction l as [| x l IH]; simpl; intros H; auto.
  rewrite (H x (or_introl eq_refl)). apply IH. auto.
Qed.

Lemma count_prefix (mask : list bool) :
  forall k off,
    length (filter (fun i => (i <? off + k)%nat && nth (i - off) mask false)
                   (seq off (length mask)))
    = length (filter (fun b => b) (firstn k mask)).
Proof.
  induction mask as [| m mask IH]; intros k off; simpl.
  - now rewrite firstn_nil.
  - destruct k as [| k]; simpl.
    + replace (off <? off + 0)%nat with false
        by (symmetry; apply Nat.ltb_ge; lia).
      simpl. rewrite filter_none; auto.
      intros i Hi. apply in_seq in Hi.
      replace (i <? off + 0)%nat with false
        by (symmetry; apply Nat.ltb_ge; lia).
      reflexivity.
    + replace (off <? off + S k)%nat with true
        by (symmetry; apply Nat.ltb_lt; lia).
      rewrite Nat.sub_diag. simpl andb.
      rewrite (filter_ext_in
                 (fun i => (i <? off + S k)%nat
                           && nth (i - off) (m :: mask) false)
                 (fun i => (i <? S off + k)%nat
                           && nth (i - S off) mask false)).
      * specialize (IH k (S off)). destruct m; cbn [length]; rewrite IH; auto.
      * intros i Hi. apply in_seq in Hi.
        replace (off + S k)%nat with (S off + k)%nat by lia.
        replace (i - off)%nat with (S (i - S off)) by lia.
        reflexivity.
Qed.

Lemma band_mask_nth (b : matrix) (min_e max_e : Q) (i : nat) :
  nth i (band_mask b min_e max_e) false = band_selected b min_e max_e i.
Proof.
  unfold band_mask, band_selected. revert i.
  induction b as [| row b IH]; intros [| i]; simpl; auto.
Qed.

Lemma length_band_mask (b : matrix) (min_e max_e : Q) :
  length (band_mask b min_e max_e) = length b.
Proof. unfold band_mask. apply length_map. Qed.

(** A band passes the mask exactly when one of its energies lies strictly
    inside the window. *)
Lemma band_selected_iff (b : matrix) (min_e max_e : Q) (i : nat) :
  band_selected b min_e max_e i = true <->
  exists row e,
    nth_error b i = Some row /\ In e row /\ (min_e < e /\ e < max_e)%Q.
Proof.
  unfold band_selected.
  assert (Hlt : forall x y, Qlt_bool x y = true <-> (x < y)%Q).
  { intros x y. unfold Qlt_bool. rewrite negb_true_iff.
    split; intros H.
    - apply Qnot_le_lt. intros Hle. apply Qle_bool_iff in Hle. congruence.
    - destruct (Qle_bool y x) eqn:E; [| reflexivity].
      apply Qle_bool_iff in E. exfalso. exact (Qlt_not_le _ _ H E). }
  destruct (nth_error b i) as [row |].
  - rewrite existsb_exists. split.
    + intros (e & He & Hin). apply andb_true_iff in Hin as [H1 H2].
      exists row, e. rewrite <- !Hlt. auto.
    + intros (row' & e & [= <-] & He & H1 & H2).
      exists e. split; [exact He |]. apply andb_true_iff.
      rewrite !Hlt. auto.
  - split; [discriminate | intros (row & e & H & _); discriminate].
Qed.

(** Line 147 against its description in words. *)
Lemma new_valence_index_count (b : matrix) (min_e max_e : Q) (vb : nat) :
  new_valence_index (band_mask b min_e max_e) vb
  = (Z.of_nat (selected_at_or_below b min_e max_e vb) - 1)%Z.
Proof.
  unfold new_valence_index, selected_at_or_below, slice_to.
  replace (Z.of_nat vb + 1 <? 0)%Z with false
    by (symmetry; apply Z.ltb_ge; lia).
  replace (Z.to_nat (Z.of_nat vb + 1)) with (S vb) by lia.
  rewrite sum_bools_count.
  rewrite <- (count_prefix (band_mask b min_e max_e) (S vb) 0).
  rewrite length_band_mask. do 3 f_equal.
  apply filter_ext. intros i. rewrite Nat.sub_0_r, band_mask_nth.
  f_equal. 
Qed.

Lemma new_valence_index_lower (mask : list bool) (vb : nat) :
  (-1 <= new_valence_index mask vb)%Z.
Proof. unfold new_valence_index. rewrite sum_bools_count. lia. Qed.

Lemma new_valence_index_nothing_selected (b : matrix) (min_e max_e : Q)
    (vb : nat) :
  (forall i, band_selected b min_e max_e i = false) ->
  new_valence_index (band_mask b min_e max_e) vb = (-1)%Z.
Proof.
  intros Hnone. rewrite new_valence_index_count.
  unfold selected_at_or_below. rewrite filter_none; [reflexivity |].
  intros i _. rewrite Hnone. apply andb_false_r.
Qed.

Lemma In_firstn_nth {A} (l : list A) (k : nat) (x : A) :
  In x (firstn k l) <-> exists n, (n < k)%nat /\ nth_error l n = Some x.
Proof.
  revert k; induction l as [| y l IH]; intros k.
  - rewrite firstn_nil. split; [intros [] | intros (n & _ & H)].
    destruct n; discriminate.
  - destruct k as [| k]; simpl.
    + split; [intros [] | intros (n & Hn & _); lia].
    + rewrite IH. split.
      * intros [<- | (n & Hn & H)].
        -- exists 0%nat. split; [lia | reflexivity].
        -- exists (S n). split; [lia | exact H].
      * intros ([| n] & Hn & H); simpl in H.
        -- left. congruence.
        -- right. exists n. split; [lia | exact H].
Qed.

Lemma In_skipn_nth {A} (l : list A) (k : nat) (x : A) :
  In x (skipn k l) <-> exists n, (k <= n)%nat /\ nth_error l n = Some x.
Proof.
  revert l; induction k as [| k IH]; intros l; simpl.
  - split.
    + intros H. apply In_nth_error in H as [n H]. exists n. split; [lia | auto].
    + intros (n & _ & H). eapply nth_error_In; eauto.
  - destruct l as [| y l].
    + split; [intros [] | intros (n & _ & H)]. destruct n; discriminate.
    + rewrite IH. split.
      * intros (n & Hn & H). exists (S n). split; [lia | exact H].
      * intros ([| n] & Hn & H); [lia |]. exists n. split; [lia | exact H].
Qed.

Lemma In_slice_to {A} (l : list A) (i : Z) (x : A) :
  (-1 <= i)%Z ->
  In x (slice_to (i + 1) l)
  <-> exists n, (Z.of_nat n <= i)%Z /\ nth_error l n = Some x.
Proof.
  intros Hi. unfold slice_to.
  replace (i + 1 <? 0)%Z with false by (symmetry; apply Z.ltb_ge; lia).
  rewrite In_firstn_nth. split; intros (n & Hn & H); exists n; split; auto; lia.
Qed.

Lemma In_slice_from {A} (l : list A) (i : Z) (x : A) :
  (-1 <= i)%Z ->
  In x (slice_from (i + 1) l)
  <-> exists n, (i < Z.of_nat n)%Z /\ nth_error l n = Some x.
Proof.
  intros Hi. unfold slice_from.
  replace (i + 1 <? 0)%Z with false by (symmetry; apply Z.ltb_ge; lia).
  rewrite In_skipn_nth. split; intros (n & Hn & H); exists n; split; auto; lia.
Qed.

(** * Index arrays and stable sorting *)

Lemma take_ok {A} (l l' : list A) (idx : list nat) :
  result (take l idx) = inr l' ->
  Forall2 (fun i x => nth_error l i = Some x) idx l'.
Proof.
  unfold take. intros H. apply comprehension_ok in H.
  induction H as [| i x idx l' Hi _ IH]; constructor; auto.
  destruct (nth_error l i); simpl in Hi; congruence.
Qed.

Lemma take_seq {A} (l : list A) :
  result (take l (seq 0 (length l))) = inr l.
Proof.
  unfold take. apply comprehension_intro.
  assert (H : forall pre,
             Forall2
               (fun i x =>
                  result match nth_error (pre ++ l) i with
                         | Some x0 => ret x0
                         | None => raise IndexError
                         end = inr x)
               (seq (length pre) (length l)) l).
  { induction l as [| x l IH]; intros pre; simpl; constructor.
    - rewrite nth_error_app2, Nat.sub_diag by lia. reflexivity.
    - specialize (IH (pre ++ [x])).
      rewrite <- app_assoc, length_app in IH. simpl in IH.
      now rewrite Nat.add_1_r in IH. }
  exact (H []).
Qed.

Section SortFacts.
Variable leb : nat -> nat -> bool.
Hypothesis leb_total : forall i j, leb i j = true \/ leb j i = true.
Hypothesis leb_trans :
  forall i j k, leb i j = true -> leb j k = true -> leb i k = true.

Lemma insert_stable_perm i l : Permutation (insert_stable leb i l) (i :: l).
Proof.
  induction l as [| j l IH]; simpl; [reflexivity |].
  destruct (leb i j); [reflexivity |].
  rewrite IH. apply perm_swap.
Qed.

Lemma sort_stable_perm l : Permutation (sort_stable leb l) l.
Proof.
  induction l as [| i l IH]; simpl; [reflexivity |].
  rewrite insert_stable_perm. now constructor.
Qed.

Lemma insert_stable_sorted (R : nat -> nat -> Prop) i l :
  StronglySorted (then_by leb R) l -> Forall (R i) l ->
  StronglySorted (then_by leb R) (insert_stable leb i l).
Proof.
  induction 1 as [| j l Hl IH Hj]; intros HR; simpl.
  - constructor; constructor.
  - inversion HR as [| ? ? Hij HRl]; subst.
    destruct (leb i j) eqn:E.
    + constructor; [constructor; auto |].
      constructor; [split; auto |].
      rewrite Forall_forall in *. intros k Hk. split.
      * apply leb_trans with j; auto. now apply Hj.
      * intros _. now apply HRl.
    + constructor; [now apply IH |].
      rewrite (insert_stable_perm i l). constructor; [| exact Hj].
      split; [| congruence].
      destruct (leb_total i j); congruence.
Qed.

(** A stable pass on a list already ordered by [R] orders it by the key,
    with ties still ordered by [R]. *)
Lemma sort_stable_sorted (R : nat -> nat -> Prop) l :
  StronglySorted R l -> StronglySorted (then_by leb R) (sort_stable leb l).
Proof.
  induction 1 as [| i l Hl IH Hi]; simpl; [constructor |].
  apply insert_stable_sorted; auto.
  now rewrite sort_stable_perm.
Qed.

End SortFacts.

Lemma col_leb_total c i j : col_leb c i j = true \/ col_leb c j i = true.
Proof.
  destruct c as [l | l]; simpl.
  - destruct (Qlt_le_dec (nth i l 0) (nth j l 0)) as [H | H].
    + left. apply Qle_bool_iff. now apply Qlt_le_weak.
    + right. now apply Qle_bool_iff.
  - destruct (nth i l false), (nth j l false); simpl; auto.
Qed.

Lemma col_leb_trans c i j k :
  col_leb c i j = true -> col_leb c j k = true -> col_leb c i k = true.
Proof.
  destruct c as [l | l]; simpl.
  - rewrite !Qle_bool_iff. apply Qle_trans.
  - destruct (nth i l false), (nth j l false), (nth k l false); simpl; auto.
Qed.

Lemma StronglySorted_seq (R : nat -> nat -> Prop) n :
  forall a,
    (forall i j, (a <= i)%nat -> (i < j)%nat -> (j < a + n)%nat -> R i j) ->
    StronglySorted R (seq a n).
Proof.
  induction n as [| n IH]; intros a H; simpl; constructor.
  - apply IH. intros i j Hi Hij Hj. apply H; lia.
  - apply Forall_forall. intros j Hj. apply in_seq in Hj. apply H; lia.
Qed.

Lemma StronglySorted_unique {A} (R : A -> A -> Prop) :
  (forall x y, R x y -> R y x -> x = y) ->
  forall l1 l2,
    StronglySorted R l1 -> StronglySorted R l2 -> Permutation l1 l2 ->
    l1 = l2.
Proof.
  intros Hanti. induction l1 as [| x l1 IH]; intros l2 H1 H2 Hperm.
  - apply Permutation_nil in Hperm. now subst.
  - destruct l2 as [| y l2].
    + symmetry in Hperm. now apply Permutation_nil in Hperm.
    + inversion H1 as [| ? ? H1' Hx]; subst.
      inversion H2 as [| ? ? H2' Hy]; subst.
      rewrite Forall_forall in Hx, Hy.
      assert (x = y) as <-.
      { assert (Hin : In x (y :: l2))
          by (eapply Permutation_in; [exact Hperm | now left]).
        assert (Hin' : In y (x :: l1))
          by (eapply Permutation_in;
              [symmetry; exact Hperm | now left]).
        destruct Hin as [-> | Hin]; [reflexivity |].
        destruct Hin' as [-> | Hin']; [reflexivity |].
        apply Hanti; auto. }
      f_equal. apply IH; auto. now apply Permutation_cons_inv in Hperm.
Qed.

Lemma StronglySorted_nth {A} (R : A -> A -> Prop) (l : list A) :
  StronglySorted R l ->
  forall i j x y,
    (i < j)%nat -> nth_error l i = Some x -> nth_error l j = Some y ->
    R x y.
Proof.
  induction 1 as [| a l Hl IH Ha]; intros i j x y Hij Hx Hy.
  - destruct i; discriminate.
  - destruct j as [| j]; [lia |]. simpl in Hy.
    destruct i as [| i]; simpl in Hx.
    + injection Hx as <-. rewrite Forall_forall in Ha. apply Ha.
      eapply nth_error_In; eauto.
    + apply (IH i j); auto. lia.
Qed.

Lemma StronglySorted_take {A} (P : A -> A -> Prop) (R : nat -> nat -> Prop)
    (l l' : list A) (idx : list nat) :
  (forall i j x y,
      R i j -> nth_error l i = Some x -> nth_error l j = Some y -> P x y) ->
  Forall2 (fun i x => nth_error l i = Some x) idx l' ->
  StronglySorted R idx -> StronglySorted P l'.
Proof.
  intros HRP H. induction H as [| i x idx l' Hi Hrest IH]; intros Hs.
  - constructor.
  - inversion Hs as [| ? ? Hs' Hall]; subst. constructor; auto.
    rewrite Forall_forall in *. intros y Hy.
    destruct (Forall2_In_r _ Hrest Hy) as (j & Hj & Hjy).
    eapply HRP; eauto.
Qed.

Lemma length_cols (k : list (vec3 Q)) :
  length (col0 k) = length k /\ length (col1 k) = length k
  /\ length (col2 k) = length k.
Proof. unfold col0, col1, col2. now rewrite !length_map. Qed.

Lemma lexsort_plain_unfold (k : list (vec3 Q)) :
  lexsort (plain_keys k)
  = sort_stable (col_leb (FloatCol (col0 k)))
      (sort_stable (col_leb (FloatCol (col1 k)))
         (sort_stable (col_leb (FloatCol (col2 k))) (seq 0 (length k)))).
Proof.
  unfold lexsort, plain_keys. simpl.
  destruct (length_cols k) as (-> & _ & _). reflexivity.
Qed.

Lemma lexsort_plain_perm (k : list (vec3 Q)) :
  Permutation (lexsort (plain_keys k)) (seq 0 (length k)).
Proof.
  rewrite lexsort_plain_unfold. now rewrite !sort_stable_perm.
Qed.

Lemma lexsort_plain_sorted (k : list (vec3 Q)) :
  StronglySorted (plain_order k) (lexsort (plain_keys k)).
Proof.
  rewrite lexsort_plain_unfold. unfold plain_order.
  repeat (apply sort_stable_sorted;
          [apply col_leb_total | apply col_leb_trans |]).
  apply StronglySorted_seq. intros; assumption.
Qed.

Lemma nth_col {A} (f : vec3 Q -> A) (k : list (vec3 Q)) i p d :
  nth_error k i = Some p -> nth i (map f k) d = f p.
Proof.
  intros H. rewrite (nth_indep _ d (f p)).
  - rewrite map_nth. f_equal. now apply nth_error_nth.
  - rewrite length_map. apply nth_error_Some. congruence.
Qed.

Section PlainOrder.
Variable k : list (vec3 Q).
Variables (i j : nat) (p q : vec3 Q).
Hypothesis Hp : nth_error k i = Some p.
Hypothesis Hq : nth_error k j = Some q.

Lemma leb_col0 : col_leb (FloatCol (col0 k)) i j = true <-> (c0 p <= c0 q)%Q.
Proof.
  simpl. unfold col0. erewrite nth_col by exact Hp. erewrite nth_col by exact Hq.
  apply Qle_bool_iff.
Qed.

Lemma leb_col1 : col_leb (FloatCol (col1 k)) i j = true <-> (c1 p <= c1 q)%Q.
Proof.
  simpl. unfold col1. erewrite nth_col by exact Hp. erewrite nth_col by exact Hq.
  apply Qle_bool_iff.
Qed.

Lemma leb_col2 : col_leb (FloatCol (col2 k)) i j = true <-> (c2 p <= c2 q)%Q.
Proof.
  simpl. unfold col2. erewrite nth_col by exact Hp. erewrite nth_col by exact Hq.
  apply Qle_bool_iff.
Qed.
End PlainOrder.

Arguments leb_col0 {k i j p q} Hp Hq.
Arguments leb_col1 {k i j p q} Hp Hq.
Arguments leb_col2 {k i j p q} Hp Hq.

Lemma plain_order_lex_le k i j p q :
  nth_error k i = Some p -> nth_error k j = Some q ->
  plain_order k i j -> lex_le p q.
Proof.
  intros Hp Hq [Hx Hrest]. unfold lex_le.
  apply (leb_col0 Hp Hq) in Hx.
  destruct (Qlt_le_dec (c0 p) (c0 q)) as [Hlt | Hge]; [now left | right].
  split; [now apply Qle_antisym |].
  destruct (Hrest (proj2 (leb_col0 Hq Hp) Hge)) as [Hy Hrest'].
  apply (leb_col1 Hp Hq) in Hy.
  destruct (Qlt_le_dec (c1 p) (c1 q)) as [Hlt | Hge']; [now left | right].
  split; [now apply Qle_antisym |].
  destruct (Hrest' (proj2 (leb_col1 Hq Hp) Hge')) as [Hz _].
  now apply (leb_col2 Hp Hq) in Hz.
Qed.

Lemma lex_le_plain_order k i j p q :
  nth_error k i = Some p -> nth_error k j = Some q ->
  (i < j)%nat -> lex_le p q -> plain_order k i j.
Proof.
  intros Hp Hq Hij Hlex. unfold plain_order, then_by.
  rewrite (leb_col0 Hp Hq), (leb_col0 Hq Hp), (leb_col1 Hp Hq),
    (leb_col1 Hq Hp), (leb_col2 Hp Hq), (leb_col2 Hq Hp).
  destruct Hlex as [Hx | [Hx [Hy | [Hy Hz]]]].
  - split; [now apply Qlt_le_weak |].
    intros H. exfalso. exact (Qlt_not_le _ _ Hx H).
  - split; [rewrite Hx; apply Qle_refl |]. intros _.
    split; [now apply Qlt_le_weak |].
    intros H. exfalso. exact (Qlt_not_le _ _ Hy H).
  - split; [rewrite Hx; apply Qle_refl |]. intros _.
    split; [rewrite Hy; apply Qle_refl |]. intros _.
    split; [exact Hz |]. intros _. exact Hij.
Qed.

Lemma plain_order_antisym k i j :
  plain_order k i j -> plain_order k j i -> i = j.
Proof.
  intros [Hx H] [Hx' H'].
  destruct (H Hx') as [Hy H1]. destruct (H' Hx) as [Hy' H1'].
  destruct (H1 Hy') as [Hz H2]. destruct (H1' Hy) as [Hz' H2'].
  specialize (H2 Hz'). specialize (H2' Hz). lia.
Qed.

(** The keys of the plain sort order their own output, and sorting a
    plainly ordered array again leaves every row in place. *)
Lemma plain_sort_canonical (kp1 kp2 : list (vec3 Q)) :
  result (take kp1 (lexsort (plain_keys kp1))) = inr kp2 ->
  StronglySorted lex_le kp2 /\
  lexsort (plain_keys kp2) = seq 0 (length kp2) /\
  result (take kp2 (lexsort (plain_keys kp2))) = inr kp2.
Proof.
  intros H. apply take_ok in H.
  assert (Hsorted : StronglySorted lex_le kp2).
  { eapply StronglySorted_take; [| exact H | apply lexsort_plain_sorted].
    intros i j x y HR Hx Hy. eapply plain_order_lex_le; eauto. }
  assert (Hid : lexsort (plain_keys kp2) = seq 0 (length kp2)).
  { apply (StronglySorted_unique (plain_order_antisym (k := kp2))).
    - apply lexsort_plain_sorted.
    - apply StronglySorted_seq. intros i j _ Hij Hj.
      destruct (nth_error kp2 i) as [x |] eqn:Hx;
        [| apply nth_error_None in Hx; lia].
      destruct (nth_error kp2 j) as [y |] eqn:Hy;
        [| apply nth_error_None in Hy; lia].
      eapply lex_le_plain_order; eauto.
      eapply StronglySorted_nth;
        [exact Hsorted | exact Hij | exact Hx | exact Hy].
    - apply lexsort_plain_perm. }
  split; [exact Hsorted |]. split; [exact Hid |].
  rewrite Hid. apply take_seq.
Qed.

Lemma lexsort_perm (keys : list column) :
  Permutation (lexsort keys)
              (seq 0 (col_len (last keys (FloatCol [])))).
Proof.
  unfold lexsort. generalize (seq 0 (col_len (last keys (FloatCol [])))).
  induction keys as [| key keys IH]; intros idx; simpl; [reflexivity |].
  rewrite IH. apply sort_stable_perm.
Qed.

Lemma lexsort_sign_first_perm (k : list (vec3 Q)) :
  Permutation (lexsort (sign_first_keys k)) (seq 0 (length k)).
Proof.
  rewrite lexsort_perm. simpl. unfold negative, col0.
  now rewrite !length_map.
Qed.

Lemma Qlt_bool_iff (x y : Q) : Qlt_bool x y = true <-> (x < y)%Q.
Proof.
  unfold Qlt_bool. rewrite negb_true_iff. split; intros H.
  - apply Qnot_le_lt. intros Hle. apply Qle_bool_iff in Hle. congruence.
  - destruct (Qle_bool y x) eqn:E; [| reflexivity].
    apply Qle_bool_iff in E. exfalso. exact (Qlt_not_le _ _ H E).
Qed.

Lemma lexsort_sign_first_unfold (k : list (vec3 Q)) :
  lexsort (sign_first_keys k)
  = sort_stable (col_leb (BoolCol (negative (col0 k))))
      (sort_stable (col_leb (FloatCol (col0 k)))
         (sort_stable (col_leb (BoolCol (negative (col1 k))))
            (sort_stable (col_leb (FloatCol (col1 k)))
               (sort_stable (col_leb (BoolCol (negative (col2 k))))
                  (sort_stable (col_leb (FloatCol (col2 k)))
                     (seq 0 (length k))))))).
Proof.
  unfold lexsort, sign_first_keys. simpl. unfold negative, col0.
  now rewrite !length_map.
Qed.

Lemma lexsort_sign_first_sorted (k : list (vec3 Q)) :
  StronglySorted (sign_first_order k) (lexsort (sign_first_keys k)).
Proof.
  rewrite lexsort_sign_first_unfold. unfold sign_first_order.
  repeat (apply sort_stable_sorted;
          [apply col_leb_total | apply col_leb_trans |]).
  apply StronglySorted_seq. intros; assumption.
Qed.

Section SignKeys.
Variable k : list (vec3 Q).
Variables (i j : nat) (p q : vec3 Q).
Hypothesis Hp : nth_error k i = Some p.
Hypothesis Hq : nth_error k j = Some q.

Lemma leb_negative (f : vec3 Q -> Q) :
  col_leb (BoolCol (negative (map f k))) i j = true
  <-> ((f p < 0)%Q -> (f q < 0)%Q).
Proof.
  simpl. unfold negative. rewrite map_map.
  erewrite nth_col by exact Hp. erewrite nth_col by exact Hq.
  unfold bool_leb. rewrite <- !Qlt_bool_iff.
  destruct (Qlt_bool (f p) 0), (Qlt_bool (f q) 0); simpl;
    intuition congruence.
Qed.
End SignKeys.

Arguments leb_negative {k i j p q} Hp Hq f.

(** One coordinate of the sign-first comparison: the sign key, then the
    value, then whatever decides a tie. *)
Lemma sign_first_step (a b : Q) (R : Prop) :
  ((a < 0 -> b < 0) /\
   ((b < 0 -> a < 0) -> a <= b /\ (b <= a -> R)))%Q ->
  (sign_first_lt a b \/ ((a == b)%Q /\ R)) /\ ~ sign_first_lt b a.
Proof.
  intros [Hs Hrest]. unfold sign_first_lt.
  destruct (Qlt_le_dec a 0) as [Ha | Ha];
    destruct (Qlt_le_dec b 0) as [Hb | Hb].
  - destruct (Hrest (fun _ => Ha)) as [Hle Htie].
    destruct (Qlt_le_dec a b) as [Hlt | Hge].
    + split; [left; right; auto |].
      intros [[H _] | [H _]];
        [exact (Qlt_not_le _ _ Hb H) | exact (Qlt_not_le _ _ H Hle)].
    + split; [right; split; [now apply Qle_antisym | auto] |].
      intros [[H _] | [H _]];
        [exact (Qlt_not_le _ _ Hb H) | exact (Qlt_not_le _ _ H Hle)].
  - exfalso. exact (Qlt_not_le _ _ (Hs Ha) Hb).
  - split; [left; left; auto |].
    intros [[H _] | [H [H' | H']]].
    + exact (Qlt_not_le _ _ Hb H).
    + exact (Qlt_not_le _ _ H' Ha).
    + exact (Qlt_not_le _ _ Hb H').
  - assert (Hba : (b < 0 -> a < 0)%Q).
    { intros H. exfalso. exact (Qlt_not_le _ _ H Hb). }
    destruct (Hrest Hba) as [Hle Htie].
    destruct (Qlt_le_dec a b) as [Hlt | Hge].
    + split; [left; right; auto |].
      intros [[_ H] | [H _]];
        [exact (Qlt_not_le _ _ H Ha) | exact (Qlt_not_le _ _ H Hle)].
    + split; [right; split; [now apply Qle_antisym | auto] |].
      intros [[_ H] | [H _]];
        [exact (Qlt_not_le _ _ H Ha) | exact (Qlt_not_le _ _ H Hle)].
Qed.

Lemma sign_first_lt_irrefl (a b : Q) : (a == b)%Q -> ~ sign_first_lt a b.
Proof.
  intros E [[Ha Hb] | [H _]].
  - rewrite E in Ha. exact (Qlt_not_le _ _ Hb Ha).
  - rewrite E in H. exact (Qlt_irrefl _ H).
Qed.

Lemma sign_first_order_stable k i j p q :
  nth_error k i = Some p -> nth_error k j = Some q ->
  sign_first_order k i j ->
  sign_first_le p q /\ (sign_first_le q p -> (i < j)%nat).
Proof.
  intros Hp Hq H. unfold sign_first_order, then_by in H.
  change (col0 k) with (map (@c0 Q) k) in H.
  change (col1 k) with (map (@c1 Q) k) in H.
  change (col2 k) with (map (@c2 Q) k) in H.
  rewrite (leb_negative Hp Hq (@c0 Q)), (leb_negative Hq Hp (@c0 Q)),
    (leb_negative Hp Hq (@c1 Q)), (leb_negative Hq Hp (@c1 Q)),
    (leb_negative Hp Hq (@c2 Q)), (leb_negative Hq Hp (@c2 Q)) in H.
  change (map (@c0 Q) k) with (col0 k) in H.
  change (map (@c1 Q) k) with (col1 k) in H.
  change (map (@c2 Q) k) with (col2 k) in H.
  rewrite (leb_col0 Hp Hq), (leb_col0 Hq Hp), (leb_col1 Hp Hq),
    (leb_col1 Hq Hp), (leb_col2 Hp Hq), (leb_col2 Hq Hp) in H.
  unfold sign_first_le.
  apply sign_first_step in H as [[Hx | [Ex H]] Nx].
  { split; [now left |].
    intros [Hx' | [Ex' _]]; [contradiction |].
    exfalso. apply (sign_first_lt_irrefl (a := c0 p) (b := c0 q)); auto.
    now symmetry. }
  apply sign_first_step in H as [[Hy | [Ey H]] Ny].
  { split; [right; split; [exact Ex | now left] |].
    intros [Hx' | [_ [Hy' | [Ey' _]]]]; [contradiction | contradiction |].
    exfalso. apply (sign_first_lt_irrefl (a := c1 p) (b := c1 q)); auto.
    now symmetry. }
  apply sign_first_step in H as [[Hz | [Ez H]] Nz].
  { split; [right; split; [exact Ex |]; right; split; [exact Ey | now left] |].
    intros [Hx' | [_ [Hy' | [_ [Hz' | Ez']]]]];
      [contradiction | contradiction | contradiction |].
    exfalso. apply (sign_first_lt_irrefl (a := c2 p) (b := c2 q)); auto.
    now symmetry. }
  split; [right; split; [exact Ex |]; right; split; [exact Ey | now right] |].
  intros _. exact H.
Qed.

Lemma plain_order_stable k i j p q :
  nth_error k i = Some p -> nth_error k j = Some q ->
  plain_order k i j ->
  lex_le p q /\ (lex_le q p -> (i < j)%nat).
Proof.
  intros Hp Hq H. split; [now apply (plain_order_lex_le Hp Hq) |].
  destruct H as [Hx H]. apply (leb_col0 Hp Hq) in Hx.
  intros [Hx' | [Ex [Hy' | [Ey Hz']]]].
  - exfalso. exact (Qlt_not_le _ _ Hx' Hx).
  - destruct H as [Hy _].
    { apply (leb_col0 Hq Hp). rewrite Ex. apply Qle_refl. }
    apply (leb_col1 Hp Hq) in Hy. exfalso. exact (Qlt_not_le _ _ Hy' Hy).
  - destruct H as [_ H].
    { apply (leb_col0 Hq Hp). rewrite Ex. apply Qle_refl. }
    destruct H as [_ H].
    { apply (leb_col1 Hq Hp). rewrite Ey. apply Qle_refl. }
    apply H. now apply (leb_col2 Hq Hp).
Qed.

Lemma StronglySorted_weaken_in {A} (R R' : A -> A -> Prop) (l : list A) :
  (forall x y, In x l -> In y l -> R x y -> R' x y) ->
  StronglySorted R l -> StronglySorted R' l.
Proof.
  intros HR H. induction H as [| x l Hl IH Hx]; constructor.
  - apply IH. intros y z Hy Hz. apply HR; now right.
  - rewrite Forall_forall in *. intros y Hy.
    apply HR; [now left | now right | now apply Hx].
Qed.

(** An index list ordered by the keys of a sort, ties by position, is the
    permutation that sorts stably by the order the keys decide. *)
Lemma sorts_stably_intro {A} (le : A -> A -> Prop)
    (R : nat -> nat -> Prop) (l : list A) (idx : list nat) :
  (forall i j p q,
      nth_error l i = Some p -> nth_error l j = Some q -> R i j ->
      le p q /\ (le q p -> (i < j)%nat)) ->
  Permutation idx (seq 0 (length l)) ->
  StronglySorted R idx -> sorts_stably le l idx.
Proof.
  intros HR Hperm Hs. split; [exact Hperm |].
  assert (Hin : forall i, In i idx -> exists p, nth_error l i = Some p).
  { intros i Hi. apply (Permutation_in _ Hperm) in Hi. apply in_seq in Hi.
    destruct (nth_error l i) as [p |] eqn:E; [eauto |].
    apply nth_error_None in E. lia. }
  apply StronglySorted_weaken_in with (R := R); [| exact Hs].
  intros i j Hi Hj Hij.
  destruct (Hin i Hi) as [p Hp]. destruct (Hin j Hj) as [q Hq].
  exists p, q. split; [exact Hp |]. split; [exact Hq |]. eapply HR; eauto.
Qed.

Lemma lexsort_sign_first_sorts (k : list (vec3 Q)) :
  sorts_stably sign_first_le k (lexsort (sign_first_keys k)).
Proof.
  apply sorts_stably_intro with (R := sign_first_order k).
  - intros i j p q. apply sign_first_order_stable.
  - apply lexsort_sign_first_perm.
  - apply lexsort_sign_first_sorted.
Qed.

Lemma lexsort_plain_sorts (k : list (vec3 Q)) :
  sorts_stably lex_le k (lexsort (plain_keys k)).
Proof.
  apply sorts_stably_intro with (R := plain_order k).
  - intros i j p q. apply plain_order_stable.
  - apply lexsort_plain_perm.
  - apply lexsort_plain_sorted.
Qed.

(** A list has one stably sorting permutation. *)
Lemma sorts_stably_unique {A} (le : A -> A -> Prop) (l : list A)
    (idx idx' : list nat) :
  sorts_stably le l idx -> sorts_stably le l idx' -> idx = idx'.
Proof.
  intros [Hp Hs] [Hp' Hs'].
  apply (StronglySorted_unique (R := stable_order le l)); auto.
  - intros i j (x & y & Hx & Hy & Hxy & Hij) (y' & x' & Hy' & Hx' & Hyx & Hji).
    rewrite Hx in Hx'. rewrite Hy in Hy'.
    injection Hx' as <-. injection Hy' as <-.
    specialize (Hij Hyx). specialize (Hji Hxy). lia.
  - now rewrite Hp, Hp'.
Qed.

Lemma Forall2_nth_error_r {A B} (R : A -> B -> Prop) xs ys n y :
  Forall2 R xs ys -> nth_error ys n = Some y ->
  exists x, nth_error xs n = Some x /\ R x y.
Proof.
  intros H. revert n. induction H as [| x0 y0 xs ys H0 _ IH]; intros n Hn.
  - destruct n; discriminate.
  - destruct n as [| n]; simpl in *.
    + injection Hn as <-. eauto.
    + now apply IH.
Qed.

Lemma take_cols_ok (b b' : matrix) (idx : list nat) :
  result (take_cols b idx) = inr b' -> Forall2 (reindexed idx) b b'.
Proof.
  unfold take_cols. intros H. apply comprehension_ok in H.
  induction H as [| row row' b b' Hrow _ IH]; constructor; auto.
  now apply take_ok.
Qed.

(** Re-indexing the k-points and every band row by the same index list
    keeps each energy with its k-point. *)
Lemma reindexed_columns_follow (E : Spin -> nat -> vec3 Q -> Q)
    (idx : list nat) (kp kp' : list (vec3 Q)) (energies energies' : dict matrix) :
  reindexed idx kp kp' ->
  (forall s b', dict_find s energies' = Some b' ->
     exists b, dict_find s energies = Some b /\ Forall2 (reindexed idx) b b') ->
  columns_follow E kp energies -> columns_follow E kp' energies'.
Proof.
  intros Hkp Hen HE s b' n row' m p Hb' Hrow' Hm.
  destruct (Hen s b' Hb') as (b & Hb & Hrows).
  destruct (Forall2_nth_error_r _ Hrows Hrow') as (row & Hrow & Hcols).
  destruct (Forall2_nth_error_r _ Hkp Hm) as (i & Hi & Hp).
  specialize (HE s b n row i p Hb Hrow Hp).
  unfold reindexed in Hcols.
  assert (Hlen : (m < length row')%nat).
  { rewrite <- (Forall2_length Hcols). apply nth_error_Some. congruence. }
  destruct (nth_error row' m) as [e |] eqn:He;
    [| apply nth_error_None in He; lia].
  destruct (Forall2_nth_error_r _ Hcols He) as (i' & Hi' & He').
  rewrite Hi in Hi'. injection Hi' as <-. congruence.
Qed.

(** * The phases of a call *)

Section Phases.
Context {Sites Atoms Magmom Mommat Coef : Type}.
Variable ext : Collaborators Sites Atoms Magmom Mommat Coef.
Variable self : Interpolater Sites Atoms Magmom Mommat.
Variables (interpolation_factor : Q) (energy_cutoff : option Q) (nworkers : Z).

Let bs := _band_structure self.
Let equivalences :=
  sphere_get_equivalences ext (_atoms self)
    (inject_Z (Z.of_nat (length (_kpoints self))) * interpolation_factor)%Q
    (_magmom self).
Let metal := is_metal ext bs.
Let nw := if (nworkers =? -1)%Z then cpu_count ext else nworkers.

Lemma interpolate_bands_ok r :
  result (interpolate_bands ext self interpolation_factor energy_cutoff
                            nworkers) = inr r ->
  exists mesh coefficients min_e max_e energies new_vb_idx ef kp1 kp2
         energies',
    let kp0 :=
      map (grid_to_frac mesh)
          (snd (spglib_get_ir_reciprocal_mesh ext mesh
                  (get_atoms ext (structure bs)) (1 # 10))) in
    let sort_idx := lexsort (plain_keys kp1) in
    result (interpolation_mesh_of equivalences) = inr mesh /\
    result (fit_coefficients ext self equivalences) = inr coefficients /\
    result (energy_window ext self energy_cutoff metal)
      = inr (min_e, max_e) /\
    result (evaluate_bands ext self equivalences coefficients metal nw
                           min_e max_e) = inr (energies, new_vb_idx) /\
    result (fermi_level self metal energies new_vb_idx) = inr ef /\
    result (take kp0 (lexsort (sign_first_keys kp0))) = inr kp1 /\
    result (take kp1 sort_idx) = inr kp2 /\
    result (reorder_energies energies sort_idx) = inr energies' /\
    result (kpoint_dim_of equivalences) = inr (snd r) /\
    fst r = {| kpoints := kp2;
               bands := energies';
               lattice_rec := lattice (structure bs);
               efermi := ef;
               structure := _structure self |}.
Proof.
  unfold interpolate_bands. fold bs equivalences metal nw. intros H.
  apply result_bind_ok in H as (mesh & Hmesh & H).
  apply result_bind_ok in H as (coefficients & Hfit & H).
  apply result_bind_ok in H as ([min_e max_e] & Hwin & H).
  apply result_bind_ok in H as ([energies new_vb_idx] & Hev & H).
  apply result_bind_ok in H as (ef & Hef & H).
  destruct (spglib_get_ir_reciprocal_mesh ext mesh
              (get_atoms ext (structure bs)) (1 # 10)) as [mapping grid] eqn:Eg.
  apply result_bind_ok in H as (kp1 & Hkp1 & H).
  apply result_bind_ok in H as (kp2 & Hkp2 & H).
  apply result_bind_ok in H as (energies' & Hre & H).
  apply result_bind_ok in H as (dim & Hdim & H).
  injection H as <-.
  exists mesh, coefficients, min_e, max_e, energies, new_vb_idx, ef, kp1, kp2,
    energies'.
  simpl. rewrite Eg. simpl. repeat split; assumption.
Qed.

End Phases.

Create HintDb calls.

Ltac call_step :=
  match goal with
  | |- silent (ret _) => apply silent_ret
  | |- silent (raise _) => apply silent_raise
  | |- silent (bind _ _) => apply silent_bind
  | |- silent (for_ _ _ _) => apply silent_for
  | |- silent (comprehension _ _) => apply silent_comprehension
  | |- never _ (ret _) => apply never_ret
  | |- never _ (raise _) => apply never_raise; discriminate
  | |- never _ (bind _ _) => apply never_bind
  | |- never _ (for_ _ _ _) => apply never_for
  | |- never _ (comprehension _ _) => apply never_comprehension
  | |- silent (match ?x with _ => _ end) => destruct x
  | |- never _ (match ?x with _ => _ end) => destruct x
  | |- silent _ => solve [auto with calls]
  | |- never _ _ => solve [auto with calls]
  | |- forall _, _ => intro
  end.

Ltac call_auto := repeat call_step.

Section PhaseEffects.
Context {Sites Atoms Magmom Mommat Coef : Type}.
Variable ext : Collaborators Sites Atoms Magmom Mommat Coef.
Variable self : Interpolater Sites Atoms Magmom Mommat.

Lemma silent_dict_get {V} (d : dict V) s : silent (dict_get d s).
Proof. unfold dict_get. call_auto. Qed.

Lemma silent_py_max l : silent (py_max l).
Proof. unfold py_max. call_auto. Qed.

Lemma silent_py_min l : silent (py_min l).
Proof. unfold py_min. call_auto. Qed.

Lemma silent_py_max_nat l : silent (py_max_nat l).
Proof. unfold py_max_nat. call_auto. Qed.

Lemma silent_mask_select {A} (rows : list A) mask :
  silent (mask_select rows mask).
Proof. unfold mask_select. call_auto. Qed.

Lemma silent_take {A} (l : list A) idx : silent (take l idx).
Proof. unfold take. call_auto. Qed.

Hint Resolve silent_py_max silent_py_min silent_py_max_nat : calls.
Hint Resolve @silent_dict_get @silent_mask_select @silent_take : calls.

Lemma silent_max_abs_equivalences eqs : silent (max_abs_equivalences eqs).
Proof. unfold max_abs_equivalences, vstack, np_max_axis0. call_auto. Qed.

Hint Resolve silent_max_abs_equivalences : calls.

Lemma silent_interpolation_mesh_of eqs : silent (interpolation_mesh_of eqs).
Proof. unfold interpolation_mesh_of. call_auto. Qed.

Lemma silent_kpoint_dim_of eqs : silent (kpoint_dim_of eqs).
Proof. unfold kpoint_dim_of. call_auto. Qed.

Lemma silent_fit_coefficients eqs : silent (fit_coefficients ext self eqs).
Proof. unfold fit_coefficients. call_auto. Qed.

Lemma silent_energy_window cutoff m : silent (energy_window ext self cutoff m).
Proof. unfold energy_window, full_window, np_min, np_max. call_auto. Qed.

Lemma silent_evaluate_bands eqs coefficients m nw min_e max_e :
  silent (evaluate_bands ext self eqs coefficients m nw min_e max_e).
Proof. unfold evaluate_bands. call_auto. Qed.

Lemma silent_reorder_energies energies idx :
  silent (reorder_energies energies idx).
Proof. unfold reorder_energies, take_cols. call_auto. Qed.

Lemma silent_fermi_level_metal energies new_vb_idx :
  silent (fermi_level self true energies new_vb_idx).
Proof. unfold fermi_level. call_auto. Qed.

Lemma never_dict_get {V} (d : dict V) s :
  never NoBandsInWindowError (dict_get d s).
Proof. unfold dict_get. call_auto. Qed.

Lemma never_py_max l : never NoBandsInWindowError (py_max l).
Proof. unfold py_max. call_auto. Qed.

Lemma never_py_min l : never NoBandsInWindowError (py_min l).
Proof. unfold py_min. call_auto. Qed.

Lemma never_py_max_nat l : never NoBandsInWindowError (py_max_nat l).
Proof. unfold py_max_nat. call_auto. Qed.

Lemma never_mask_select {A} (rows : list A) mask :
  never NoBandsInWindowError (mask_select rows mask).
Proof. unfold mask_select. call_auto. Qed.

Lemma never_take {A} (l : list A) idx :
  never NoBandsInWindowError (take l idx).
Proof. unfold take. call_auto. Qed.

Hint Resolve never_py_max never_py_min never_py_max_nat : calls.
Hint Resolve @never_dict_get @never_mask_select @never_take : calls.

Lemma never_max_abs_equivalences eqs :
  never NoBandsInWindowError (max_abs_equivalences eqs).
Proof. unfold max_abs_equivalences, vstack, np_max_axis0. call_auto. Qed.

Hint Resolve never_max_abs_equivalences : calls.

Lemma never_interpolate_bands factor cutoff nworkers :
  never NoBandsInWindowError
        (interpolate_bands ext self factor cutoff nworkers).
Proof.
  unfold interpolate_bands, interpolation_mesh_of, kpoint_dim_of,
    fit_coefficients, energy_window, full_window, evaluate_bands,
    fermi_level, valence_top, conduction_bottom, reorder_energies,
    take_cols, np_min, np_max, warn.
  call_auto.
  all: try (unfold never; simpl; discriminate).
Qed.

End PhaseEffects.

#[export] Hint Resolve silent_interpolation_mesh_of silent_kpoint_dim_of
  silent_fit_coefficients silent_energy_window silent_evaluate_bands
  silent_reorder_energies silent_fermi_level_metal silent_take
  silent_py_max silent_py_min silent_py_max_nat silent_dict_get
  silent_mask_select : calls.

Lemma silent_interpolate_bands_metal
    {Sites Atoms Magmom Mommat Coef : Type}
    (ext : Collaborators Sites Atoms Magmom Mommat Coef)
    (self : Interpolater Sites Atoms Magmom Mommat) factor cutoff nworkers :
  is_metal ext (_band_structure self) = true ->
  silent (interpolate_bands ext self factor cutoff nworkers).
Proof.
  intros Hm. unfold interpolate_bands. rewrite Hm. call_auto.
Qed.

Lemma fold_max3_upper (c : vec3 Z -> Z) :
  (forall v w, c (max3 v w) = Z.max (c v) (c w)) ->
  forall rest v w,
    In w (v :: rest) -> (c w <= c (fold_left max3 rest v))%Z.
Proof.
  intros Hc; induction rest as [| u rest IH]; intros v w Hin; simpl in *.
  - destruct Hin as [E | []]. rewrite E. lia.
  - assert (H := IH (max3 v u) (max3 v u) (or_introl eq_refl)).
    rewrite Hc in H at 1.
    destruct Hin as [E | [E | Hin]].
    + rewrite <- E. lia.
    + rewrite <- E. lia.
    + apply IH; auto.
Qed.

Lemma fold_max3_attained (c : vec3 Z -> Z) :
  (forall v w, c (max3 v w) = Z.max (c v) (c w)) ->
  forall rest v,
    exists w, In w (v :: rest) /\ c w = c (fold_left max3 rest v).
Proof.
  intros Hc; induction rest as [| u rest IH]; intros v; simpl.
  - exists v; auto.
  - destruct (IH (max3 v u)) as (w & [<- | Hin] & Hw).
    + rewrite Hc in Hw.
      destruct (Z.max_spec (c v) (c u)) as [[_ E] | [_ E]]; rewrite E in Hw.
      * exists u; auto.
      * exists v; auto.
    + exists w; auto.
Qed.

Lemma c0_max3 (v w : vec3 Z) : c0 (max3 v w) = Z.max (c0 v) (c0 w).
Proof. destruct v as [[? ?] ?], w as [[? ?] ?]; reflexivity. Qed.

Lemma c1_max3 (v w : vec3 Z) : c1 (max3 v w) = Z.max (c1 v) (c1 w).
Proof. destruct v as [[? ?] ?], w as [[? ?] ?]; reflexivity. Qed.

Lemma c2_max3 (v w : vec3 Z) : c2 (max3 v w) = Z.max (c2 v) (c2 w).
Proof. destruct v as [[? ?] ?], w as [[? ?] ?]; reflexivity. Qed.

Lemma is_max_abs_fold (c : vec3 Z -> Z) :
  (forall v w, c (max3 v w) = Z.max (c v) (c w)) ->
  (forall v, c (abs3 v) = Z.abs (c v)) ->
  forall v vs,
    is_max_abs c (v :: vs) (c (fold_left max3 (map abs3 vs) (abs3 v))).
Proof.
  intros Hmax Habs v vs; split.
  - destruct (fold_max3_attained c Hmax (map abs3 vs) (abs3 v))
      as (w & Hin & Hw).
    change (abs3 v :: map abs3 vs) with (map abs3 (v :: vs)) in Hin.
    apply in_map_iff in Hin as (u & <- & Hu).
    exists u; split; auto. now rewrite <- Habs.
  - intros u Hu. rewrite <- Habs.
    apply (fold_max3_upper c Hmax). 
    change (abs3 v :: map abs3 vs) with (map abs3 (v :: vs)).
    now apply in_map.
Qed.

Lemma is_max_abs_unique c vs m m' :
  is_max_abs c vs m -> is_max_abs c vs m' -> m = m'.
Proof.
  intros [(v & Hv & <-) Hup] [(v' & Hv' & <-) Hup'].
  apply Z.le_antisymm; auto.
Qed.

(** What [np.max(np.abs(np.vstack(equivalences)), axis=0)] evaluates to. *)
Lemma max_abs_equivalences_spec (equivalences : equivalences_t) :
  concat equivalences <> [] ->
  exists mx my mz,
    is_max_abs c0 (concat equivalences) mx /\
    is_max_abs c1 (concat equivalences) my /\
    is_max_abs c2 (concat equivalences) mz /\
    max_abs_equivalences equivalences = ret (mx, my, mz).
Proof.
  intros Hne. unfold max_abs_equivalences, vstack.
  destruct equivalences as [| g gs]; [now elim Hne |].
  set (stacked := concat (g :: gs)) in *. clearbody stacked.
  destruct stacked as [| v vs]; [now elim Hne |].
  simpl.
  set (m := fold_left max3 (map abs3 vs) (abs3 v)).
  exists (c0 m), (c1 m), (c2 m). repeat split.
  - apply (is_max_abs_fold c0 c0_max3). now intros [[? ?] ?].
  - apply (is_max_abs_fold c0 c0_max3). now intros [[? ?] ?].
  - apply (is_max_abs_fold c1 c1_max3). now intros [[? ?] ?].
  - apply (is_max_abs_fold c1 c1_max3). now intros [[? ?] ?].
  - apply (is_max_abs_fold c2 c2_max3). now intros [[? ?] ?].
  - apply (is_max_abs_fold c2 c2_max3). now intros [[? ?] ?].
  - destruct m as [[? ?] ?]; reflexivity.
Qed.


Lemma energy_window_metal_cutoff
    {Sites Atoms Magmom Mommat Coef : Type}
    (ext : Collaborators Sites Atoms Magmom Mommat Coef)
    (self : Interpolater Sites Atoms Magmom Mommat) (cutoff : Q) :
  ~ (cutoff == 0)%Q ->
  energy_window ext self (Some cutoff) true
  = ret (efermi (_band_structure self) - cutoff,
         efermi (_band_structure self) + cutoff)%Q.
Proof.
  intros Hc. unfold energy_window, truthy.
  destruct (Qeq_bool cutoff 0) eqn:E; [| reflexivity].
  apply Qeq_bool_iff in E. contradiction.
Qed.


Section Loops.
Context {Sites Atoms Magmom Mommat Coef : Type}.
Variable ext : Collaborators Sites Atoms Magmom Mommat Coef.
Variable self : Interpolater Sites Atoms Magmom Mommat.
Variable equivalences : equivalences_t.

Let bs := _band_structure self.

Lemma fit_coefficients_ok coefficients :
  result (fit_coefficients ext self equivalences) = inr coefficients ->
  same_keys (keys coefficients) (_spins self) /\
  forall s, In s (_spins self) ->
    exists b, dict_find s (bands bs) = Some b /\
              dict_find s coefficients = Some (fitted ext self equivalences b).
Proof.
  unfold fit_coefficients. intros H.
  pose (I := fun (done : list Spin) (c : dict (list Coef)) =>
               same_keys (keys c) done /\
               forall s, In s done ->
                 exists b, dict_find s (bands bs) = Some b /\
                           dict_find s c = Some (fitted ext self equivalences b)).
  apply (for_invariant I) with (done := []) in H.
  - exact H.
  - clear H coefficients. intros done x c c' [Hk Hf] H.
    apply result_bind_ok in H as (b & Hb & H). injection H as <-.
    apply dict_get_ok in Hb. split.
    + intros s. rewrite keys_dict_set, in_app_iff, (Hk s). simpl.
      intuition auto.
    + intros s Hs. destruct (Spin_eq_dec x s) as [<- | Hne].
      * exists b. split; auto. apply dict_find_set_same.
      * rewrite dict_find_set_other by auto. apply Hf.
        apply in_app_iff in Hs as [Hs | [Hs | []]]; congruence.
  - split; [intros s; simpl; tauto | intros s []].
Qed.

Variables (coefficients : dict (list Coef)) (metal : bool) (nw : Z).
Variables (min_e max_e : Q).

Lemma evaluate_bands_ok energies new_vb_idx :
  result (evaluate_bands ext self equivalences coefficients metal nw
                         min_e max_e) = inr (energies, new_vb_idx) ->
  same_keys (keys energies) (_spins self) /\
  (metal = false -> same_keys (keys new_vb_idx) (_spins self)) /\
  forall s, In s (_spins self) ->
    exists b c selected,
      dict_find s (bands bs) = Some b /\
      dict_find s coefficients = Some c /\
      result (mask_select c (band_mask b min_e max_e)) = inr selected /\
      dict_find s energies = Some (evaluated ext self equivalences nw selected) /\
      (metal = false ->
       exists vb_idx,
         result (py_max_nat (band_index (get_vbm ext bs) s)) = inr vb_idx /\
         dict_find s new_vb_idx
         = Some (new_valence_index (band_mask b min_e max_e) vb_idx)).
Proof.
  unfold evaluate_bands. fold bs. intros H.
  pose (I := fun (done : list Spin) (st : dict matrix * dict Z) =>
     same_keys (keys (fst st)) done /\
     (metal = false -> same_keys (keys (snd st)) done) /\
     forall s, In s done ->
       exists b c selected,
         dict_find s (bands bs) = Some b /\
         dict_find s coefficients = Some c /\
         result (mask_select c (band_mask b min_e max_e)) = inr selected /\
         dict_find s (fst st)
         = Some (evaluated ext self equivalences nw selected) /\
         (metal = false ->
          exists vb_idx,
            result (py_max_nat (band_index (get_vbm ext bs) s))
            = inr vb_idx /\
            dict_find s (snd st)
            = Some (new_valence_index (band_mask b min_e max_e) vb_idx))).
  apply (for_invariant I) with (done := []) in H.
  - exact H.
  - clear H energies new_vb_idx.
    intros done x [energies new_vb_idx] st' (Hk & Hkv & Hf) H.
    apply result_bind_ok in H as (b & Hb & H).
    apply result_bind_ok in H as (c & Hc & H).
    apply result_bind_ok in H as (selected & Hsel & H).
    apply dict_get_ok in Hb. apply dict_get_ok in Hc.
    fold (evaluated ext self equivalences nw selected) in H.
    assert (Hkeys : forall (V : Type) (v : V) (d : dict V),
               same_keys (keys d) done ->
               same_keys (keys (dict_set x v d)) (done ++ [x])).
    { intros V v d Hd s. rewrite keys_dict_set, in_app_iff, (Hd s). simpl.
      intuition auto. }
    destruct metal eqn:Em; simpl in H.
    + injection H as <-. simpl. split; [| split].
      * apply Hkeys; auto.
      * discriminate.
      * intros s Hs. destruct (Spin_eq_dec x s) as [<- | Hne].
        -- exists b, c, selected.
           split; [exact Hb |]. split; [exact Hc |]. split; [exact Hsel |].
           split; [apply dict_find_set_same | discriminate].
        -- apply in_app_iff in Hs as [Hs | [Hs | []]]; [| congruence].
           destruct (Hf s Hs) as (b' & c' & sel' & Hb' & Hc' & Hsel' & He' & _).
           exists b', c', sel'.
           split; [exact Hb' |]. split; [exact Hc' |]. split; [exact Hsel' |].
           split; [| discriminate].
           simpl in *. rewrite dict_find_set_other; auto.
    + apply result_bind_ok in H as (vb & Hvb & H). injection H as <-.
      simpl. split; [| split].
      * apply Hkeys; auto.
      * intros _. apply Hkeys; auto.
      * intros s Hs. destruct (Spin_eq_dec x s) as [<- | Hne].
        -- exists b, c, selected.
           split; [exact Hb |]. split; [exact Hc |]. split; [exact Hsel |].
           split; [apply dict_find_set_same |].
           intros _. exists vb. split; [exact Hvb | apply dict_find_set_same].
        -- apply in_app_iff in Hs as [Hs | [Hs | []]]; [| congruence].
           destruct (Hf s Hs)
             as (b' & c' & sel' & Hb' & Hc' & Hsel' & He' & Hv').
           exists b', c', sel'.
           split; [exact Hb' |]. split; [exact Hc' |]. split; [exact Hsel' |].
           simpl in *. split; [rewrite dict_find_set_other; auto |].
           intros _. destruct (Hv' eq_refl) as (vb' & Hvb' & Hn').
           exists vb'. split; [exact Hvb' |].
           rewrite dict_find_set_other; auto.
  - split; [| split]; [intros s; simpl; tauto | intros _ s; simpl; tauto |].
    intros s [].
Qed.

End Loops.

Lemma NoDup_keys_evaluate_bands
    {Sites Atoms Magmom Mommat Coef : Type}
    (ext : Collaborators Sites Atoms Magmom Mommat Coef)
    (self : Interpolater Sites Atoms Magmom Mommat)
    equivalences coefficients metal nw min_e max_e energies new_vb_idx :
  result (evaluate_bands ext self equivalences coefficients metal nw
                         min_e max_e) = inr (energies, new_vb_idx) ->
  NoDup (keys energies).
Proof.
  unfold evaluate_bands. intros H.
  apply (for_invariant
           (fun (_ : list Spin) (st : dict matrix * dict Z) =>
              NoDup (keys (fst st)))) with (done := []) in H.
  - exact H.
  - clear. intros _ x [energies new_vb_idx] st' Hnd H.
    apply result_bind_ok in H as (b & _ & H).
    apply result_bind_ok in H as (c & _ & H).
    apply result_bind_ok in H as (selected & _ & H).
    destruct metal; simpl in H.
    + injection H as <-. now apply NoDup_keys_dict_set.
    + apply result_bind_ok in H as (vb & _ & H). injection H as <-.
      now apply NoDup_keys_dict_set.
  - constructor.
Qed.

(** Line 186: every spin keeps its key, and its array is re-indexed along
    the k-point axis by [sort_idx]. *)
Lemma reorder_energies_ok (energies energies' : dict matrix) sort_idx :
  NoDup (keys energies) ->
  result (reorder_energies energies sort_idx) = inr energies' ->
  same_keys (keys energies') (keys energies) /\
  forall s b, dict_find s energies = Some b ->
    exists b', dict_find s energies' = Some b' /\
               result (take_cols b sort_idx) = inr b'.
Proof.
  unfold reorder_energies. intros Hnd H.
  pose (I := fun (done : list (Spin * matrix)) (acc : dict matrix) =>
     NoDup (keys done) ->
     same_keys (keys acc) (keys done) /\
     forall s b, In (s, b) done ->
       exists b', dict_find s acc = Some b' /\
                  result (take_cols b sort_idx) = inr b').
  apply (for_invariant I) with (done := []) in H.
  - destruct (H Hnd) as [Hk Hf]. split; auto.
    intros s b Hb. apply Hf. now apply In_dict_find.
  - clear. intros done [x bx] acc acc' HI H Hnd.
    apply result_bind_ok in H as (b' & Hb' & H). injection H as <-.
    unfold keys in Hnd. rewrite map_app in Hnd. simpl in Hnd.
    apply NoDup_remove in Hnd as [Hnd Hx]. rewrite app_nil_r in *.
    destruct (HI Hnd) as [Hk Hf]. split.
    + intros s. rewrite keys_dict_set. unfold keys at 2.
      rewrite map_app, in_app_iff. simpl. rewrite (Hk s).
      unfold keys. intuition auto.
    + intros s b Hin. apply in_app_iff in Hin as [Hin | [[= <- <-] | []]].
      * rewrite dict_find_set_other; [apply Hf; auto |].
        intros ->. apply Hx. change s with (fst (s, b)). now apply in_map.
      * exists b'. split; auto. apply dict_find_set_same.
  - intros _. split; [intros s; simpl; tauto | intros s b []].
Qed.

Section FermiLevel.
Context {Sites Atoms Magmom Mommat : Type}.
Variable self : Interpolater Sites Atoms Magmom Mommat.
Variables (energies : dict matrix) (new_vb_idx : dict Z).

Hypothesis keys_energies : same_keys (keys energies) (_spins self).
Hypothesis index_lower :
  forall s i, dict_find s new_vb_idx = Some i -> (-1 <= i)%Z.

Lemma valence_top_spec s y :
  result (valence_top energies new_vb_idx s) = inr y ->
  valence_energy energies new_vb_idx y /\
  forall b i n row e,
    dict_find s energies = Some b -> dict_find s new_vb_idx = Some i ->
    nth_error b n = Some row -> (Z.of_nat n <= i)%Z -> In e row ->
    (e <= y)%Q.
Proof.
  unfold valence_top. intros H.
  apply result_bind_ok in H as (b & Hb & H).
  apply result_bind_ok in H as (i & Hi & H).
  apply dict_get_ok in Hb. apply dict_get_ok in Hi.
  pose proof (index_lower _ Hi) as Hlow.
  apply np_max_spec in H as [(row & Hrow & Hy) Hup]. split.
  - apply In_slice_to in Hrow as (n & Hn & Hnth); [| exact Hlow].
    exists s, b, i, n, row. auto.
  - intros b' i' n row' e Hb' Hi' Hnth Hn He.
    rewrite Hb in Hb'. rewrite Hi in Hi'.
    injection Hb' as <-. injection Hi' as <-.
    apply (Hup row'); auto. apply In_slice_to; eauto.
Qed.

Lemma conduction_bottom_spec s y :
  result (conduction_bottom energies new_vb_idx s) = inr y ->
  conduction_energy energies new_vb_idx y /\
  forall b i n row e,
    dict_find s energies = Some b -> dict_find s new_vb_idx = Some i ->
    nth_error b n = Some row -> (i < Z.of_nat n)%Z -> In e row ->
    (y <= e)%Q.
Proof.
  unfold conduction_bottom. intros H.
  apply result_bind_ok in H as (b & Hb & H).
  apply result_bind_ok in H as (i & Hi & H).
  apply dict_get_ok in Hb. apply dict_get_ok in Hi.
  pose proof (index_lower _ Hi) as Hlow.
  apply np_min_spec in H as [(row & Hrow & Hy) Hup]. split.
  - apply In_slice_from in Hrow as (n & Hn & Hnth); [| exact Hlow].
    exists s, b, i, n, row. auto.
  - intros b' i' n row' e Hb' Hi' Hnth Hn He.
    rewrite Hb in Hb'. rewrite Hi in Hi'.
    injection Hb' as <-. injection Hi' as <-.
    apply (Hup row'); auto. apply In_slice_from; eauto.
Qed.

Lemma fermi_level_nonmetal_ok ef :
  result (fermi_level self false energies new_vb_idx) = inr ef ->
  exists e_vbm e_cbm,
    is_maximum (valence_energy energies new_vb_idx) e_vbm /\
    is_minimum (conduction_energy energies new_vb_idx) e_cbm /\
    ef = float_div (float_add e_vbm e_cbm) 2.
Proof.
  unfold fermi_level. intros H.
  apply result_bind_ok in H as (u & _ & H).
  apply result_bind_ok in H as (tops & Htops & H).
  apply result_bind_ok in H as (e_vbm & Hv & H).
  apply result_bind_ok in H as (bottoms & Hbottoms & H).
  apply result_bind_ok in H as (e_cbm & Hc & H).
  injection H as <-.
  apply comprehension_ok in Htops. apply comprehension_ok in Hbottoms.
  apply py_max_spec in Hv as [Hvin Hvup].
  apply py_min_spec in Hc as [Hcin Hcup].
  exists e_vbm, e_cbm.
  split; [split | split; [split | reflexivity]].
  - destruct (Forall2_In_r _ Htops Hvin) as (s & _ & Hs).
    now apply valence_top_spec in Hs.
  - intros e (s & b & i & n & row & Hb & Hi & Hnth & Hn & He).
    assert (Hs : In s (_spins self)).
    { apply keys_energies. apply dict_find_in_keys. eauto. }
    destruct (Forall2_In_l _ Htops Hs) as (y & Hy & Hty).
    apply valence_top_spec in Hty as [_ Hup].
    apply Qle_trans with y; [eapply Hup; eauto | apply Hvup; exact Hy].
  - destruct (Forall2_In_r _ Hbottoms Hcin) as (s & _ & Hs).
    now apply conduction_bottom_spec in Hs.
  - intros e (s & b & i & n & row & Hb & Hi & Hnth & Hn & He).
    assert (Hs : In s (_spins self)).
    { apply keys_energies. apply dict_find_in_keys. eauto. }
    destruct (Forall2_In_l _ Hbottoms Hs) as (y & Hy & Hty).
    apply conduction_bottom_spec in Hty as [_ Hup].
    apply Qle_trans with y; [apply Hcup; exact Hy | eapply Hup; eauto].
Qed.

Lemma fermi_level_nonmetal_warnings :
  warnings (fermi_level self false energies new_vb_idx)
  = [recenter_warning].
Proof.
  unfold fermi_level. rewrite warnings_bind. simpl.
  f_equal.
  change (silent
    (tops <- comprehension (valence_top energies new_vb_idx) (_spins self) ;;
     e_vbm <- py_max tops ;;
     bottoms <- comprehension (conduction_bottom energies new_vb_idx)
                  (_spins self) ;;
     e_cbm <- py_min bottoms ;;
     ret (float_div (float_add e_vbm e_cbm) 2))).
  unfold valence_top, conduction_bottom, np_max, np_min.
  call_auto.
Qed.

End FermiLevel.

Ltac walk H :=
  let x := fresh "x" in
  let Hx := fresh "Hx" in
  apply result_bind_ok in H as (x & Hx & H);
  rewrite (warnings_bind_ok _ _ Hx);
  try destruct x as [? ?];
  cbv beta iota in H |- *.

Lemma interpolate_bands_warnings_nonmetal
    {Sites Atoms Magmom Mommat Coef : Type}
    (ext : Collaborators Sites Atoms Magmom Mommat Coef)
    (self : Interpolater Sites Atoms Magmom Mommat)
    factor cutoff nworkers r :
  is_metal ext (_band_structure self) = false ->
  result (interpolate_bands ext self factor cutoff nworkers) = inr r ->
  warnings (interpolate_bands ext self factor cutoff nworkers)
  = [recenter_warning].
Proof.
  intros Hm H. unfold interpolate_bands in *. rewrite Hm in *.
  walk H. rewrite silent_interpolation_mesh_of.
  walk H. rewrite silent_fit_coefficients.
  walk H. rewrite silent_energy_window.
  walk H. rewrite silent_evaluate_bands.
  walk H. rewrite fermi_level_nonmetal_warnings.
  destruct (spglib_get_ir_reciprocal_mesh ext _ _ _) as [mapping grid].
  walk H. rewrite silent_take.
  walk H. rewrite silent_take.
  walk H. rewrite silent_reorder_energies.
  walk H. rewrite silent_kpoint_dim_of.
  reflexivity.
Qed.

(** * Properties of [interpolate_bands] *)

(** C1. When some spin channel has no band with a k-point energy strictly
    inside the selection window, the call does not raise
    [NoBandsInWindowError]; for a non-metallic input it does not return
    either, it ends in one of Python's or numpy's own exceptions. *)
Theorem no_bands_in_window_error_is_never_raised
    {Sites Atoms Magmom Mommat Coef : Type}
    (ext : Collaborators Sites Atoms Magmom Mommat Coef)
    (band_structure : BandStructure Sites) (soc : bool)
    (magmom : option Magmom) (mommat : option Mommat)
    (interpolation_factor : Q) (energy_cutoff : option Q) (nworkers : Z)
    (spin : Spin) (b : matrix) (min_e max_e : Q) :
  let self := Interpolater_init ext band_structure soc magmom mommat in
  let call :=
    interpolate_bands ext self interpolation_factor energy_cutoff nworkers in
  dict_find spin (bands band_structure) = Some b ->
  result (energy_window ext self energy_cutoff (is_metal ext band_structure))
  = inr (min_e, max_e) ->
  (forall i, band_selected b min_e max_e i = false) ->
  result call <> inl NoBandsInWindowError /\
  (is_metal ext band_structure = false ->
   exists e, result call = inl e /\ e <> NoBandsInWindowError).
Proof.
  intros self call Hb Hwin Hnone.
  assert (Hnever : result call <> inl NoBandsInWindowError)
    by apply never_interpolate_bands.
  split; [exact Hnever |]. intros Hm.
  destruct (result call) as [e | r] eqn:Hr.
  - exists e. split; [reflexivity | congruence].
  - exfalso. apply interpolate_bands_ok in Hr.
    destruct Hr as (mesh & coefficients & min_e' & max_e' & energies
                    & new_vb_idx & ef & kp1 & kp2 & energies' & Hr).
    cbv zeta in Hr.
    destruct Hr as (_ & _ & Hwin' & Hev & Hef & _).
    change (_band_structure self) with band_structure in Hwin', Hev, Hef.
    rewrite Hwin in Hwin'. injection Hwin' as <- <-.
    rewrite Hm in Hev, Hef.
    assert (Hs : In spin (_spins self)).
    { apply dict_find_in_keys. eauto. }
    apply evaluate_bands_ok in Hev as (_ & _ & Hf).
    destruct (Hf spin Hs) as (b' & c & sel & Hb' & _ & _ & He & Hv).
    change (_band_structure self) with band_structure in Hb'.
    rewrite Hb in Hb'. injection Hb' as <-.
    destruct (Hv eq_refl) as (vb & _ & Hidx).
    rewrite new_valence_index_nothing_selected in Hidx by exact Hnone.
    unfold fermi_level in Hef.
    apply result_bind_ok in Hef as (u & _ & Hef).
    apply result_bind_ok in Hef as (tops & Htops & _).
    apply comprehension_ok in Htops.
    destruct (Forall2_In_l _ Htops Hs) as (y & _ & Hy).
    unfold valence_top in Hy.
    apply result_bind_ok in Hy as (e0 & _ & Hy).
    apply result_bind_ok in Hy as (i & Hi & Hy).
    apply dict_get_ok in Hi. rewrite Hidx in Hi. injection Hi as <-.
    discriminate Hy.
Qed.

(** The spin-polarised sample with a cut-off of half an eV: the down
    channel has no band in the window and the call ends in an exception
    that is not [NoBandsInWindowError]. *)
Lemma no_bands_in_window_error_is_never_raised_witness :
  result Sample.polarized_call <> inl NoBandsInWindowError /\
  exists e, result Sample.polarized_call = inl e /\
            e <> NoBandsInWindowError.
Proof.
  destruct (no_bands_in_window_error_is_never_raised
              Sample.polarized_ext Sample.polarized_bs false None None 5
              (Some (1 # 2)) (-1) Down (b := [[-6; -7; -7]; [8; 9; 9]])
              (min_e := -1 - (1 # 2)) (max_e := 1 + (1 # 2)))
    as [Hn He].
  - reflexivity.
  - reflexivity.
  - intros [| [| [| i]]]; reflexivity.
  - split; [exact Hn | apply He; reflexivity].
Defined.

(** C1, as first stated, fails on the coarse sample metal with a cut-off
    of half an eV: no band of the only spin channel has an energy strictly
    inside the window, yet the call returns, with a band structure that has
    no band at all for that spin. *)
Lemma coarse_metal_returns_without_bands :
  let ext := Sample.metal_ext in
  let self := Sample.interpolater ext Sample.coarse_metal_bs in
  dict_find Up (bands Sample.coarse_metal_bs) = Some [[-3; 2; 2]] /\
  result (energy_window ext self (Some (1 # 2))
                        (is_metal ext Sample.coarse_metal_bs))
  = inr (0 - (1 # 2), 0 + (1 # 2))%Q /\
  (forall i,
      band_selected [[-3; 2; 2]] (0 - (1 # 2)) (0 + (1 # 2)) i = false) /\
  exists r,
    result Sample.coarse_metal_call = inr r /\
    bands (fst r) = [(Up, [])] /\
    result Sample.coarse_metal_call <> inl NoBandsInWindowError.
Proof.
  intros ext self.
  split; [reflexivity |]. split; [reflexivity |].
  split; [intros [| [| i]]; reflexivity |].
  eexists. split; [reflexivity |]. split; [reflexivity | discriminate].
Qed.

(** C2. For a non-metallic input (with or without a cut-off, so in
    particular with [energy_cutoff = None]) a call that returns has emitted
    exactly the recentring warning, and the Fermi energy of the result is
    [(e_vbm + e_cbm) / 2] as double precision computes it, where [e_vbm] is
    the maximum over all spins of the energies the call interpolated for
    the bands at or below the new valence-band index, and [e_cbm] the
    minimum over all spins of those for the bands strictly above it. The
    interpolated energies are the call's own: evaluated from the
    coefficients it fitted, inside the window it determined. When [e_vbm]
    and [e_cbm] are doubles, [e_vbm] does not exceed [e_cbm] and their sum
    does not overflow, the Fermi energy lies between the two, endpoints
    included. *)
Theorem semiconductor_fermi_level_is_gap_midpoint
    {Sites Atoms Magmom Mommat Coef : Type}
    (ext : Collaborators Sites Atoms Magmom Mommat Coef)
    (band_structure : BandStructure Sites) (soc : bool)
    (magmom : option Magmom) (mommat : option Mommat)
    (interpolation_factor : Q) (energy_cutoff : option Q) (nworkers : Z)
    (r : BandStructure Sites * vec3 Z) :
  let self := Interpolater_init ext band_structure soc magmom mommat in
  let equivalences :=
    sphere_get_equivalences ext (_atoms self)
      (inject_Z (Z.of_nat (length (_kpoints self))) * interpolation_factor)%Q
      (_magmom self) in
  let nw := if (nworkers =? -1)%Z then cpu_count ext else nworkers in
  let call :=
    interpolate_bands ext self interpolation_factor energy_cutoff nworkers in
  is_metal ext band_structure = false ->
  result call = inr r ->
  warnings call = [recenter_warning] /\
  exists coefficients min_e max_e energies new_vb_idx e_vbm e_cbm,
    result (fit_coefficients ext self equivalences) = inr coefficients /\
    result (energy_window ext self energy_cutoff false)
    = inr (min_e, max_e) /\
    result (evaluate_bands ext self equivalences coefficients false nw
                           min_e max_e) = inr (energies, new_vb_idx) /\
    is_maximum (valence_energy energies new_vb_idx) e_vbm /\
    is_minimum (conduction_energy energies new_vb_idx) e_cbm /\
    efermi (fst r) = float_div (float_add e_vbm e_cbm) 2 /\
    (is_double e_vbm -> is_double e_cbm ->
     (Qabs (float_add e_vbm e_cbm) < 2 ^ 1024)%Q ->
     (e_vbm <= e_cbm)%Q ->
     (e_vbm <= efermi (fst r) /\ efermi (fst r) <= e_cbm)%Q).
Proof.
  intros self equivalences nw call Hm Hr. split.
  - now apply interpolate_bands_warnings_nonmetal with (r := r).
  - apply interpolate_bands_ok in Hr.
    destruct Hr as (mesh & coefficients & min_e & max_e & energies
                    & new_vb_idx & ef & kp1 & kp2 & energies' & Hr).
    cbv zeta in Hr.
    destruct Hr as (_ & Hfit & Hwin & Hev & Hef & _ & _ & _ & _ & Hr).
    change (_band_structure self) with band_structure in Hwin, Hev, Hef.
    rewrite Hm in Hwin, Hev, Hef.
    pose proof Hev as Hloop. apply evaluate_bands_ok in Hloop.
    destruct Hloop as (Hke & Hkv & Hf). specialize (Hkv eq_refl).
    apply fermi_level_nonmetal_ok in Hef as (e_vbm & e_cbm & Hv & Hc & ->).
    + exists coefficients, min_e, max_e, energies, new_vb_idx, e_vbm, e_cbm.
      rewrite Hr. simpl efermi.
      split; [exact Hfit |]. split; [exact Hwin |]. split; [exact Hev |].
      split; [exact Hv |]. split; [exact Hc |]. split; [reflexivity |].
      intros Dv Dc _ Hle. now apply float_mean_between.
    + exact Hke.
    + intros s i Hi.
      assert (Hs : In s (_spins self)).
      { apply Hkv. apply dict_find_in_keys. eauto. }
      destruct (Hf s Hs) as (b & c & sel & _ & _ & _ & _ & Hv).
      destruct (Hv eq_refl) as (vb & _ & Hi').
      rewrite Hi in Hi'. injection Hi' as ->.
      apply new_valence_index_lower.
Qed.

(** The sample with the narrow gap: the evaluated energies, and the largest
    of the valence band and the smallest of the conduction band. *)
Lemma narrow_gap_extrema (e_vbm e_cbm : Q) :
  let energies :=
    [(Up, unscale (scale [[1; 0; 0]; [Edge.next_after_one; 2; 2]] (3 # 80))
                  (3 # 80))] in
  is_maximum (valence_energy energies [(Up, 0%Z)]) e_vbm ->
  is_minimum (conduction_energy energies [(Up, 0%Z)]) e_cbm ->
  (e_vbm == 1)%Q /\ (e_cbm == Edge.next_after_one)%Q.
Proof.
  intros energies
         [(s & b & i & n & row & Hb & Hi & Hn & Hle & Hin) Hup]
         [(s' & b' & i' & n' & row' & Hb' & Hi' & Hn' & Hlt & Hin') Hlow].
  split; apply Qle_antisym.
  - destruct s; [| discriminate Hb].
    injection Hb as <-. injection Hi as <-.
    destruct n as [| n]; [| lia]. injection Hn as <-.
    destruct Hin as [<- | [<- | [<- | []]]]; discriminate.
  - apply Qle_trans with (1 * (3 # 80) / (3 # 80))%Q; [discriminate |].
    apply Hup. exists Up. eexists. exists 0%Z, 0%nat. eexists.
    split; [reflexivity |]. split; [reflexivity |].
    split; [reflexivity |]. split; [lia |]. left. reflexivity.
  - apply Qle_trans
      with (Edge.next_after_one * (3 # 80) / (3 # 80))%Q; [| discriminate].
    apply Hlow. exists Up. eexists. exists 0%Z, 1%nat. eexists.
    split; [reflexivity |]. split; [reflexivity |].
    split; [reflexivity |]. split; [lia |]. left. reflexivity.
  - destruct s'; [| discriminate Hb'].
    injection Hb' as <-. injection Hi' as <-.
    destruct n' as [| [| n']]; [lia | | destruct n'; discriminate Hn'].
    injection Hn' as <-.
    destruct Hin' as [<- | [<- | [<- | []]]]; discriminate.
Qed.

(** The sample with the narrow gap: the valence maximum 1 and the
    conduction minimum 1 + 2^-52 are doubles, their sum is far from
    overflow, and the Fermi level lies between them. *)
Lemma semiconductor_fermi_level_is_gap_midpoint_witness :
  let r := Sample.returned Edge.narrow_gap_call in
  warnings Edge.narrow_gap_call = [recenter_warning] /\
  exists e_vbm e_cbm,
    efermi (fst r) = float_div (float_add e_vbm e_cbm) 2 /\
    (e_vbm == 1)%Q /\ (e_cbm == Edge.next_after_one)%Q /\
    (e_vbm <= efermi (fst r) /\ efermi (fst r) <= e_cbm)%Q.
Proof.
  intros r.
  destruct (semiconductor_fermi_level_is_gap_midpoint
              Edge.narrow_gap_ext Edge.narrow_gap_bs false None None 5 None
              (-1) (r := r) eq_refl eq_refl)
    as (Hw & coefficients & min_e & max_e & energies & new_vb_idx
        & e_vbm & e_cbm & Hfit & Hwin & Hev & Hv & Hc & Hef & Hbetween).
  split; [exact Hw |]. exists e_vbm, e_cbm. split; [exact Hef |].
  injection Hfit as <-. injection Hwin as <- <-. injection Hev as <- <-.
  destruct (narrow_gap_extrema Hv Hc) as [Ev Ec].
  split; [exact Ev |]. split; [exact Ec |].
  apply Hbetween.
  - apply is_double_comp with 1%Q; [now symmetry | reflexivity].
  - apply is_double_comp with Edge.next_after_one;
      [now symmetry | reflexivity].
  - rewrite (float_add_comp Ev Ec). reflexivity.
  - rewrite Ev, Ec. discriminate.
Defined.

(** C2, as first stated, fails on the zero-gap sample: the valence and the
    conduction band touch at 0, so the largest valence energy is not below
    the smallest conduction energy and no Fermi level lies strictly between
    them. *)
Lemma zero_gap_fermi_level_not_strictly_between :
  let ext := Sample.zero_gap_ext in
  let self := Sample.interpolater ext Sample.zero_gap_bs in
  let equivalences := [[(0, 0, 0)]; [(1, 0, 0); (-1, 0, 0)]]%Z in
  is_metal ext Sample.zero_gap_bs = false /\
  exists r,
    result Sample.zero_gap_call = inr r /\
    forall coefficients min_e max_e energies new_vb_idx e_vbm e_cbm,
      result (fit_coefficients ext self equivalences) = inr coefficients ->
      result (energy_window ext self None false) = inr (min_e, max_e) ->
      result (evaluate_bands ext self equivalences coefficients false
                             (cpu_count ext) min_e max_e)
      = inr (energies, new_vb_idx) ->
      is_maximum (valence_energy energies new_vb_idx) e_vbm ->
      is_minimum (conduction_energy energies new_vb_idx) e_cbm ->
      ~ (e_vbm < efermi (fst r) /\ efermi (fst r) < e_cbm)%Q.
Proof.
  intros ext self equivalences. split; [reflexivity |].
  eexists. split; [reflexivity |].
  intros coefficients min_e max_e energies new_vb_idx e_vbm e_cbm
         Hfit Hwin Hev [_ Hup] [_ Hlow] [H1 H2].
  injection Hfit as <-. injection Hwin as <- <-.
  injection Hev as <- <-.
  assert (Hv : (0 * (3 # 80) / (3 # 80) <= e_vbm)%Q).
  { apply Hup. exists Up. eexists. exists 0%Z, 0%nat. eexists.
    split; [reflexivity |]. split; [reflexivity |].
    split; [reflexivity |]. split; [lia |]. left. reflexivity. }
  assert (Hc : (e_cbm <= 0 * (3 # 80) / (3 # 80))%Q).
  { apply Hlow. exists Up. eexists. exists 0%Z, 1%nat. eexists.
    split; [reflexivity |]. split; [reflexivity |].
    split; [reflexivity |]. split; [lia |]. left. reflexivity. }
  pose proof (Qlt_trans _ _ _ H1 H2) as H12.
  pose proof (Qle_lt_trans _ _ _ Hv H12) as H.
  pose proof (Qlt_le_trans _ _ _ H Hc) as Habs.
  exact (Qlt_irrefl _ Habs).
Qed.

(** Nor is the Fermi level strictly between the two values whenever the
    valence maximum is strictly below the conduction minimum: on the sample
    with the narrow gap the sum of 1 and 1 + 2^-52 rounds to 2, and the
    Fermi level is the valence maximum itself. *)
Lemma neighbouring_doubles_fermi_level_is_valence_maximum :
  let ext := Edge.narrow_gap_ext in
  let self := Sample.interpolater ext Edge.narrow_gap_bs in
  let equivalences := [[(0, 0, 0)]; [(1, 0, 0); (-1, 0, 0)]]%Z in
  is_metal ext Edge.narrow_gap_bs = false /\
  exists r,
    result Edge.narrow_gap_call = inr r /\
    forall coefficients min_e max_e energies new_vb_idx e_vbm e_cbm,
      result (fit_coefficients ext self equivalences) = inr coefficients ->
      result (energy_window ext self None false) = inr (min_e, max_e) ->
      result (evaluate_bands ext self equivalences coefficients false
                             (cpu_count ext) min_e max_e)
      = inr (energies, new_vb_idx) ->
      is_maximum (valence_energy energies new_vb_idx) e_vbm ->
      is_minimum (conduction_energy energies new_vb_idx) e_cbm ->
      (e_vbm < e_cbm)%Q /\ (efermi (fst r) == e_vbm)%Q.
Proof.
  intros ext self equivalences. split; [reflexivity |].
  eexists. split; [reflexivity |].
  intros coefficients min_e max_e energies new_vb_idx e_vbm e_cbm
         Hfit Hwin Hev Hv Hc.
  injection Hfit as <-. injection Hwin as <- <-. injection Hev as <- <-.
  destruct (narrow_gap_extrema Hv Hc) as [Ev Ec].
  rewrite Ev, Ec. split; reflexivity.
Qed.

(** C3. Without a cut-off the window runs from the lowest to the highest
    band energy, but the mask compares strictly. On the sample metal with a
    dispersionless lowest band the window is (-5, 1), the mask drops band 0
    and the call returns one band where the input has two. On the sample
    semiconductor with a dispersionless lowest and highest band the window
    is (-5, 3), the mask drops bands 0 and 2, and the call ends in the
    [ValueError] of a minimum over the empty conduction selection. *)
Theorem flat_extremal_bands_are_excluded :
  (result (energy_window Sample.metal_ext
             (Sample.interpolater Sample.metal_ext Sample.flat_metal_bs) None
             (is_metal Sample.metal_ext Sample.flat_metal_bs)) = inr (-5, 1)
   /\ band_mask [[-5; -5; -5]; [-1; 1; 1]] (-5) 1 = [false; true]
   /\ exists r,
       result Sample.flat_metal_call = inr r /\
       map (fun item => length (snd item)) (bands (fst r)) = [1%nat]) /\
  (result (energy_window Sample.flat_ext
             (Sample.interpolater Sample.flat_ext Sample.flat_bs) None
             (is_metal Sample.flat_ext Sample.flat_bs)) = inr (-5, 3)
   /\ band_mask [[-5; -5; -5]; [-1; -2; -2]; [3; 3; 3]] (-5) 3
      = [false; true; false]
   /\ result Sample.flat_call = inl ValueError).
Proof.
  split.
  - split; [reflexivity |]. split; [reflexivity |].
    eexists. split; reflexivity.
  - repeat split; reflexivity.
Qed.

(** C4. A cut-off of exactly 0.0 is falsy: whatever the collaborators and
    the band structure, a metallic input with [energy_cutoff = 0.0] takes
    the branch of a missing cut-off. On the sample metal (Fermi level 0,
    band energies from -3 to 4) the window is (-3, 4) and both bands pass
    the mask, whereas the window [0 - 0, 0 + 0] admits none. *)
Theorem zero_cutoff_window_of_a_metal :
  (forall (Sites Atoms Magmom Mommat Coef : Type)
          (ext : Collaborators Sites Atoms Magmom Mommat Coef)
          (self : Interpolater Sites Atoms Magmom Mommat),
      energy_window ext self (Some 0) true = full_window self) /\
  is_metal Sample.metal_ext Sample.metal_bs = true /\
  result (energy_window Sample.metal_ext
            (Sample.interpolater Sample.metal_ext Sample.metal_bs)
            (Some 0) true) = inr (-3, 4) /\
  band_mask [[-3; 2; 2]; [1; 4; 4]] (-3) 4 = [true; true] /\
  band_mask [[-3; 2; 2]; [1; 4; 4]]
            (efermi Sample.metal_bs - 0) (efermi Sample.metal_bs + 0)
  = [false; false] /\
  exists r, result Sample.zero_cutoff_call = inr r /\
            map (fun item => length (snd item)) (bands (fst r)) = [2%nat].
Proof.
  split; [reflexivity |]. split; [reflexivity |].
  split; [reflexivity |]. split; [reflexivity |].
  split; [reflexivity |].
  eexists. split; reflexivity.
Qed.

(** C5. For a metallic input band structure and any arguments, a call of
    [interpolate_bands] emits no warning, and the band structure it returns
    carries the Fermi energy of the input unchanged. *)
Theorem metallic_fermi_energy_unchanged
    {Sites Atoms Magmom Mommat Coef : Type}
    (ext : Collaborators Sites Atoms Magmom Mommat Coef)
    (band_structure : BandStructure Sites) (soc : bool)
    (magmom : option Magmom) (mommat : option Mommat)
    (interpolation_factor : Q) (energy_cutoff : option Q) (nworkers : Z) :
  is_metal ext band_structure = true ->
  let call :=
    interpolate_bands ext (Interpolater_init ext band_structure soc magmom
                                             mommat)
                      interpolation_factor energy_cutoff nworkers in
  warnings call = [] /\
  forall r, result call = inr r -> efermi (fst r) = efermi band_structure.
Proof.
  intros Hm call; split.
  - apply silent_interpolate_bands_metal. exact Hm.
  - intros r Hr. apply interpolate_bands_ok in Hr.
    destruct Hr as (mesh & coefficients & min_e & max_e & energies
                    & new_vb_idx & ef & kp1 & kp2 & energies' & Hr).
    simpl in Hr.
    destruct Hr as (_ & _ & _ & _ & Hef & _ & _ & _ & _ & Hr).
    rewrite Hr; simpl. rewrite Hm in Hef.
    unfold fermi_level in Hef. simpl in Hef. now injection Hef as <-.
Qed.

(** The sample metal with a cut-off of 3 eV: the call returns, silently,
    with Fermi energy 0. *)
Lemma metallic_fermi_energy_unchanged_witness :
  let call :=
    interpolate_bands Sample.metal_ext
      (Sample.interpolater Sample.metal_ext Sample.metal_bs) 5 (Some 3)
      (-1) in
  (exists r, result call = inr r) /\
  warnings call = [] /\
  forall r, result call = inr r -> efermi (fst r) = 0.
Proof.
  split.
  - eexists. vm_compute. reflexivity.
  - apply (metallic_fermi_energy_unchanged Sample.metal_ext Sample.metal_bs
             false None None 5 (Some 3) (-1)).
    reflexivity.
Defined.

(** C6. For a non-metallic input, once the selected bands of every spin
    have been evaluated, the new valence-band index of each spin is the
    number of selected bands whose original index is at or below that
    spin's original valence-band-maximum index, minus one; the original
    index is the largest entry of [get_vbm()["band_index"][spin]]. *)
Theorem new_valence_index_counts_selected_bands
    {Sites Atoms Magmom Mommat Coef : Type}
    (ext : Collaborators Sites Atoms Magmom Mommat Coef)
    (band_structure : BandStructure Sites) (soc : bool)
    (magmom : option Magmom) (mommat : option Mommat)
    (equivalences : equivalences_t) (coefficients : dict (list Coef))
    (nworkers : Z) (min_e max_e : Q)
    (energies : dict matrix) (new_vb_idx : dict Z) :
  is_metal ext band_structure = false ->
  result (evaluate_bands ext
            (Interpolater_init ext band_structure soc magmom mommat)
            equivalences coefficients (is_metal ext band_structure)
            nworkers min_e max_e) = inr (energies, new_vb_idx) ->
  forall spin, In spin (keys (bands band_structure)) ->
    exists b vb_idx,
      dict_find spin (bands band_structure) = Some b /\
      In vb_idx (band_index (get_vbm ext band_structure) spin) /\
      (forall i, In i (band_index (get_vbm ext band_structure) spin) ->
                 (i <= vb_idx)%nat) /\
      dict_find spin new_vb_idx
      = Some (Z.of_nat (selected_at_or_below b min_e max_e vb_idx) - 1)%Z.
Proof.
  intros Hm H spin Hspin. rewrite Hm in H.
  apply evaluate_bands_ok in H as (_ & _ & H).
  destruct (H spin Hspin) as (b & c & sel & Hb & _ & _ & _ & Hv).
  destruct (Hv eq_refl) as (vb & Hvb & Hidx).
  apply py_max_nat_spec in Hvb as [Hin Hup].
  exists b, vb. repeat split; auto.
  now rewrite <- new_valence_index_count.
Qed.

(** The sample semiconductor with a window of half an eV around the gap:
    the lowest band is dropped and the valence band moves to index 0. *)
Lemma new_valence_index_counts_selected_bands_witness :
  exists b vb_idx,
    dict_find Up (bands Sample.gapped_bs) = Some b /\
    In vb_idx (band_index (get_vbm Sample.gapped_ext Sample.gapped_bs) Up) /\
    (forall i,
        In i (band_index (get_vbm Sample.gapped_ext Sample.gapped_bs) Up) ->
        (i <= vb_idx)%nat) /\
    dict_find Up [(Up, 0%Z); (Down, 0%Z)]
    = Some (Z.of_nat (selected_at_or_below b (-(3 # 2)) (3 # 2) vb_idx) - 1)%Z.
Proof.
  eapply (new_valence_index_counts_selected_bands
            Sample.gapped_ext Sample.gapped_bs false None None
            [[(0, 0, 0)]; [(1, 0, 0); (-1, 0, 0)]]%Z
            [(Up, scale [[-3; -(5 # 2); -(5 # 2)]; [-1; -2; -2]; [1; 2; 2]]
                        (3 # 80));
             (Down, scale [[-3; -(5 # 2); -(5 # 2)]; [-1; -2; -2]; [1; 2; 2]]
                          (3 # 80))]
            4 (-(3 # 2)) (3 # 2)).
  - reflexivity.
  - reflexivity.
  - simpl. auto.
Defined.

(** C7. When the equivalence routine returns at least one vector, each
    component of the mesh-dimension vector is twice the largest absolute
    value of that component over all equivalence vectors, plus one: this is
    what [kpoint_dim] evaluates to and what a returning call hands back.
    In particular, equivalences that contain (3, -2, 1) and no vector with a
    larger absolute component give (7, 5, 3). *)
Theorem mesh_dimensions_formula
    {Sites Atoms Magmom Mommat Coef : Type}
    (ext : Collaborators Sites Atoms Magmom Mommat Coef)
    (band_structure : BandStructure Sites) (soc : bool)
    (magmom : option Magmom) (mommat : option Mommat)
    (interpolation_factor : Q) (energy_cutoff : option Q) (nworkers : Z) :
  let self := Interpolater_init ext band_structure soc magmom mommat in
  let equivalences :=
    sphere_get_equivalences ext (_atoms self)
      (inject_Z (Z.of_nat (length (_kpoints self))) * interpolation_factor)%Q
      (_magmom self) in
  concat equivalences <> [] ->
  exists mx my mz,
    is_max_abs c0 (concat equivalences) mx /\
    is_max_abs c1 (concat equivalences) my /\
    is_max_abs c2 (concat equivalences) mz /\
    result (kpoint_dim_of equivalences)
    = inr (2 * mx + 1, 2 * my + 1, 2 * mz + 1)%Z /\
    (forall r,
        result (interpolate_bands ext self interpolation_factor
                                  energy_cutoff nworkers) = inr r ->
        snd r = (2 * mx + 1, 2 * my + 1, 2 * mz + 1)%Z) /\
    (In (3, -2, 1)%Z (concat equivalences) ->
     (forall v, In v (concat equivalences) ->
                (Z.abs (c0 v) <= 3 /\ Z.abs (c1 v) <= 2
                 /\ Z.abs (c2 v) <= 1)%Z) ->
     result (kpoint_dim_of equivalences) = inr (7, 5, 3)%Z).
Proof.
  intros self equivalences Hne.
  destruct (max_abs_equivalences_spec equivalences Hne)
    as (mx & my & mz & Hx & Hy & Hz & Hmax).
  assert (Hdim : result (kpoint_dim_of equivalences)
                 = inr (2 * mx + 1, 2 * my + 1, 2 * mz + 1)%Z).
  { unfold kpoint_dim_of. rewrite Hmax. simpl.
    now rewrite (Z.mul_comm mx), (Z.mul_comm my), (Z.mul_comm mz). }
  exists mx, my, mz. repeat split; try apply Hx; try apply Hy; try apply Hz.
  - exact Hdim.
  - intros r Hr. apply interpolate_bands_ok in Hr.
    destruct Hr as (mesh & coefficients & min_e & max_e & energies
                    & new_vb_idx & ef & kp1 & kp2 & energies' & Hr).
    cbv zeta in Hr. destruct Hr as (_ & _ & _ & _ & _ & _ & _ & _ & Hk & _).
    fold self equivalences in Hk. rewrite Hdim in Hk. now injection Hk.
  - intros Hin Hle. rewrite Hdim.
    assert (mx = 3 /\ my = 2 /\ mz = 1)%Z as (-> & -> & ->);
      [| reflexivity].
    repeat split.
    + apply (is_max_abs_unique Hx). split; [exists (3, -2, 1)%Z; auto |].
      intros v Hv. now apply Hle.
    + apply (is_max_abs_unique Hy). split; [exists (3, -2, 1)%Z; auto |].
      intros v Hv. now apply Hle.
    + apply (is_max_abs_unique Hz). split; [exists (3, -2, 1)%Z; auto |].
      intros v Hv. now apply Hle.
Qed.

(** The sample mesh: equivalences (0,0,0), (1,0,0), (-1,0,0) give the
    mesh dimensions (3, 1, 1). *)
Lemma mesh_dimensions_formula_witness :
  exists mx my mz,
    is_max_abs c0 [(0, 0, 0); (1, 0, 0); (-1, 0, 0)]%Z mx /\
    is_max_abs c1 [(0, 0, 0); (1, 0, 0); (-1, 0, 0)]%Z my /\
    is_max_abs c2 [(0, 0, 0); (1, 0, 0); (-1, 0, 0)]%Z mz /\
    snd (Sample.returned Sample.metal_call)
    = (2 * mx + 1, 2 * my + 1, 2 * mz + 1)%Z.
Proof.
  destruct (mesh_dimensions_formula
              Sample.metal_ext Sample.metal_bs false None None 5 None (-1))
    as (mx & my & mz & Hx & Hy & Hz & _ & Hr & _).
  - discriminate.
  - exists mx, my, mz. repeat split; try apply Hx; try apply Hy;
      try apply Hz.
    apply Hr. reflexivity.
Defined.

(** C8. The k-points of a band structure returned by [interpolate_bands]
    are in ascending lexicographic order of (x, y, z); the plain
    lexicographic sort of the returned list yields the identity permutation
    and hence the same list again. *)
Theorem returned_kpoints_are_canonically_sorted
    {Sites Atoms Magmom Mommat Coef : Type}
    (ext : Collaborators Sites Atoms Magmom Mommat Coef)
    (band_structure : BandStructure Sites) (soc : bool)
    (magmom : option Magmom) (mommat : option Mommat)
    (interpolation_factor : Q) (energy_cutoff : option Q) (nworkers : Z)
    (r : BandStructure Sites * vec3 Z) :
  result (interpolate_bands ext
            (Interpolater_init ext band_structure soc magmom mommat)
            interpolation_factor energy_cutoff nworkers) = inr r ->
  let k := kpoints (fst r) in
  StronglySorted lex_le k /\
  lexsort (plain_keys k) = seq 0 (length k) /\
  result (take k (lexsort (plain_keys k))) = inr k.
Proof.
  intros Hr k. apply interpolate_bands_ok in Hr.
  destruct Hr as (mesh & coefficients & min_e & max_e & energies
                  & new_vb_idx & ef & kp1 & kp2 & energies' & Hr).
  cbv zeta in Hr. destruct Hr as (_ & _ & _ & _ & _ & _ & Hkp2 & _ & _ & Hr).
  subst k. rewrite Hr. simpl kpoints.
  now apply plain_sort_canonical with kp1.
Qed.

(** The sample metal: the returned k-points -1/3, 0, 1/3 are sorted. *)
Lemma returned_kpoints_are_canonically_sorted_witness :
  StronglySorted lex_le (kpoints (fst (Sample.returned Sample.metal_call)))
  /\ lexsort (plain_keys (kpoints (fst (Sample.returned Sample.metal_call))))
     = [0; 1; 2]%nat.
Proof.
  destruct (returned_kpoints_are_canonically_sorted
              Sample.metal_ext Sample.metal_bs false None None 5 None (-1)
              (r := Sample.returned Sample.metal_call) eq_refl)
    as (Hs & Hid & _).
  split; [exact Hs | exact Hid].
Defined.

(** C9. In a call that returns, the dictionary of fitted coefficients, the
    dictionary of evaluated energies and the energies of the returned band
    structure all have the spin keys of the input band structure. *)
Theorem spin_keys_preserved
    {Sites Atoms Magmom Mommat Coef : Type}
    (ext : Collaborators Sites Atoms Magmom Mommat Coef)
    (band_structure : BandStructure Sites) (soc : bool)
    (magmom : option Magmom) (mommat : option Mommat)
    (interpolation_factor : Q) (energy_cutoff : option Q) (nworkers : Z)
    (r : BandStructure Sites * vec3 Z) :
  let self := Interpolater_init ext band_structure soc magmom mommat in
  let equivalences :=
    sphere_get_equivalences ext (_atoms self)
      (inject_Z (Z.of_nat (length (_kpoints self))) * interpolation_factor)%Q
      (_magmom self) in
  let nw := if (nworkers =? -1)%Z then cpu_count ext else nworkers in
  result (interpolate_bands ext self interpolation_factor energy_cutoff
                            nworkers) = inr r ->
  same_keys (keys (bands (fst r))) (keys (bands band_structure)) /\
  exists coefficients min_e max_e energies new_vb_idx,
    result (fit_coefficients ext self equivalences) = inr coefficients /\
    result (evaluate_bands ext self equivalences coefficients
              (is_metal ext band_structure) nw min_e max_e)
    = inr (energies, new_vb_idx) /\
    same_keys (keys coefficients) (keys (bands band_structure)) /\
    same_keys (keys energies) (keys (bands band_structure)).
Proof.
  intros self equivalences nw Hr.
  apply interpolate_bands_ok in Hr.
  destruct Hr as (mesh & coefficients & min_e & max_e & energies
                  & new_vb_idx & ef & kp1 & kp2 & energies' & Hr).
  simpl in Hr.
  destruct Hr as (_ & Hfit & _ & Hev & _ & _ & _ & Hre & _ & Hr).
  pose proof Hev as Hnd. apply NoDup_keys_evaluate_bands in Hnd.
  apply fit_coefficients_ok in Hfit as Hkc. destruct Hkc as [Hkc _].
  apply evaluate_bands_ok in Hev as Hke. destruct Hke as [Hke _].
  apply reorder_energies_ok in Hre as Hko; [| exact Hnd].
  destruct Hko as [Hko _].
  split.
  - rewrite Hr. simpl. eapply same_keys_trans; eauto.
  - exists coefficients, min_e, max_e, energies, new_vb_idx. auto.
Qed.

(** The sample semiconductor: both spin channels come back. *)
Lemma spin_keys_preserved_witness :
  exists r,
    result (interpolate_bands Sample.gapped_ext
              (Sample.interpolater Sample.gapped_ext Sample.gapped_bs)
              5 None (-1)) = inr r /\
    same_keys (keys (bands (fst r))) [Up; Down].
Proof.
  eexists. split; [reflexivity |].
  eapply (spin_keys_preserved Sample.gapped_ext Sample.gapped_bs false None
            None 5 None (-1)).
  reflexivity.
Defined.

(** C10. Of the two sorting passes of a call that returns, the first
    orders the grid points alone: it is the stable sort by the sign-first
    order and yields the intermediate k-point array [kp1]. The second is
    the stable sort of [kp1] by plain lexicographic order; its permutation
    [plain] re-indexes [kp1] into the returned k-points and, alone, the
    columns of every band row the evaluation routine delivered for every
    spin: returned column [m] is evaluated column [plain[m]]. So the
    evaluated columns are taken to stand in the order of [kp1]: whenever the
    evaluation routine delivers, in column [i], the energy at the [i]-th
    grid point in sign-first order, every returned energy stands at its own
    k-point. *)
Theorem only_plain_permutation_reaches_energies
    {Sites Atoms Magmom Mommat Coef : Type}
    (ext : Collaborators Sites Atoms Magmom Mommat Coef)
    (band_structure : BandStructure Sites) (soc : bool)
    (magmom : option Magmom) (mommat : option Mommat)
    (interpolation_factor : Q) (energy_cutoff : option Q) (nworkers : Z)
    (r : BandStructure Sites * vec3 Z) :
  let self := Interpolater_init ext band_structure soc magmom mommat in
  let equivalences :=
    sphere_get_equivalences ext (_atoms self)
      (inject_Z (Z.of_nat (length (_kpoints self))) * interpolation_factor)%Q
      (_magmom self) in
  let nw := if (nworkers =? -1)%Z then cpu_count ext else nworkers in
  result (interpolate_bands ext self interpolation_factor energy_cutoff
                            nworkers) = inr r ->
  exists mesh coefficients min_e max_e energies new_vb_idx
         sign_first plain kp1,
    let kp0 :=
      map (grid_to_frac mesh)
          (snd (spglib_get_ir_reciprocal_mesh ext mesh
                  (get_atoms ext (structure band_structure)) (1 # 10))) in
    result (interpolation_mesh_of equivalences) = inr mesh /\
    result (fit_coefficients ext self equivalences) = inr coefficients /\
    result (energy_window ext self energy_cutoff
                          (is_metal ext band_structure))
    = inr (min_e, max_e) /\
    result (evaluate_bands ext self equivalences coefficients
              (is_metal ext band_structure) nw min_e max_e)
    = inr (energies, new_vb_idx) /\
    sorts_stably sign_first_le kp0 sign_first /\
    reindexed sign_first kp0 kp1 /\
    sorts_stably lex_le kp1 plain /\
    reindexed plain kp1 (kpoints (fst r)) /\
    (forall s b, dict_find s energies = Some b ->
       exists b', dict_find s (bands (fst r)) = Some b' /\
                  Forall2 (reindexed plain) b b') /\
    (forall E, columns_follow E kp1 energies ->
               columns_follow E (kpoints (fst r)) (bands (fst r))).
Proof.
  intros self equivalences nw Hr.
  apply interpolate_bands_ok in Hr.
  destruct Hr as (mesh & coefficients & min_e & max_e & energies
                  & new_vb_idx & ef & kp1 & kp2 & energies' & Hr).
  cbv zeta in Hr.
  destruct Hr as (Hmesh & Hfit & Hwin & Hev & _ & Hkp1 & Hkp2 & Hre & _ & Hr).
  change (_band_structure self) with band_structure in *.
  pose proof Hev as Hnd. apply NoDup_keys_evaluate_bands in Hnd.
  apply reorder_energies_ok in Hre as [Hkeys Hcols]; [| exact Hnd].
  apply take_ok in Hkp1, Hkp2.
  set (kp0 := map (grid_to_frac mesh) _) in *.
  assert (Hrows : forall s b, dict_find s energies = Some b ->
            exists b', dict_find s energies' = Some b' /\
                       Forall2 (reindexed (lexsort (plain_keys kp1))) b b').
  { intros s b Hb. destruct (Hcols s b Hb) as (b' & Hb' & Ht).
    exists b'. split; [exact Hb' | now apply take_cols_ok]. }
  exists mesh, coefficients, min_e, max_e, energies, new_vb_idx,
    (lexsort (sign_first_keys kp0)), (lexsort (plain_keys kp1)), kp1.
  cbv zeta. fold kp0. rewrite Hr. cbn [fst kpoints bands].
  split; [exact Hmesh |]. split; [exact Hfit |]. split; [exact Hwin |].
  split; [exact Hev |].
  split; [apply lexsort_sign_first_sorts |]. split; [exact Hkp1 |].
  split; [apply lexsort_plain_sorts |]. split; [exact Hkp2 |].
  split; [exact Hrows |].
  intros E. apply reindexed_columns_follow with (idx := lexsort (plain_keys kp1));
    [exact Hkp2 |].
  intros s b' Hb'.
  assert (Hs : In s (keys energies)).
  { apply Hkeys. apply dict_find_in_keys. eauto. }
  apply dict_find_in_keys in Hs as [b Hb].
  destruct (Hrows s b Hb) as (b'' & Hb'' & Hrow).
  exists b. split; [exact Hb |]. congruence.
Qed.

(** A grid the symmetry routine lists as 0, -1/3, 1/3, and bands that
    differ between 1/3 and -1/3, evaluated in the sign-first order 0, 1/3,
    -1/3: the returned k-points are -1/3, 0, 1/3 and every returned energy
    stands at its own k-point. *)
Lemma only_plain_permutation_reaches_energies_witness :
  let r := Sample.returned Edge.skew_call in
  kpoints (fst r)
  = map (grid_to_frac (3, 1, 1)%Z) [(-1, 0, 0); (0, 0, 0); (1, 0, 0)]%Z /\
  columns_follow Edge.skew_energy (kpoints (fst r)) (bands (fst r)).
Proof.
  intros r. split; [reflexivity |].
  destruct (only_plain_permutation_reaches_energies
              Edge.unordered_grid_ext Edge.skew_bs false None None 5 None (-1)
              (r := r) eq_refl)
    as (mesh & coefficients & min_e & max_e & energies & new_vb_idx
        & sign_first & plain & kp1
        & Hmesh & Hfit & Hwin & Hev & Hsf & Hkp1 & _ & _ & _ & Haligned).
  apply Haligned. clear Haligned.
  injection Hmesh as <-. injection Hfit as <-. injection Hwin as <- <-.
  injection Hev as <- _.
  cbv zeta in Hsf, Hkp1.
  rewrite (sorts_stably_unique Hsf (lexsort_sign_first_sorts _)) in Hkp1.
  clear Hsf. unfold reindexed in Hkp1.
  inversion Hkp1 as [| i0 p0 idx0 l0 H0 Hkp1' E0 E1]; subst; clear Hkp1.
  inversion Hkp1' as [| i1 p1 idx1 l1 H1 Hkp1'' E0 E1]; subst; clear Hkp1'.
  inversion Hkp1'' as [| i2 p2 idx2 l2 H2 Hnil E0 E1]; subst; clear Hkp1''.
  inversion Hnil; subst; clear Hnil.
  injection H0 as <-. injection H1 as <-. injection H2 as <-.
  intros s b n row i p Hb Hrow Hp.
  destruct s; [| discriminate Hb]. injection Hb as <-.
  destruct n as [| [| n]]; [| | destruct n; discriminate Hrow];
    injection Hrow as <-;
    (destruct i as [| [| [| i]]]; [| | | destruct i; discriminate Hp]);
    injection Hp as <-; reflexivity.
Defined.

(** * Further properties: exceptions *)

Lemma never_bind_ok {A B} e (m : M A) (f : A -> M B) :
  never e m -> (forall x, result m = inr x -> never e (f x)) ->
  never e (bind m f).
Proof.
  unfold never; intros Hm Hf H.
  apply result_bind_err in H as [H | (x & Hx & H)]; [auto |].
  exact (Hf x Hx H).
Qed.

Lemma silent_bind_ok {A B} (m : M A) (f : A -> M B) :
  silent m -> (forall x, result m = inr x -> silent (f x)) ->
  silent (bind m f).
Proof.
  unfold silent; intros Hm Hf. rewrite warnings_bind, Hm.
  destruct (result m) as [e | x] eqn:E; simpl; auto.
Qed.

Lemma never_for_in {A S} e (xs : list A) (body : A -> S -> M S) :
  (forall x st, In x xs -> never e (body x st)) ->
  forall st, never e (for_ xs st body).
Proof.
  induction xs as [| x xs IH]; intros Hb st; simpl.
  - apply never_ret.
  - apply never_bind; [apply Hb; now left |].
    intros st'. apply IH. intros y st'' Hy. apply Hb. now right.
Qed.

Lemma never_comprehension_in {A B} e (f : A -> M B) (xs : list A) :
  (forall x, In x xs -> never e (f x)) -> never e (comprehension f xs).
Proof.
  induction xs as [| x xs IH]; intros Hf; simpl.
  - apply never_ret.
  - apply never_bind; [apply Hf; now left |]. intros y.
    apply never_bind; [apply IH; intros z Hz; apply Hf; now right |].
    intros ys. apply never_ret.
Qed.

Lemma dict_get_in {V} (d : dict V) s :
  In s (keys d) -> exists v, dict_get d s = ret v.
Proof.
  intros H. apply dict_find_in_keys in H as [v Hv].
  exists v. unfold dict_get. now rewrite Hv.
Qed.

Lemma never_dict_get_in {V} e (d : dict V) s :
  In s (keys d) -> never e (dict_get d s).
Proof.
  intros H. destruct (dict_get_in d s H) as [v ->]. apply never_ret.
Qed.

Lemma bind_ret_l {A B} (x : A) (f : A -> M B) : bind (ret x) f = f x.
Proof. unfold bind, ret. destruct (f x). reflexivity. Qed.

Section NoKeyError.
Context {Sites Atoms Magmom Mommat Coef : Type}.
Variable ext : Collaborators Sites Atoms Magmom Mommat Coef.
Variable self : Interpolater Sites Atoms Magmom Mommat.

Hypothesis spins_are_keys :
  forall s, In s (_spins self) -> In s (keys (bands (_band_structure self))).

Lemma no_key_error_np_max a : never KeyError (np_max a).
Proof. unfold np_max, py_max. call_auto. Qed.

Lemma no_key_error_np_min a : never KeyError (np_min a).
Proof. unfold np_min, py_min. call_auto. Qed.

Lemma no_key_error_mesh eqs : never KeyError (interpolation_mesh_of eqs).
Proof.
  unfold interpolation_mesh_of, max_abs_equivalences, vstack, np_max_axis0.
  call_auto.
Qed.

Lemma no_key_error_kpoint_dim eqs : never KeyError (kpoint_dim_of eqs).
Proof.
  unfold kpoint_dim_of, max_abs_equivalences, vstack, np_max_axis0.
  call_auto.
Qed.

Lemma no_key_error_take {A} (l : list A) idx : never KeyError (take l idx).
Proof. unfold take. call_auto. Qed.

Lemma no_key_error_reorder energies idx :
  never KeyError (reorder_energies energies idx).
Proof. unfold reorder_energies, take_cols, take. call_auto. Qed.

Lemma no_key_error_fit eqs : never KeyError (fit_coefficients ext self eqs).
Proof.
  unfold fit_coefficients. apply never_for_in. intros s st Hs.
  apply never_bind; [apply never_dict_get_in; auto |].
  intros b. apply never_ret.
Qed.

Lemma no_key_error_window cutoff metal :
  never KeyError (energy_window ext self cutoff metal).
Proof.
  assert (Hfull : never KeyError (full_window self)).
  { unfold full_window.
    apply never_bind.
    { apply never_comprehension_in. intros s Hs.
      apply never_bind; [apply never_dict_get_in; auto |].
      intros b. apply no_key_error_np_min. }
    intros mins. apply never_bind; [unfold py_min; call_auto |].
    intros lo. apply never_bind.
    { apply never_comprehension_in. intros s Hs.
      apply never_bind; [apply never_dict_get_in; auto |].
      intros b. apply no_key_error_np_max. }
    intros maxs. apply never_bind; [unfold py_max; call_auto |].
    intros hi. apply never_ret. }
  unfold energy_window. destruct cutoff as [c |]; [| exact Hfull].
  destruct (truthy c && metal); [apply never_ret |].
  destruct (truthy c); [apply never_ret | exact Hfull].
Qed.

Lemma no_key_error_evaluate eqs coefficients metal nw min_e max_e :
  (forall s, In s (_spins self) -> In s (keys coefficients)) ->
  never KeyError
        (evaluate_bands ext self eqs coefficients metal nw min_e max_e).
Proof.
  intros Hc. unfold evaluate_bands. apply never_for_in.
  intros s [energies new_vb_idx] Hs.
  apply never_bind; [apply never_dict_get_in; auto |]. intros b.
  apply never_bind; [apply never_dict_get_in; auto |]. intros c.
  apply never_bind; [unfold mask_select; call_auto |]. intros selected.
  destruct metal; simpl; [apply never_ret |].
  apply never_bind; [unfold py_max_nat; call_auto |].
  intros vb. apply never_ret.
Qed.

Lemma no_key_error_fermi metal energies new_vb_idx :
  (forall s, In s (_spins self) -> In s (keys energies)) ->
  (metal = false ->
   forall s, In s (_spins self) -> In s (keys new_vb_idx)) ->
  never KeyError (fermi_level self metal energies new_vb_idx).
Proof.
  intros He Hn. unfold fermi_level.
  destruct metal; [apply never_ret |]. specialize (Hn eq_refl).
  apply never_bind; [unfold never, warn; simpl; discriminate |]. intros _.
  apply never_bind.
  { apply never_comprehension_in. intros s Hs. unfold valence_top.
    apply never_bind; [apply never_dict_get_in; auto |]. intros b.
    apply never_bind; [apply never_dict_get_in; auto |]. intros i.
    apply no_key_error_np_max. }
  intros tops. apply never_bind; [unfold py_max; call_auto |]. intros hi.
  apply never_bind.
  { apply never_comprehension_in. intros s Hs. unfold conduction_bottom.
    apply never_bind; [apply never_dict_get_in; auto |]. intros b.
    apply never_bind; [apply never_dict_get_in; auto |]. intros i.
    apply no_key_error_np_min. }
  intros bottoms. apply never_bind; [unfold py_min; call_auto |].
  intros lo. apply never_ret.
Qed.

Lemma no_key_error_interpolate_bands factor cutoff nworkers :
  never KeyError (interpolate_bands ext self factor cutoff nworkers).
Proof.
  unfold interpolate_bands.
  apply never_bind_ok; [apply no_key_error_mesh |]. intros mesh _.
  apply never_bind_ok; [apply no_key_error_fit |].
  intros coefficients Hfit. apply fit_coefficients_ok in Hfit as [Hkc _].
  apply never_bind_ok; [apply no_key_error_window |].
  intros [min_e max_e] _.
  apply never_bind_ok.
  { apply no_key_error_evaluate. intros s Hs. now apply Hkc. }
  intros [energies new_vb_idx] Hev.
  apply evaluate_bands_ok in Hev as (Hke & Hkn & _).
  apply never_bind_ok.
  { apply no_key_error_fermi.
    - intros s Hs. now apply Hke.
    - intros Hm s Hs. now apply (Hkn Hm). }
  intros ef _.
  destruct (spglib_get_ir_reciprocal_mesh ext mesh _ _) as [mapping grid].
  apply never_bind_ok; [apply no_key_error_take |]. intros kp1 _.
  apply never_bind_ok; [apply no_key_error_take |]. intros kp2 _.
  apply never_bind_ok; [apply no_key_error_reorder |]. intros energies' _.
  apply never_bind_ok; [apply no_key_error_kpoint_dim |]. intros dim _.
  apply never_ret.
Qed.

End NoKeyError.

(** X1. Whatever the collaborators answer, a call of [interpolate_bands]
    on an interpolater built by its constructor raises nothing but
    [ValueError] or [IndexError]: every dictionary is read under a key that
    was written before. *)
Theorem only_value_and_index_errors
    {Sites Atoms Magmom Mommat Coef : Type}
    (ext : Collaborators Sites Atoms Magmom Mommat Coef)
    (band_structure : BandStructure Sites) (soc : bool)
    (magmom : option Magmom) (mommat : option Mommat)
    (interpolation_factor : Q) (energy_cutoff : option Q) (nworkers : Z)
    (e : exn) :
  result (interpolate_bands ext
            (Interpolater_init ext band_structure soc magmom mommat)
            interpolation_factor energy_cutoff nworkers) = inl e ->
  e = ValueError \/ e = IndexError.
Proof.
  intros H.
  destruct e; auto; exfalso.
  - revert H. apply no_key_error_interpolate_bands. intros s Hs. exact Hs.
  - revert H. apply never_interpolate_bands.
Qed.

(** The spin-polarised sample ends in one of the two. *)
Lemma only_value_and_index_errors_witness :
  exists e, result Sample.polarized_call = inl e /\
            (e = ValueError \/ e = IndexError).
Proof.
  exists ValueError. split; [reflexivity |].
  apply (only_value_and_index_errors Sample.polarized_ext Sample.polarized_bs
           false None None 5 (Some (1 # 2)) (-1)).
  reflexivity.
Defined.

Lemma interpolation_mesh_of_empty (equivalences : equivalences_t) :
  concat equivalences = [] ->
  interpolation_mesh_of equivalences = raise ValueError.
Proof.
  intros H. unfold interpolation_mesh_of, max_abs_equivalences, vstack.
  destruct equivalences as [| g gs]; [reflexivity |].
  rewrite bind_ret_l, H. reflexivity.
Qed.

(** X2. When the equivalence routine returns no lattice vector (an empty
    list, or empty groups only), the call raises [ValueError] at the mesh
    computation: nothing is fitted and no warning is emitted. *)
Theorem empty_equivalences_raise_value_error
    {Sites Atoms Magmom Mommat Coef : Type}
    (ext : Collaborators Sites Atoms Magmom Mommat Coef)
    (band_structure : BandStructure Sites) (soc : bool)
    (magmom : option Magmom) (mommat : option Mommat)
    (interpolation_factor : Q) (energy_cutoff : option Q) (nworkers : Z) :
  let self := Interpolater_init ext band_structure soc magmom mommat in
  concat (sphere_get_equivalences ext (_atoms self)
            (inject_Z (Z.of_nat (length (_kpoints self)))
             * interpolation_factor)%Q
            (_magmom self)) = [] ->
  interpolate_bands ext self interpolation_factor energy_cutoff nworkers
  = ([], inl ValueError).
Proof.
  intros self H. unfold interpolate_bands.
  rewrite (interpolation_mesh_of_empty _ H). reflexivity.
Qed.

Lemma empty_equivalences_raise_value_error_witness :
  Edge.no_equivalences_call = ([], inl ValueError).
Proof.
  apply (empty_equivalences_raise_value_error Edge.no_equivalences_ext
           Sample.metal_bs false None None 5 None (-1)).
  reflexivity.
Defined.

Lemma evaluate_bands_needs_valence_band
    {Sites Atoms Magmom Mommat Coef : Type}
    (ext : Collaborators Sites Atoms Magmom Mommat Coef)
    (self : Interpolater Sites Atoms Magmom Mommat)
    eqs coefficients nw min_e max_e spin st :
  In spin (_spins self) ->
  band_index (get_vbm ext (_band_structure self)) spin = [] ->
  result (evaluate_bands ext self eqs coefficients false nw min_e max_e)
  <> inr st.
Proof.
  intros Hs Hnone H. destruct st as [energies new_vb_idx].
  apply evaluate_bands_ok in H as (_ & _ & Hf).
  destruct (Hf spin Hs) as (b & c & sel & _ & _ & _ & _ & Hv).
  destruct (Hv eq_refl) as (vb & Hvb & _).
  rewrite Hnone in Hvb. discriminate Hvb.
Qed.

(** X3. For a non-metallic input, if [get_vbm()["band_index"]] lists no
    band for some spin channel (the valence-band maximum lies in the other
    channel), the call does not return: it raises [ValueError] or
    [IndexError] while the bands are evaluated, before the recentring
    warning is emitted. *)
Theorem spin_without_valence_band_fails
    {Sites Atoms Magmom Mommat Coef : Type}
    (ext : Collaborators Sites Atoms Magmom Mommat Coef)
    (band_structure : BandStructure Sites) (soc : bool)
    (magmom : option Magmom) (mommat : option Mommat)
    (interpolation_factor : Q) (energy_cutoff : option Q) (nworkers : Z)
    (spin : Spin) :
  let call :=
    interpolate_bands ext
      (Interpolater_init ext band_structure soc magmom mommat)
      interpolation_factor energy_cutoff nworkers in
  is_metal ext band_structure = false ->
  In spin (keys (bands band_structure)) ->
  band_index (get_vbm ext band_structure) spin = [] ->
  warnings call = [] /\
  exists e, result call = inl e /\ (e = ValueError \/ e = IndexError).
Proof.
  intros call Hm Hs Hnone. split.
  - subst call. unfold interpolate_bands.
    change (_band_structure (Interpolater_init ext band_structure soc magmom
                                               mommat))
      with band_structure.
    rewrite Hm.
    apply silent_bind_ok; [apply silent_interpolation_mesh_of |].
    intros mesh _.
    apply silent_bind_ok; [apply silent_fit_coefficients |].
    intros coefficients _.
    apply silent_bind_ok; [apply silent_energy_window |].
    intros [min_e max_e] _.
    apply silent_bind_ok; [apply silent_evaluate_bands |].
    intros st Hev. exfalso. revert Hev.
    now apply evaluate_bands_needs_valence_band with (spin := spin).
  - destruct (result call) as [e | r] eqn:Hr.
    + exists e. split; [reflexivity |].
      destruct e; auto; exfalso; revert Hr.
      * apply no_key_error_interpolate_bands. intros s H. exact H.
      * apply never_interpolate_bands.
    + exfalso. apply interpolate_bands_ok in Hr.
      destruct Hr as (mesh & coefficients & min_e & max_e & energies
                      & new_vb_idx & ef & kp1 & kp2 & energies' & Hr).
      cbv zeta in Hr. destruct Hr as (_ & _ & _ & Hev & _).
      change (_band_structure (Interpolater_init ext band_structure soc
                                                 magmom mommat))
        with band_structure in Hev.
      rewrite Hm in Hev. revert Hev.
      now apply evaluate_bands_needs_valence_band with (spin := spin).
Qed.

(** The spin-polarised sample without a cut-off: every band of the down
    channel lies in the window, yet the call fails, silently. *)
Lemma spin_without_valence_band_fails_witness :
  warnings Edge.polarized_full_call = [] /\
  exists e, result Edge.polarized_full_call = inl e /\
            (e = ValueError \/ e = IndexError).
Proof.
  apply (spin_without_valence_band_fails Sample.polarized_ext
           Sample.polarized_bs false None None 5 None (-1) Down).
  - reflexivity.
  - simpl. auto.
  - reflexivity.
Defined.

(** * Further properties: k-points and array shapes *)

Lemma Forall2_Permutation_l {A B} (R : A -> B -> Prop) xs xs' :
  Permutation xs xs' ->
  forall ys, Forall2 R xs ys ->
             exists ys', Forall2 R xs' ys' /\ Permutation ys ys'.
Proof.
  induction 1 as [| x xs xs' _ IH | x y xs | xs xs' xs'' _ IH1 _ IH2];
    intros ys H.
  - inversion H; subst. exists []. split; constructor.
  - inversion H as [| ? y ? ys0 Hxy Hrest]; subst.
    destruct (IH _ Hrest) as (ys' & H' & Hp).
    exists (y :: ys'). split; constructor; auto.
  - inversion H as [| ? b ? ys0 Hy Hrest]; subst.
    inversion Hrest as [| ? a ? ys1 Hx Hrest']; subst.
    exists (a :: b :: ys1). split; [repeat constructor; auto |].
    apply perm_swap.
  - destruct (IH1 _ H) as (ys' & H' & Hp).
    destruct (IH2 _ H') as (ys'' & H'' & Hp').
    exists ys''. split; [exact H'' |]. now transitivity ys'.
Qed.

Lemma Forall2_nth_error_functional {A} (l : list A) idx l1 l2 :
  Forall2 (fun i x => nth_error l i = Some x) idx l1 ->
  Forall2 (fun i x => nth_error l i = Some x) idx l2 ->
  l1 = l2.
Proof.
  intros H; revert l2. induction H as [| i x idx l1 Hi _ IH]; intros l2 H2.
  - now inversion H2.
  - inversion H2 as [| ? y ? l2' Hy Hrest]; subst. f_equal.
    + congruence.
    + now apply IH.
Qed.

(** Indexing by a permutation of all positions permutes the array. *)
Lemma take_perm {A} (l l' : list A) (idx : list nat) :
  result (take l idx) = inr l' ->
  Permutation idx (seq 0 (length l)) ->
  Permutation l' l.
Proof.
  intros H Hp. apply take_ok in H.
  destruct (Forall2_Permutation_l Hp H) as (l2 & H2 & Hp2).
  pose proof (take_seq l) as Hl. apply take_ok in Hl.
  assert (E : l2 = l) by (eapply Forall2_nth_error_functional; eauto).
  now rewrite E in Hp2.
Qed.

Lemma take_length {A} (l l' : list A) (idx : list nat) :
  result (take l idx) = inr l' -> length l' = length idx.
Proof.
  intros H. apply take_ok in H. symmetry. eapply Forall2_length; eauto.
Qed.

Lemma take_cols_shape (b b' : matrix) (idx : list nat) :
  result (take_cols b idx) = inr b' ->
  length b' = length b /\
  Forall (fun row => length row = length idx) b'.
Proof.
  unfold take_cols. intros H. apply comprehension_ok in H.
  induction H as [| row row' b b' Hrow _ [IHl IHf]]; simpl.
  - split; constructor.
  - split; [now rewrite IHl |]. constructor; [| exact IHf].
    now apply take_length in Hrow.
Qed.

(** X4. The k-points of a band structure returned by [interpolate_bands]
    are exactly the grid points of the symmetry routine, each divided
    component-wise by the interpolation mesh: the two sorting passes lose
    and duplicate nothing. *)
Theorem returned_kpoints_are_the_grid_points
    {Sites Atoms Magmom Mommat Coef : Type}
    (ext : Collaborators Sites Atoms Magmom Mommat Coef)
    (band_structure : BandStructure Sites) (soc : bool)
    (magmom : option Magmom) (mommat : option Mommat)
    (interpolation_factor : Q) (energy_cutoff : option Q) (nworkers : Z)
    (r : BandStructure Sites * vec3 Z) :
  let self := Interpolater_init ext band_structure soc magmom mommat in
  let equivalences :=
    sphere_get_equivalences ext (_atoms self)
      (inject_Z (Z.of_nat (length (_kpoints self))) * interpolation_factor)%Q
      (_magmom self) in
  result (interpolate_bands ext self interpolation_factor energy_cutoff
                            nworkers) = inr r ->
  exists mesh,
    result (interpolation_mesh_of equivalences) = inr mesh /\
    Permutation
      (kpoints (fst r))
      (map (grid_to_frac mesh)
           (snd (spglib_get_ir_reciprocal_mesh ext mesh
                   (get_atoms ext (structure band_structure)) (1 # 10)))).
Proof.
  intros self equivalences Hr. apply interpolate_bands_ok in Hr.
  destruct Hr as (mesh & coefficients & min_e & max_e & energies
                  & new_vb_idx & ef & kp1 & kp2 & energies' & Hr).
  cbv zeta in Hr.
  destruct Hr as (Hmesh & _ & _ & _ & _ & Hkp1 & Hkp2 & _ & _ & Hr).
  exists mesh. split; [exact Hmesh |].
  rewrite Hr. simpl kpoints.
  apply take_perm in Hkp1; [| apply lexsort_sign_first_perm].
  apply take_perm in Hkp2; [| apply lexsort_plain_perm].
  now transitivity kp1.
Qed.

(** The sample metal: the three grid points come back. *)
Lemma returned_kpoints_are_the_grid_points_witness :
  exists mesh,
    Permutation
      (kpoints (fst (Sample.returned Sample.metal_call)))
      (map (grid_to_frac mesh) [(0, 0, 0); (1, 0, 0); (-1, 0, 0)]%Z).
Proof.
  destruct (returned_kpoints_are_the_grid_points
              Sample.metal_ext Sample.metal_bs false None None 5 None (-1)
              (r := Sample.returned Sample.metal_call) eq_refl)
    as (mesh & _ & Hp).
  exists mesh. exact Hp.
Defined.

(** X5. In a band structure returned by [interpolate_bands], every band of
    every spin channel has exactly one energy per returned k-point, and
    each spin channel has as many bands as the evaluation routine
    delivered for it. *)
Theorem returned_energies_match_kpoints
    {Sites Atoms Magmom Mommat Coef : Type}
    (ext : Collaborators Sites Atoms Magmom Mommat Coef)
    (band_structure : BandStructure Sites) (soc : bool)
    (magmom : option Magmom) (mommat : option Mommat)
    (interpolation_factor : Q) (energy_cutoff : option Q) (nworkers : Z)
    (r : BandStructure Sites * vec3 Z) :
  let self := Interpolater_init ext band_structure soc magmom mommat in
  let equivalences :=
    sphere_get_equivalences ext (_atoms self)
      (inject_Z (Z.of_nat (length (_kpoints self))) * interpolation_factor)%Q
      (_magmom self) in
  let nw := if (nworkers =? -1)%Z then cpu_count ext else nworkers in
  result (interpolate_bands ext self interpolation_factor energy_cutoff
                            nworkers) = inr r ->
  exists coefficients min_e max_e energies new_vb_idx,
    result (evaluate_bands ext self equivalences coefficients
              (is_metal ext band_structure) nw min_e max_e)
    = inr (energies, new_vb_idx) /\
    forall s b', dict_find s (bands (fst r)) = Some b' ->
      Forall (fun row => length row = length (kpoints (fst r))) b' /\
      exists b, dict_find s energies = Some b /\ length b' = length b.
Proof.
  intros self equivalences nw Hr. apply interpolate_bands_ok in Hr.
  destruct Hr as (mesh & coefficients & min_e & max_e & energies
                  & new_vb_idx & ef & kp1 & kp2 & energies' & Hr).
  cbv zeta in Hr.
  destruct Hr as (_ & _ & _ & Hev & _ & _ & Hkp2 & Hre & _ & Hr).
  exists coefficients, min_e, max_e, energies, new_vb_idx.
  split; [exact Hev |].
  pose proof Hev as Hnd. apply NoDup_keys_evaluate_bands in Hnd.
  apply reorder_energies_ok in Hre as [Hk Hf]; [| exact Hnd].
  rewrite Hr. simpl bands. simpl kpoints. intros s b' Hb'.
  assert (Hs : In s (keys energies)).
  { apply Hk. apply dict_find_in_keys. eauto. }
  apply dict_find_in_keys in Hs as [b Hb].
  destruct (Hf s b Hb) as (b'' & Hb'' & Htake).
  rewrite Hb' in Hb''. injection Hb'' as <-.
  apply take_cols_shape in Htake as [Hlen Hrows].
  apply take_length in Hkp2. rewrite Hkp2.
  split; [exact Hrows |]. exists b. auto.
Qed.

(** The sample metal: two bands of three energies each. *)
Lemma returned_energies_match_kpoints_witness :
  exists b',
    dict_find Up (bands (fst (Sample.returned Sample.metal_call))) = Some b' /\
    length b' = 2%nat /\
    Forall (fun row =>
              length row
              = length (kpoints (fst (Sample.returned Sample.metal_call))))
           b'.
Proof.
  destruct (returned_energies_match_kpoints
              Sample.metal_ext Sample.metal_bs false None None 5 None (-1)
              (r := Sample.returned Sample.metal_call) eq_refl)
    as (coefficients & min_e & max_e & energies & new_vb_idx & _ & H).
  eexists. split; [reflexivity |]. split; [reflexivity |].
  now apply (H Up).
Defined.

(** * Further properties: calls that return *)

Lemma for_total {A S} (xs : list A) (body : A -> S -> M S) :
  (forall x st, In x xs -> exists st', result (body x st) = inr st') ->
  forall st, exists st', result (for_ xs st body) = inr st'.
Proof.
  induction xs as [| x xs IH]; intros Hb st; simpl.
  - eexists. reflexivity.
  - destruct (Hb x st (or_introl eq_refl)) as [st1 H1].
    destruct (IH (fun y s Hy => Hb y s (or_intror Hy)) st1) as [st2 H2].
    exists st2. now rewrite (result_bind_intro _ _ H1).
Qed.

Lemma take_total {A} (l : list A) (idx : list nat) :
  (forall i, In i idx -> (i < length l)%nat) ->
  exists l', result (take l idx) = inr l'.
Proof.
  unfold take. induction idx as [| i idx IH]; intros H; simpl.
  - eexists. reflexivity.
  - destruct (IH (fun j Hj => H j (or_intror Hj))) as [l' Hl'].
    destruct (nth_error l i) as [x |] eqn:E.
    + exists (x :: l'). rewrite bind_ret_l.
      now rewrite (result_bind_intro _ _ Hl').
    + apply nth_error_None in E.
      specialize (H i (or_introl eq_refl)). lia.
Qed.

Lemma take_cols_total (b : matrix) (idx : list nat) :
  (forall row i, In row b -> In i idx -> (i < length row)%nat) ->
  exists b', result (take_cols b idx) = inr b'.
Proof.
  unfold take_cols. induction b as [| row b IH]; intros H; simpl.
  - eexists. reflexivity.
  - destruct (take_total row idx (fun i Hi => H row i (or_introl eq_refl) Hi))
      as [row' Hrow'].
    destruct (IH (fun r i Hr Hi => H r i (or_intror Hr) Hi)) as [b' Hb'].
    exists (row' :: b').
    rewrite (result_bind_intro _ _ Hrow'), (result_bind_intro _ _ Hb').
    reflexivity.
Qed.

Lemma lexsort_plain_bound (k : list (vec3 Q)) i :
  In i (lexsort (plain_keys k)) -> (i < length k)%nat.
Proof.
  intros H. eapply Permutation_in in H; [| apply lexsort_plain_perm].
  apply in_seq in H. lia.
Qed.

Lemma lexsort_sign_first_bound (k : list (vec3 Q)) i :
  In i (lexsort (sign_first_keys k)) -> (i < length k)%nat.
Proof.
  intros H. eapply Permutation_in in H; [| apply lexsort_sign_first_perm].
  apply in_seq in H. lia.
Qed.

Lemma mask_select_total {A} (rows : list A) (mask : list bool) :
  length mask = length rows ->
  mask_select rows mask = ret (mask_rows mask rows).
Proof.
  intros H. unfold mask_select. now rewrite H, Nat.eqb_refl.
Qed.

Lemma kpoint_dim_of_interpolation_mesh (equivalences : equivalences_t) :
  kpoint_dim_of equivalences = interpolation_mesh_of equivalences.
Proof.
  unfold kpoint_dim_of, interpolation_mesh_of.
  destruct (max_abs_equivalences equivalences) as [w [e | [[x y] z]]];
    [reflexivity |].
  unfold bind.
  now rewrite (Z.mul_comm x), (Z.mul_comm y), (Z.mul_comm z).
Qed.

Lemma interpolation_mesh_of_total (equivalences : equivalences_t) :
  concat equivalences <> [] ->
  exists mesh, interpolation_mesh_of equivalences = ret mesh.
Proof.
  intros H.
  destruct (max_abs_equivalences_spec equivalences H)
    as (mx & my & mz & _ & _ & _ & Hmax).
  unfold interpolation_mesh_of. rewrite Hmax, bind_ret_l.
  eexists. reflexivity.
Qed.

Section MetalCallReturns.
Context {Sites Atoms Magmom Mommat Coef : Type}.
Variable ext : Collaborators Sites Atoms Magmom Mommat Coef.
Variable self : Interpolater Sites Atoms Magmom Mommat.
Variable equivalences : equivalences_t.
Variables (nw : Z) (min_e max_e : Q).

Let bs := _band_structure self.

Hypothesis spins_are_keys :
  forall s, In s (_spins self) -> In s (keys (bands bs)).

Hypothesis fit_shape :
  forall s b, dict_find s (bands bs) = Some b ->
              length (fitted ext self equivalences b) = length b.

Lemma fit_coefficients_total :
  exists coefficients,
    result (fit_coefficients ext self equivalences) = inr coefficients.
Proof.
  unfold fit_coefficients. apply for_total. intros s st Hs.
  destruct (dict_get_in _ _ (spins_are_keys s Hs)) as [b Hb].
  fold bs. rewrite Hb, bind_ret_l. eexists. reflexivity.
Qed.

Lemma evaluate_bands_total_metal coefficients :
  result (fit_coefficients ext self equivalences) = inr coefficients ->
  exists st,
    result (evaluate_bands ext self equivalences coefficients true nw
                           min_e max_e) = inr st.
Proof.
  intros Hfit. apply fit_coefficients_ok in Hfit as [_ Hf].
  unfold evaluate_bands. apply for_total.
  intros s [energies new_vb_idx] Hs.
  destruct (Hf s Hs) as (b & Hb & Hc). fold bs in Hb |- *.
  unfold dict_get at 1. rewrite Hb, bind_ret_l.
  unfold dict_get at 1. rewrite Hc, bind_ret_l.
  rewrite mask_select_total, bind_ret_l.
  - simpl. eexists. reflexivity.
  - rewrite length_band_mask. symmetry. now apply fit_shape with (s := s).
Qed.

End MetalCallReturns.

(** X6. A metallic input with a non-zero cut-off is interpolated without
    an exception as soon as the collaborators keep their shapes: the
    equivalence routine returns at least one vector, the fit returns one
    coefficient row per band, and the evaluation returns, for the selected
    rows of every spin, energies on at least as many points as the
    symmetry routine's grid has. *)
Theorem metallic_call_with_cutoff_returns
    {Sites Atoms Magmom Mommat Coef : Type}
    (ext : Collaborators Sites Atoms Magmom Mommat Coef)
    (band_structure : BandStructure Sites) (soc : bool)
    (magmom : option Magmom) (mommat : option Mommat)
    (interpolation_factor cutoff : Q) (nworkers : Z) :
  let self := Interpolater_init ext band_structure soc magmom mommat in
  let equivalences :=
    sphere_get_equivalences ext (_atoms self)
      (inject_Z (Z.of_nat (length (_kpoints self))) * interpolation_factor)%Q
      (_magmom self) in
  let nw := if (nworkers =? -1)%Z then cpu_count ext else nworkers in
  is_metal ext band_structure = true ->
  ~ (cutoff == 0)%Q ->
  concat equivalences <> [] ->
  (forall s b,
      dict_find s (bands band_structure) = Some b ->
      length (fitted ext self equivalences b) = length b) ->
  (forall mesh s b row,
      result (interpolation_mesh_of equivalences) = inr mesh ->
      dict_find s (bands band_structure) = Some b ->
      In row (fite_getBTPbands ext equivalences
                (mask_rows
                   (band_mask b (efermi band_structure - cutoff)
                              (efermi band_structure + cutoff))
                   (fitted ext self equivalences b))
                (_lattice_matrix self) nw) ->
      (length (snd (spglib_get_ir_reciprocal_mesh ext mesh
                      (get_atoms ext (structure band_structure)) (1 # 10)))
       <= length row)%nat) ->
  exists r,
    result (interpolate_bands ext self interpolation_factor (Some cutoff)
                              nworkers) = inr r.
Proof.
  intros self equivalences nw Hm Hc Hne Hfitshape Hevalshape.
  destruct (interpolation_mesh_of_total equivalences Hne) as [mesh Hmesh].
  assert (Hkeys : forall s, In s (_spins self) ->
                            In s (keys (bands (_band_structure self))))
    by (intros s H; exact H).
  destruct (@fit_coefficients_total _ _ _ _ _ ext self equivalences Hkeys)
    as [coefficients Hfit].
  destruct (@evaluate_bands_total_metal _ _ _ _ _ ext self equivalences nw
              (efermi band_structure - cutoff)
              (efermi band_structure + cutoff) Hfitshape coefficients Hfit)
    as [[energies new_vb_idx] Hev].
  unfold interpolate_bands. cbv zeta.
  fold equivalences. rewrite Hmesh, bind_ret_l.
  rewrite (result_bind_intro _ _ Hfit).
  change (_band_structure self) with band_structure.
  rewrite Hm.
  rewrite (energy_window_metal_cutoff ext self Hc), bind_ret_l.
  change (_band_structure self) with band_structure.
  fold nw. rewrite (result_bind_intro _ _ Hev).
  unfold fermi_level. rewrite bind_ret_l.
  destruct (spglib_get_ir_reciprocal_mesh ext mesh
              (get_atoms ext (structure band_structure)) (1 # 10))
    as [mapping grid] eqn:Eg.
  set (kp0 := map (grid_to_frac mesh) grid).
  destruct (take_total kp0 (lexsort (sign_first_keys kp0))
                       (lexsort_sign_first_bound kp0)) as [kp1 Hkp1].
  rewrite (result_bind_intro _ _ Hkp1).
  destruct (take_total kp1 (lexsort (plain_keys kp1))
                       (lexsort_plain_bound kp1)) as [kp2 Hkp2].
  rewrite (result_bind_intro _ _ Hkp2).
  assert (Hlen : length kp1 = length grid).
  { apply take_length in Hkp1. rewrite Hkp1.
    rewrite (Permutation_length (lexsort_sign_first_perm kp0)).
    unfold kp0. now rewrite length_seq, length_map. }
  assert (Hre : exists energies',
             result (reorder_energies energies (lexsort (plain_keys kp1)))
             = inr energies').
  { pose proof Hev as Hnd. apply NoDup_keys_evaluate_bands in Hnd.
    pose proof Hfit as Hfit'.
    apply fit_coefficients_ok in Hfit' as [_ Hfc].
    pose proof Hev as Hev'.
    apply evaluate_bands_ok in Hev' as (Hke & _ & Hf).
    unfold reorder_energies. apply for_total. intros [s b] acc Hin.
    assert (Hs : In s (_spins self)).
    { apply Hke. change s with (fst (s, b)). now apply in_map. }
    apply dict_find_In in Hin; [| exact Hnd].
    destruct (Hf s Hs) as (b0 & c & sel & Hb0 & Hc0 & Hsel & He & _).
    destruct (Hfc s Hs) as (b1 & Hb1 & Hc1).
    change (_band_structure self) with band_structure in Hb0, Hb1.
    rewrite Hb0 in Hb1. injection Hb1 as <-.
    rewrite Hc0 in Hc1. injection Hc1 as ->.
    rewrite mask_select_total in Hsel
      by (rewrite length_band_mask; symmetry; now apply Hfitshape with s).
    injection Hsel as <-.
    rewrite Hin in He. injection He as ->.
    destruct (take_cols_total
                (evaluated ext self equivalences nw
                   (mask_rows
                      (band_mask b0 (efermi band_structure - cutoff)
                                 (efermi band_structure + cutoff))
                      (fitted ext self equivalences b0)))
                (lexsort (plain_keys kp1))) as [b' Hb'].
    - intros row i Hrow Hi. apply lexsort_plain_bound in Hi.
      unfold evaluated, unscale in Hrow.
      apply in_map_iff in Hrow as (row0 & <- & Hrow0).
      rewrite length_map.
      specialize (Hevalshape mesh s b0 row0).
      rewrite Hmesh, Eg in Hevalshape. simpl in Hevalshape.
      specialize (Hevalshape eq_refl Hb0 Hrow0). lia.
    - rewrite (result_bind_intro _ _ Hb'). eexists. reflexivity. }
  destruct Hre as [energies' Hre].
  rewrite (result_bind_intro _ _ Hre).
  rewrite kpoint_dim_of_interpolation_mesh, Hmesh, bind_ret_l.
  eexists. reflexivity.
Qed.

(** The sample metal with a cut-off of 3 eV. *)
Lemma metallic_call_with_cutoff_returns_witness :
  exists r, result Edge.wide_cutoff_call = inr r.
Proof.
  apply (metallic_call_with_cutoff_returns Sample.metal_ext Sample.metal_bs
           false None None 5 (-1) (cutoff := 3)).
  - reflexivity.
  - discriminate.
  - discriminate.
  - intros s b _. unfold fitted. simpl. unfold scale. apply length_map.
  - intros mesh s b row _ Hb Hrow. simpl.
    destruct s; simpl in Hb; [| discriminate]. injection Hb as <-.
    simpl in Hrow. destruct Hrow as [<- | [<- | []]]; simpl; lia.
Defined.

(** X7. When a call on a non-metallic input returns, every spin channel
    had, among its evaluated bands, at least one at or below its new
    valence-band index and at least one above it: the index is not
    negative and is not the last row of that spin's energy array. *)
Theorem returning_semiconductor_has_both_kinds_of_bands
    {Sites Atoms Magmom Mommat Coef : Type}
    (ext : Collaborators Sites Atoms Magmom Mommat Coef)
    (band_structure : BandStructure Sites) (soc : bool)
    (magmom : option Magmom) (mommat : option Mommat)
    (interpolation_factor : Q) (energy_cutoff : option Q) (nworkers : Z)
    (r : BandStructure Sites * vec3 Z) :
  let self := Interpolater_init ext band_structure soc magmom mommat in
  let equivalences :=
    sphere_get_equivalences ext (_atoms self)
      (inject_Z (Z.of_nat (length (_kpoints self))) * interpolation_factor)%Q
      (_magmom self) in
  let nw := if (nworkers =? -1)%Z then cpu_count ext else nworkers in
  is_metal ext band_structure = false ->
  result (interpolate_bands ext self interpolation_factor energy_cutoff
                            nworkers) = inr r ->
  exists coefficients min_e max_e energies new_vb_idx,
    result (evaluate_bands ext self equivalences coefficients false nw
                           min_e max_e) = inr (energies, new_vb_idx) /\
    forall s, In s (keys (bands band_structure)) ->
      exists b i,
        dict_find s energies = Some b /\
        dict_find s new_vb_idx = Some i /\
        (0 <= i /\ i + 1 < Z.of_nat (length b))%Z.
Proof.
  intros self equivalences nw Hm Hr. apply interpolate_bands_ok in Hr.
  destruct Hr as (mesh & coefficients & min_e & max_e & energies
                  & new_vb_idx & ef & kp1 & kp2 & energies' & Hr).
  cbv zeta in Hr. destruct Hr as (_ & _ & _ & Hev & Hef & _).
  change (_band_structure self) with band_structure in Hev, Hef.
  rewrite Hm in Hev, Hef.
  exists coefficients, min_e, max_e, energies, new_vb_idx.
  split; [exact Hev |]. intros s Hs.
  apply evaluate_bands_ok in Hev as (_ & _ & Hf).
  destruct (Hf s Hs) as (b0 & c & sel & _ & _ & _ & He & Hv).
  destruct (Hv eq_refl) as (vb & _ & Hidx).
  pose proof (new_valence_index_lower
                (band_mask b0 min_e max_e) vb) as Hlow.
  unfold fermi_level in Hef.
  apply result_bind_ok in Hef as (u & _ & Hef).
  apply result_bind_ok in Hef as (tops & Htops & Hef).
  apply result_bind_ok in Hef as (e_vbm & _ & Hef).
  apply result_bind_ok in Hef as (bottoms & Hbottoms & _).
  apply comprehension_ok in Htops. apply comprehension_ok in Hbottoms.
  destruct (Forall2_In_l _ Htops Hs) as (y & _ & Hy).
  destruct (Forall2_In_l _ Hbottoms Hs) as (z & _ & Hz).
  unfold valence_top in Hy. unfold conduction_bottom in Hz.
  apply result_bind_ok in Hy as (b & Hb & Hy).
  apply result_bind_ok in Hy as (i & Hi & Hy).
  apply result_bind_ok in Hz as (b' & Hb' & Hz).
  apply result_bind_ok in Hz as (i' & Hi' & Hz).
  apply dict_get_ok in Hb, Hi, Hb', Hi'.
  rewrite Hb in Hb'. injection Hb' as <-.
  rewrite Hi in Hi'. injection Hi' as <-.
  rewrite Hidx in Hi. injection Hi as <-.
  exists b, (new_valence_index (band_mask b0 min_e max_e) vb).
  split; [exact Hb |]. split; [exact Hidx |].
  apply np_max_spec in Hy as [(row & Hrow & _) _].
  apply np_min_spec in Hz as [(row' & Hrow' & _) _].
  apply In_slice_to in Hrow as (n & Hn & _); [| exact Hlow].
  apply In_slice_from in Hrow' as (n' & Hn' & Hnth); [| exact Hlow].
  assert (n' < length b)%nat by (apply nth_error_Some; congruence).
  lia.
Qed.

(** The sample semiconductor: valence index 1 in an array of three
    bands, for both spin channels. *)
Lemma returning_semiconductor_has_both_kinds_of_bands_witness :
  exists energies new_vb_idx,
    forall s, In s [Up; Down] ->
      exists (b : matrix) i,
        dict_find s energies = Some b /\
        dict_find s new_vb_idx = Some i /\
        (0 <= i /\ i + 1 < Z.of_nat (length b))%Z.
Proof.
  destruct (returning_semiconductor_has_both_kinds_of_bands
              Sample.gapped_ext Sample.gapped_bs false None None 5 None (-1)
              (r := Sample.returned Sample.gapped_call) eq_refl eq_refl)
    as (coefficients & min_e & max_e & energies & new_vb_idx & _ & H).
  exists energies, new_vb_idx. exact H.
Defined.

(** * Further properties: the window and the mask *)

(** X8. Raising a positive cut-off never drops a band: for a metallic and
    for a non-metallic input alike, a band that passes the mask under the
    window of a cut-off [c1 > 0] passes it under the window of every
    cut-off [c2 >= c1]. *)
Theorem larger_cutoff_keeps_selected_bands
    {Sites Atoms Magmom Mommat Coef : Type}
    (ext : Collaborators Sites Atoms Magmom Mommat Coef)
    (self : Interpolater Sites Atoms Magmom Mommat) (metal : bool)
    (c1 c2 lo1 hi1 lo2 hi2 : Q) (b : matrix) (i : nat) :
  (0 < c1)%Q -> (c1 <= c2)%Q ->
  result (energy_window ext self (Some c1) metal) = inr (lo1, hi1) ->
  result (energy_window ext self (Some c2) metal) = inr (lo2, hi2) ->
  band_selected b lo1 hi1 i = true ->
  band_selected b lo2 hi2 i = true.
Proof.
  intros H1 H12 Hw1 Hw2 Hsel.
  assert (Ht : forall c, (0 < c)%Q -> truthy c = true).
  { intros c Hc. unfold truthy. apply negb_true_iff.
    destruct (Qeq_bool c 0) eqn:E; [| reflexivity].
    apply Qeq_bool_iff in E. rewrite E in Hc.
    exfalso. exact (Qlt_irrefl _ Hc). }
  unfold energy_window in Hw1, Hw2.
  rewrite (Ht c1 H1) in Hw1.
  rewrite (Ht c2 (Qlt_le_trans _ _ _ H1 H12)) in Hw2.
  apply band_selected_iff in Hsel as (row & e & Hrow & He & Hlo & Hhi).
  apply band_selected_iff. exists row, e.
  split; [exact Hrow |]. split; [exact He |].
  destruct metal; simpl in Hw1, Hw2;
    injection Hw1 as <- <-; injection Hw2 as <- <-; split; lra.
Qed.

Lemma larger_cutoff_keeps_selected_bands_witness :
  band_selected [[-3; 2; 2]; [1; 4; 4]] (0 - 3) (0 + 3) 1 = true.
Proof.
  apply (larger_cutoff_keeps_selected_bands Sample.metal_ext
           (Sample.interpolater Sample.metal_ext Sample.metal_bs) true
           (c1 := 2) (c2 := 3) (lo1 := 0 - 2) (hi1 := 0 + 2)).
  - reflexivity.
  - discriminate.
  - reflexivity.
  - reflexivity.
  - reflexivity.
Defined.



(** X10. For a metallic input a negative cut-off turns the window inside
    out: no band of any array passes the mask. *)
Theorem negative_cutoff_selects_no_band_of_a_metal
    {Sites Atoms Magmom Mommat Coef : Type}
    (ext : Collaborators Sites Atoms Magmom Mommat Coef)
    (self : Interpolater Sites Atoms Magmom Mommat)
    (cutoff min_e max_e : Q) (b : matrix) :
  (cutoff < 0)%Q ->
  result (energy_window ext self (Some cutoff) true) = inr (min_e, max_e) ->
  band_mask b min_e max_e = repeat false (length b).
Proof.
  intros Hc Hw.
  rewrite energy_window_metal_cutoff in Hw.
  - injection Hw as <- <-.
    assert (Hnone : forall i,
               band_selected b (efermi (_band_structure self) - cutoff)
                 (efermi (_band_structure self) + cutoff) i = false).
    { intros i.
      destruct (band_selected b (efermi (_band_structure self) - cutoff)
                  (efermi (_band_structure self) + cutoff) i) eqn:E;
        [| reflexivity].
      apply band_selected_iff in E as (row & e & _ & _ & Hlo & Hhi).
      exfalso. lra. }
    apply nth_ext with (d := false) (d' := false).
    + now rewrite length_band_mask, repeat_length.
    + intros n _. rewrite band_mask_nth, Hnone.
      symmetry. apply nth_repeat.
  - intros E. rewrite E in Hc. exact (Qlt_irrefl _ Hc).
Qed.

Lemma negative_cutoff_selects_no_band_of_a_metal_witness :
  band_mask [[-3; 2; 2]; [1; 4; 4]] (0 - -1) (0 + -1) = [false; false].
Proof.
  apply (negative_cutoff_selects_no_band_of_a_metal Sample.metal_ext
           (Sample.interpolater Sample.metal_ext Sample.metal_bs)
           (cutoff := -1)).
  - reflexivity.
  - reflexivity.
Defined.

(** * Further properties: mesh and valence index *)

Lemma max_abs_equivalences_nonneg (equivalences : equivalences_t) x y z :
  result (max_abs_equivalences equivalences) = inr (x, y, z) ->
  (0 <= x /\ 0 <= y /\ 0 <= z)%Z.
Proof.
  intros H.
  destruct (concat equivalences) as [| v vs] eqn:E.
  - exfalso. revert H. unfold max_abs_equivalences, vstack.
    destruct equivalences as [| g gs]; [discriminate |].
    rewrite bind_ret_l, E. discriminate.
  - assert (Hne : concat equivalences <> []) by (rewrite E; discriminate).
    destruct (max_abs_equivalences_spec equivalences Hne)
      as (mx & my & mz & [(vx & _ & Hx) _] & [(vy & _ & Hy) _]
          & [(vz & _ & Hz) _] & Hmax).
    rewrite Hmax in H. injection H as <- <- <-.
    subst mx my mz. repeat split; apply Z.abs_nonneg.
Qed.

(** X11. The mesh dimensions a call returns are those it handed to the
    symmetry routine and divided the grid by, and each of them is a
    positive odd number, so that the division of line 166 never divides
    by zero. *)
Theorem returned_mesh_is_odd_and_positive
    {Sites Atoms Magmom Mommat Coef : Type}
    (ext : Collaborators Sites Atoms Magmom Mommat Coef)
    (band_structure : BandStructure Sites) (soc : bool)
    (magmom : option Magmom) (mommat : option Mommat)
    (interpolation_factor : Q) (energy_cutoff : option Q) (nworkers : Z)
    (r : BandStructure Sites * vec3 Z) :
  let self := Interpolater_init ext band_structure soc magmom mommat in
  let equivalences :=
    sphere_get_equivalences ext (_atoms self)
      (inject_Z (Z.of_nat (length (_kpoints self))) * interpolation_factor)%Q
      (_magmom self) in
  result (interpolate_bands ext self interpolation_factor energy_cutoff
                            nworkers) = inr r ->
  result (interpolation_mesh_of equivalences) = inr (snd r) /\
  (0 < c0 (snd r) /\ Z.odd (c0 (snd r)) = true)%Z /\
  (0 < c1 (snd r) /\ Z.odd (c1 (snd r)) = true)%Z /\
  (0 < c2 (snd r) /\ Z.odd (c2 (snd r)) = true)%Z.
Proof.
  intros self equivalences Hr. apply interpolate_bands_ok in Hr.
  destruct Hr as (mesh & coefficients & min_e & max_e & energies
                  & new_vb_idx & ef & kp1 & kp2 & energies' & Hr).
  cbv zeta in Hr.
  destruct Hr as (_ & _ & _ & _ & _ & _ & _ & _ & Hdim & _).
  fold self equivalences in Hdim.
  rewrite kpoint_dim_of_interpolation_mesh in Hdim.
  split; [exact Hdim |].
  unfold interpolation_mesh_of in Hdim.
  apply result_bind_ok in Hdim as ([[x y] z] & Hmax & Hdim).
  apply max_abs_equivalences_nonneg in Hmax as (Hx & Hy & Hz).
  assert (Hs : snd r = (2 * x + 1, 2 * y + 1, 2 * z + 1)%Z).
  { injection Hdim as Hdim. symmetry. exact Hdim. }
  rewrite Hs. unfold c0, c1, c2. cbn [fst snd].
  assert (Hodd : forall n, Z.odd (2 * n + 1) = true).
  { intros n. rewrite Z.add_comm. apply Z.odd_add_mul_2. }
  rewrite !Hodd. repeat split; lia.
Qed.

Lemma returned_mesh_is_odd_and_positive_witness :
  snd (Sample.returned Sample.metal_call) = (3, 1, 1)%Z /\
  (0 < c0 (snd (Sample.returned Sample.metal_call)))%Z.
Proof.
  destruct (returned_mesh_is_odd_and_positive
              Sample.metal_ext Sample.metal_bs false None None 5 None (-1)
              (r := Sample.returned Sample.metal_call) eq_refl)
    as (_ & [Hpos _] & _).
  split; [reflexivity | exact Hpos].
Defined.

Lemma count_upto (vb n : nat) :
  (vb < n)%nat ->
  length (filter (fun i => (i <=? vb)%nat) (seq 0 n)) = S vb.
Proof.
  intros H. replace n with (S vb + (n - S vb))%nat by lia.
  rewrite seq_app, filter_app, length_app.
  rewrite (filter_none (fun i => (i <=? vb)%nat) (seq (0 + S vb) (n - S vb))).
  - simpl length at 2. rewrite Nat.add_0_r.
    replace (filter (fun i => (i <=? vb)%nat) (seq 0 (S vb)))
      with (seq 0 (S vb)); [apply length_seq |].
    symmetry. apply forallb_filter_id. apply forallb_forall.
    intros i Hi. apply in_seq in Hi. apply Nat.leb_le. lia.
  - intros i Hi. apply in_seq in Hi. apply Nat.leb_gt. lia.
Qed.

(** X12. Band selection leaves the valence-band index where it was
    whenever no band at or below the original index is dropped. *)
Theorem valence_index_unchanged_when_nothing_is_dropped
    (b : matrix) (min_e max_e : Q) (vb_idx : nat) :
  (vb_idx < length b)%nat ->
  (forall i, (i <= vb_idx)%nat -> band_selected b min_e max_e i = true) ->
  new_valence_index (band_mask b min_e max_e) vb_idx = Z.of_nat vb_idx.
Proof.
  intros Hvb Hall. rewrite new_valence_index_count.
  unfold selected_at_or_below.
  rewrite (filter_ext_in
             (fun i => (i <=? vb_idx)%nat && band_selected b min_e max_e i)
             (fun i => (i <=? vb_idx)%nat)).
  - rewrite count_upto by exact Hvb. lia.
  - intros i _. destruct (i <=? vb_idx)%nat eqn:E; [| reflexivity].
    apply Nat.leb_le in E. now rewrite Hall.
Qed.

Lemma valence_index_unchanged_when_nothing_is_dropped_witness :
  new_valence_index
    (band_mask [[-3; -(5 # 2); -(5 # 2)]; [-1; -2; -2]; [1; 2; 2]] (-3) 2) 1
  = 1%Z.
Proof.
  apply valence_index_unchanged_when_nothing_is_dropped.
  - simpl. lia.
  - intros [| [| i]] Hi; [reflexivity | reflexivity | lia].
Defined.

Lemma length_mask_rows {A} (mask : list bool) (rows : list A) :
  length mask = length rows ->
  length (mask_rows mask rows) = length (filter (fun x => x) mask).
Proof.
  revert rows; induction mask as [| m mask IH]; intros [| r rows] H;
    simpl in *; try discriminate; [reflexivity |].
  injection H as H. destruct m; simpl; rewrite IH; auto.
Qed.

Lemma count_firstn_le (mask : list bool) (k : nat) :
  (length (filter (fun x => x) (firstn k mask))
   <= length (filter (fun x => x) mask))%nat /\
  (length (filter (fun x => x) (firstn k mask)) <= k)%nat.
Proof.
  revert k; induction mask as [| m mask IH]; intros [| k]; simpl;
    try (split; lia).
  destruct (IH k) as [H1 H2]. destruct m; simpl; split; lia.
Qed.

(** X13. The new valence-band index is at least -1, at most the original
    index, and smaller than the number of coefficient rows the mask
    selects: a non-negative index always designates one of the rows handed
    to the evaluation routine. *)
Theorem new_valence_index_bounds
    {Coef : Type} (ibands : list bool) (coefficients : list Coef)
    (vb_idx : nat) (selected : list Coef) :
  result (mask_select coefficients ibands) = inr selected ->
  (-1 <= new_valence_index ibands vb_idx <= Z.of_nat vb_idx)%Z /\
  (new_valence_index ibands vb_idx < Z.of_nat (length selected))%Z.
Proof.
  unfold mask_select. destruct (length ibands =? length coefficients)%nat eqn:E;
    [| discriminate].
  apply Nat.eqb_eq in E. intros [= <-].
  rewrite (length_mask_rows _ _ E).
  unfold new_valence_index, slice_to.
  replace (Z.of_nat vb_idx + 1 <? 0)%Z with false
    by (symmetry; apply Z.ltb_ge; lia).
  replace (Z.to_nat (Z.of_nat vb_idx + 1)) with (S vb_idx) by lia.
  rewrite sum_bools_count.
  destruct (count_firstn_le ibands (S vb_idx)) as [H1 H2]. lia.
Qed.

Lemma new_valence_index_bounds_witness :
  (-1 <= new_valence_index [false; true; true] 1 <= 1)%Z /\
  (new_valence_index [false; true; true] 1 < 2)%Z.
Proof.
  apply (new_valence_index_bounds [false; true; true] [1; 2; 3]%Z 1
           (selected := [2; 3]%Z)).
  reflexivity.
Defined.

(** * Further properties: what a call hands back *)

(** X15. A returned band structure carries the crystal structure of the
    input and, as its lattice, the lattice of that structure; together with
    the mesh it is all a call hands back. *)
Theorem returned_structure_is_the_input_structure
    {Sites Atoms Magmom Mommat Coef : Type}
    (ext : Collaborators Sites Atoms Magmom Mommat Coef)
    (band_structure : BandStructure Sites) (soc : bool)
    (magmom : option Magmom) (mommat : option Mommat)
    (interpolation_factor : Q) (energy_cutoff : option Q) (nworkers : Z)
    (r : BandStructure Sites * vec3 Z) :
  result (interpolate_bands ext
            (Interpolater_init ext band_structure soc magmom mommat)
            interpolation_factor energy_cutoff nworkers) = inr r ->
  structure (fst r) = structure band_structure /\
  lattice_rec (fst r) = lattice (structure band_structure).
Proof.
  intros Hr. apply interpolate_bands_ok in Hr.
  destruct Hr as (mesh & coefficients & min_e & max_e & energies
                  & new_vb_idx & ef & kp1 & kp2 & energies' & Hr).
  cbv zeta in Hr.
  destruct Hr as (_ & _ & _ & _ & _ & _ & _ & _ & _ & Hr).
  rewrite Hr. split; reflexivity.
Qed.

Lemma returned_structure_is_the_input_structure_witness :
  structure (fst (Sample.returned Sample.gapped_call)) = Sample.cell /\
  lattice_rec (fst (Sample.returned Sample.gapped_call))
  = lattice Sample.cell.
Proof.
  apply (returned_structure_is_the_input_structure
           Sample.gapped_ext Sample.gapped_bs false None None 5 None (-1)).
  reflexivity.
Defined.
